(** * Scene resource reclaimer: [src/Process/ObjectRemovalHelper.js]

    A shallow embedding of the four operations of the helper ([cleanup],
    [removeChildren], [removeChildrenAndCleanup] and
    [removeChildrenAndCleanupRecursively]) over a store of scene nodes,
    followed by the properties of the specification that concern them.

    Scene nodes are mutable JavaScript objects and are shared (a node can be
    a child of one node and an entry of the [link] list of another), so they
    live in a store indexed by object identity.  Layers, materials, textures
    and geometries are only read or released by the helper; a reference to
    one of them carries the identity of the object together with the fields
    the helper reads. *)

From stdpp Require Import base option list gmap strings.
From Stdlib Require Import Lia.

Open Scope string_scope.
Open Scope list_scope.

(** ** Data model *)

(** Object identities. *)
Definition loc := positive.
Bind Scope positive_scope with loc.

(** A layer object: its identity and its [id].  [===] on two layer references
    is equality of the records. *)
Record Layer := { layer_ref : loc; layer_id : string }.

#[global] Instance Layer_eq_dec : EqDecision Layer.
Proof. solve_decision. Defined.

(** The value of a property of a material, as far as
    [val && val.isTexture] tells values apart. *)
Inductive PropertyValue :=
| Texture (t : loc)
| NotTexture.

#[global] Instance PropertyValue_eq_dec : EqDecision PropertyValue.
Proof. solve_decision. Defined.

(** A material: its identity and its own enumerable properties in the order
    of [Object.keys]. *)
Record Material := {
  material_ref : loc;
  material_keys : list (string * PropertyValue)
}.

(** [obj.material]: falsy, one material, or an array of materials. *)
Inductive MaterialSlot :=
| NoMaterial
| OneMaterial (m : Material)
| MaterialArray (ms : list Material).

(** The fields of an [Object3D] that the helper reads or writes.
    [layer = None] stands for a falsy [obj.layer] (null or undefined),
    [dispose] for [typeof obj.dispose === 'function'], [link = None] for a
    falsy [obj.link]. *)
Record Object3D := {
  layer : option Layer;
  isScene : bool;
  dispose : bool;
  geometry : option loc;
  material : MaterialSlot;
  link : option (list loc);
  children : list loc
}.

Definition set_layer (v : option Layer) (o : Object3D) : Object3D :=
  {| layer := v; isScene := isScene o; dispose := dispose o;
     geometry := geometry o; material := material o; link := link o;
     children := children o |}.

Definition set_children (cs : list loc) (o : Object3D) : Object3D :=
  {| layer := layer o; isScene := isScene o; dispose := dispose o;
     geometry := geometry o; material := material o; link := link o;
     children := cs |}.

(** The calls the helper makes into the 3D engine, in the order it makes
    them.  What the engine does inside [dispose()], [dispatchEvent()] and the
    listeners is outside the helper; the trace records that the call was
    made. *)
Inductive Event :=
| GeometryDispose (g : loc)
| MaterialDispose (m : loc)
| TextureDispose (t : loc)
| ObjectDispose (o : loc)
| DispatchEvent (o : loc) (type : string)
| Remove (o : loc) (objects : list loc).

#[global] Instance Event_eq_dec : EqDecision Event.
Proof. solve_decision. Defined.

(** The store and the calls made so far.  A stored node is a complete
    [Object3D]: it has its [children] array and its methods [remove] and
    [dispatchEvent], its material entries are materials, and what it holds
    can be disposed of; the layer given to an operation is a layer object.
    A reference that is not in the store stands for null or undefined.  What
    the code does on other values (an object without [children] or without
    [dispatchEvent], a null material entry, a null layer) is not modelled. *)
Record World := {
  heap : gmap loc Object3D;
  trace : list Event
}.

(** ** Computations: state, [TypeError] and fuel

    A computation runs on a world and returns a value with the next world,
    throws (a property of [undefined] was read), or runs out of fuel. *)

Inductive Result (A : Type) : Type :=
| Ok (a : A) (w : World)
| TypeError
| OutOfFuel.
Arguments Ok {A} a w.
Arguments TypeError {A}.
Arguments OutOfFuel {A}.

Definition Js (A : Type) : Type := World -> Result A.

Definition ret {A} (a : A) : Js A := fun w => Ok a w.

Definition bind {A B} (m : Js A) (k : A -> Js B) : Js B :=
  fun w =>
    match m w with
    | Ok a w' => k a w'
    | TypeError => TypeError
    | OutOfFuel => OutOfFuel
    end.

Declare Scope js_scope.
Delimit Scope js_scope with js.
Notation "x <- m ;; k" := (bind m (fun x => k))
  (at level 100, m at next level, k at level 200, right associativity)
  : js_scope.
Notation "m ;; k" := (bind m (fun _ => k))
  (at level 100, k at level 200, right associativity) : js_scope.
Open Scope js_scope.

(** Reading a property of [undefined] throws. *)
Definition get (l : loc) : Js Object3D :=
  fun w =>
    match heap w !! l with
    | Some o => Ok o w
    | None => TypeError
    end.

Definition put (l : loc) (o : Object3D) : Js unit :=
  fun w => Ok tt {| heap := <[l := o]> (heap w); trace := trace w |}.

Definition call (e : Event) : Js unit :=
  fun w => Ok tt {| heap := heap w; trace := trace w ++ [e] |}.

(** [for (const x of l) body(x)] *)
Fixpoint for_of {A} (l : list A) (body : A -> Js unit) : Js unit :=
  match l with
  | [] => ret tt
  | x :: l' => body x ;; for_of l' body
  end.

(** [l.filter(p)] *)
Fixpoint array_filter {A} (p : A -> Js bool) (l : list A) : Js (list A) :=
  match l with
  | [] => ret []
  | x :: l' =>
      b <- p x ;;
      r <- array_filter p l' ;;
      ret (if b then x :: r else r)
  end.

(** ** The 3D engine's [Object3D.remove] *)

Fixpoint remove_first (x : loc) (l : list loc) : list loc :=
  match l with
  | [] => []
  | y :: l' => if decide (x = y) then l' else y :: remove_first x l'
  end.

Definition detach (objects : list loc) (cs : list loc) : list loc :=
  fold_left (fun cs x => remove_first x cs) objects cs.

(** Modelled from the spec: [Object3D.remove(...objects)] belongs to the 3D
    engine, which is not part of the sources.  The spec asks for a child
    collection "supporting detach-by-reference": each argument, in turn, is
    looked up in [obj.children] and spliced out where it is found; an
    argument that is not a child is ignored. *)
Definition remove (obj : loc) (objects : list loc) : Js unit :=
  o <- get obj ;;
  call (Remove obj objects) ;;
  put obj (set_children (detach objects (children o)) o).

(** ** ObjectRemovalHelper.js *)

Definition disposeSingleMaterialAndTextures (material : Material) : Js unit :=
  call (MaterialDispose (material_ref material)) ;;
  for_of (material_keys material) (fun kv =>
    match snd kv with
    | Texture t => call (TextureDispose t)
    | NotTexture => ret tt
    end).

Definition cleanup (obj : loc) : Js unit :=
  o <- get obj ;;
  put obj (set_layer None o) ;;
  if negb (isScene o) && dispose o then
    call (ObjectDispose obj)
  else
    match geometry o with
    | Some g => call (GeometryDispose g)
    | None => ret tt
    end ;;
    match material o with
    | NoMaterial => ret tt
    | MaterialArray ms => for_of ms disposeSingleMaterialAndTextures
    | OneMaterial m => disposeSingleMaterialAndTextures m
    end ;;
    call (DispatchEvent obj "dispose").

(** [(c.layer && c.layer.id) === layer.id], for a layer whose [id] is a
    string: a falsy [c.layer] is never [===] to it. *)
Definition ofLayer (layer0 : Layer) (c : Object3D) : bool :=
  match layer c with
  | Some l => bool_decide (layer_id l = layer_id layer0)
  | None => false
  end.

(** [obj.children.filter(c => (c.layer && c.layer.id) === layer.id)] *)
Definition layerChildren (layer0 : Layer) (obj : loc) : Js (list loc) :=
  o <- get obj ;;
  array_filter (fun c => co <- get c ;; ret (ofLayer layer0 co)) (children o).

Definition removeChildren (layer0 : Layer) (obj : loc) : Js (list loc) :=
  toRemove <- layerChildren layer0 obj ;;
  remove obj toRemove ;;
  ret toRemove.

Definition removeChildrenAndCleanup (layer0 : Layer) (obj : loc)
  : Js (list loc) :=
  toRemove <- layerChildren layer0 obj ;;
  remove obj toRemove ;;
  o <- get obj ;;
  (if bool_decide (layer o = Some layer0) then cleanup obj else ret tt) ;;
  ret toRemove.

(** [obj.link ? toRemove.concat(obj.link) : toRemove] *)
Definition withLink (o : Object3D) (toRemove : list loc) : list loc :=
  match link o with
  | Some l => toRemove ++ l
  | None => toRemove
  end.

(** The recursion of the source is bounded by [fuel]; a call that needs more
    ends in [OutOfFuel]. *)
Fixpoint removeChildrenAndCleanupRecursively
  (fuel : nat) (layer0 : Layer) (obj : loc) : Js (list loc) :=
  match fuel with
  | O => fun _ => OutOfFuel
  | S fuel' =>
      toRemove <- layerChildren layer0 obj ;;
      o <- get obj ;;
      let toRemove := withLink o toRemove in
      for_of toRemove (fun c =>
        removeChildrenAndCleanupRecursively fuel' layer0 c ;; ret tt) ;;
      remove obj toRemove ;;
      o' <- get obj ;;
      (if ofLayer layer0 o' then cleanup obj else ret tt) ;;
      ret toRemove
  end.

(** ** Vocabulary of the statements *)

(** [finish] is the tail of [removeChildrenAndCleanupRecursively] after the
    loop: the detachment and the conditional cleanup of [obj]. *)
Definition finish (layer0 : Layer) (obj : loc) (toRemove : list loc)
  : Js unit :=
  remove obj toRemove ;;
  o' <- get obj ;;
  if ofLayer layer0 o' then cleanup obj else ret tt.

(** Whether the node stored at [c] passes the filter of the three removal
    operations. *)
Definition inLayer (w : World) (layer0 : Layer) (c : loc) : bool :=
  match heap w !! c with
  | Some co => ofLayer layer0 co
  | None => false
  end.

Definition link_list (o : Object3D) : list loc :=
  match link o with
  | Some l => l
  | None => []
  end.

(** The nodes the recursive operation selects at [o]. *)
Definition candidates (w : World) (layer0 : Layer) (o : Object3D) : list loc :=
  withLink o (List.filter (inLayer w layer0) (children o)).

(** The branch of [cleanup] that hands the node to its own [dispose]. *)
Definition genericDispose (o : Object3D) : bool :=
  negb (isScene o) && dispose o.

Definition materials (o : Object3D) : list Material :=
  match material o with
  | NoMaterial => []
  | OneMaterial m => [m]
  | MaterialArray ms => ms
  end.

Definition texture_calls (kvs : list (string * PropertyValue)) : list Event :=
  flat_map (fun kv =>
    match snd kv with
    | Texture t => [TextureDispose t]
    | NotTexture => []
    end) kvs.

Definition material_calls (m : Material) : list Event :=
  MaterialDispose (material_ref m) :: texture_calls (material_keys m).

Definition geometry_calls (o : Object3D) : list Event :=
  match geometry o with
  | Some g => [GeometryDispose g]
  | None => []
  end.

(** The engine calls of one [cleanup] of the node [o] stored at [obj]. *)
Definition cleanup_calls (obj : loc) (o : Object3D) : list Event :=
  if genericDispose o then [ObjectDispose obj]
  else geometry_calls o ++ flat_map material_calls (materials o)
       ++ [DispatchEvent obj "dispose"].

(** Release calls on a geometry, a material or a texture. *)
Definition is_release (e : Event) : bool :=
  match e with
  | GeometryDispose _ | MaterialDispose _ | TextureDispose _ => true
  | _ => false
  end.

Definition occurrences (e : Event) (t : list Event) : nat :=
  length (List.filter (fun x => bool_decide (x = e)) t).

(** How many entries of [ms] are the material [r], and how many
    texture-valued properties of the entries of [ms] hold the texture [t]. *)
Definition material_refs (r : loc) (ms : list Material) : nat :=
  length (List.filter (fun m => bool_decide (material_ref m = r)) ms).

Definition texture_refs (t : loc) (ms : list Material) : nat :=
  length (List.filter (fun kv => bool_decide (snd kv = Texture t))
            (flat_map material_keys ms)).

(** [cleanup] ran on [x]: each run ends in exactly one of these two calls. *)
Definition cleaned (x : loc) (t : list Event) : Prop :=
  ObjectDispose x ∈ t \/ DispatchEvent x "dispose" ∈ t.

(** The recursive operation ran on [x]: each run calls [x.remove] once. *)
Definition visited (x : loc) (t : list Event) : Prop :=
  exists objects, Remove x objects ∈ t.

(** The nodes a node points to. *)
Definition edges (o : Object3D) : list loc := children o ++ link_list o.

Definition wf_node (rk : loc -> nat) (h : gmap loc Object3D)
  (l : loc) (o : Object3D) : bool :=
  forallb (fun c => bool_decide (is_Some (h !! c)) && (rk c <? rk l)%nat)
          (edges o).

(** A scene the recursion terminates on: children and link entries are
    stored nodes, and [rk] decreases along them (no cycle through children
    and links). *)
Definition well_formed (rk : loc -> nat) (w : World) : bool :=
  forallb (fun lo => wf_node rk (heap w) (fst lo) (snd lo))
          (map_to_list (heap w)).

(** The children of the node are stored nodes: the filter callback reads
    [c.layer] of each. *)
Definition children_stored (w : World) (o : Object3D) : bool :=
  forallb (fun c => bool_decide (is_Some (heap w !! c))) (children o).

(** How the three removal operations can change a stored node: children are
    only detached, the layer reference is only cleared, and only on a node
    that passes the id test; no other field is written. *)
Definition shrinks (layer0 : Layer) (o o' : Object3D) : Prop :=
  children o' `sublist_of` children o /\
  (layer o' = layer o \/ (layer o' = None /\ ofLayer layer0 o = true)) /\
  link o' = link o /\ isScene o' = isScene o /\ dispose o' = dispose o /\
  geometry o' = geometry o /\ material o' = material o.

(** A call into the engine that the layer accounts for: a detachment, or a
    call made by the cleanup of a node that passes the id test in [w]. *)
Definition justified (layer0 : Layer) (w : World) (e : Event) : Prop :=
  (exists x objects, e = Remove x objects) \/
  (exists y oy, heap w !! y = Some oy /\ ofLayer layer0 oy = true /\
                e ∈ cleanup_calls y oy).

(** What a run that took the world from [w] to [w'] with the engine calls
    [calls] may have done. *)
Definition evolves (layer0 : Layer) (w w' : World) (calls : list Event)
  : Prop :=
  trace w' = trace w ++ calls /\
  (forall l, option_Forall2 (shrinks layer0) (heap w !! l) (heap w' !! l)) /\
  (forall l, ~ visited l calls -> heap w' !! l = heap w !! l) /\
  Forall (justified layer0 w) calls /\
  (forall l o o' c,
     heap w !! l = Some o -> heap w' !! l = Some o' ->
     c ∈ children o -> inLayer w layer0 c = false -> c ∉ link_list o ->
     c ∈ children o').

(** The run went on from every node it visited into all its link entries
    and into its children of the layer. *)
Definition traversal (layer0 : Layer) (w : World) (calls : list Event)
  : Prop :=
  forall y oy, heap w !! y = Some oy -> visited y calls ->
    (forall c, c ∈ link_list oy -> visited c calls) /\
    (forall c, c ∈ children oy -> inLayer w layer0 c = true ->
       visited c calls).

(** The node [o] after [finish], and the engine calls of [finish]. *)
Definition finished (layer0 : Layer) (toRemove : list loc) (o : Object3D)
  : Object3D :=
  let o1 := set_children (detach toRemove (children o)) o in
  if ofLayer layer0 o then set_layer None o1 else o1.

Definition finish_calls (layer0 : Layer) (obj : loc) (toRemove : list loc)
  (o : Object3D) : list Event :=
  Remove obj toRemove :: (if ofLayer layer0 o then cleanup_calls obj o else []).

(** In a well-formed scene every visited node is below one of [roots]. *)
Definition bounded (w : World) (calls : list Event) (roots : list loc)
  : Prop :=
  forall rk, well_formed rk w = true ->
    forall x, visited x calls -> exists c, c ∈ roots /\ rk x <= rk c.

(** What is known of a returned call of the recursive operation on [n]. *)
Definition summary (layer0 : Layer) (fuel : nat) : Prop :=
  forall n w r w',
    removeChildrenAndCleanupRecursively fuel layer0 n w = Ok r w' ->
    exists calls,
      evolves layer0 w w' calls /\ visited n calls /\
      traversal layer0 w calls /\ bounded w calls [n].

(** ** Example scenes *)

Definition layerA : Layer := {| layer_ref := 100; layer_id := "L1" |}.
Definition layerB : Layer := {| layer_ref := 101; layer_id := "L2" |}.
(** A second layer object with the [id] of [layerA]. *)
Definition layerA' : Layer := {| layer_ref := 102; layer_id := "L1" |}.

Definition group (l : option Layer) (lk : option (list loc))
  (cs : list loc) : Object3D :=
  {| layer := l; isScene := false; dispose := false; geometry := None;
     material := NoMaterial; link := lk; children := cs |}.

Definition scene (nodes : list (loc * Object3D)) : World :=
  {| heap := list_to_map nodes; trace := [] |}.

(** N = 1 with children A = 2 (layer L1), B = 3 (layer L2), C = 4 (no
    layer). *)
Definition scene_abc (own : option Layer) : World :=
  scene [(1%positive, group own None [2; 3; 4]%positive);
         (2%positive, group (Some layerA) None []);
         (3%positive, group (Some layerB) None []);
         (4%positive, group None None [])].

(** Two materials 5 and 6 whose [map] is the same texture 7. *)
Definition mat5 : Material :=
  {| material_ref := 5;
     material_keys := [("map", Texture 7); ("opacity", NotTexture)] |}.
Definition mat6 : Material :=
  {| material_ref := 6; material_keys := [("map", Texture 7)] |}.

Definition mesh (sc disp : bool) : Object3D :=
  {| layer := Some layerA; isScene := sc; dispose := disp;
     geometry := Some 9%positive; material := MaterialArray [mat5; mat6];
     link := None; children := [] |}.

Definition scene_mesh (sc disp : bool) : World :=
  scene [(1%positive, mesh sc disp)].

(** N = 1 with child A = 2 (layer L1) and A.link = [B = 3] (layer L2). *)
Definition scene_link : World :=
  scene [(1%positive, group None None [2%positive]);
         (2%positive, group (Some layerA) (Some [3%positive]) []);
         (3%positive, group (Some layerB) None [])].

(** N = 1 (layer L1) whose child B = 2 (layer L2) is also an entry of
    N.link. *)
Definition scene_linked_child : World :=
  scene [(1%positive, group (Some layerA) (Some [2%positive]) [2%positive]);
         (2%positive, group (Some layerB) None [])].

(** N = 1 with child B = 2 (layer L2), whose child C = 3 has the layer
    L1. *)
Definition scene_other_subtree : World :=
  scene [(1%positive, group None None [2%positive]);
         (2%positive, group (Some layerB) None [3%positive]);
         (3%positive, group (Some layerA) None [])].

(** N = 1 (layer L1) with children B = 2 (layer L2) and the mesh M = 8
    (layer L1); B has the child C = 3 and the link entry D = 4, both of
    layer L1.  No link entry is a child. *)
Definition scene_skipped_child : World :=
  scene [(1%positive, group (Some layerA) None [2; 8]%positive);
         (2%positive, group (Some layerB) (Some [4%positive]) [3%positive]);
         (3%positive, group (Some layerA) None []);
         (4%positive, group (Some layerA) None []);
         (8%positive, mesh false false)].

Definition rank_by_loc (l : loc) : nat := 10 - Pos.to_nat l.

(** ** Vocabulary of the further properties *)

(** How many times [cleanup] ran on [x]. *)
Definition cleanups (x : loc) (t : list Event) : nat :=
  occurrences (ObjectDispose x) t + occurrences (DispatchEvent x "dispose") t.

(** [x] is reached from [n] through candidates: children that pass the id
    test and link entries, as the store [w] has them. *)
Inductive reach (layer0 : Layer) (w : World) : loc -> loc -> Prop :=
| reach_here n : reach layer0 w n n
| reach_step n o c x :
    heap w !! n = Some o -> c ∈ candidates w layer0 o ->
    reach layer0 w c x -> reach layer0 w n x.

(** Every stored node of [w'] is the node of [w] with fewer children or a
    cleared layer. *)
Definition shrunk (layer0 : Layer) (w w' : World) : Prop :=
  forall l, option_Forall2 (shrinks layer0) (heap w !! l) (heap w' !! l).

(** The bookkeeping of cleanups in a run from [w] to [w']: only visited
    nodes that pass the id test are cleaned up, all of them are, none twice,
    none passes the test afterwards, and every other call than a detachment
    is a call of the cleanup of a node that was cleaned up. *)
Definition accounts (layer0 : Layer) (w w' : World) (calls : list Event)
  : Prop :=
  (forall x, cleaned x calls ->
     visited x calls /\ inLayer w layer0 x = true /\
     inLayer w' layer0 x = false) /\
  (forall x, visited x calls -> inLayer w layer0 x = true ->
     cleaned x calls) /\
  (forall x, inLayer w layer0 x = true -> inLayer w' layer0 x = false ->
     cleaned x calls) /\
  (forall x, cleanups x calls <= 1) /\
  (forall e, e ∈ calls ->
     (exists x objects, e = Remove x objects) \/
     (exists y oy, heap w !! y = Some oy /\ cleaned y calls /\
                   e ∈ cleanup_calls y oy)).

(** Every visited node is reached from one of [roots]. *)
Definition rooted (layer0 : Layer) (w : World) (calls : list Event)
  (roots : list loc) : Prop :=
  forall x, visited x calls -> exists c, c ∈ roots /\ reach layer0 w c x.

(** Before any [y.remove], every candidate of [y] has been visited. *)
Definition ordered (layer0 : Layer) (w : World) (calls : list Event)
  : Prop :=
  forall y oy c pre objects post,
    heap w !! y = Some oy -> c ∈ candidates w layer0 oy ->
    calls = pre ++ Remove y objects :: post -> visited c pre.

(** Children and link entries of every stored node are stored nodes. *)
Definition closed (w : World) : bool :=
  forallb (fun lo =>
    forallb (fun c => bool_decide (is_Some (heap w !! c))) (edges (snd lo)))
    (map_to_list (heap w)).

(** N = 1 (layer L1) with the children 2 and 3 (layer L1), which both link
    to the mesh 4 (layer L1). *)
Definition scene_diamond : World :=
  scene [(1%positive, group (Some layerA) None [2; 3]%positive);
         (2%positive, group (Some layerA) (Some [4%positive]) []);
         (3%positive, group (Some layerA) (Some [4%positive]) []);
         (4%positive, mesh false false)].

(** N = 1 links to 2, and 2 links back to 1. *)
Definition scene_link_cycle : World :=
  scene [(1%positive, group (Some layerA) (Some [2%positive]) []);
         (2%positive, group (Some layerB) (Some [1%positive]) [])].

(** [y] is the only stored node whose cleanup makes the call [e]. *)
Definition sole_owner (w : World) (e : Event) (y : loc) : Prop :=
  forall y' oy', heap w !! y' = Some oy' -> e ∈ cleanup_calls y' oy' -> y' = y.

(** A call that only the cleanup of [y] makes is made as many times as the
    cleanup of [y] makes it, once per cleanup of [y]. *)
Definition tallies (w : World) (calls : list Event) : Prop :=
  forall e y oy,
    (forall x objects, e <> Remove x objects) ->
    heap w !! y = Some oy -> sole_owner w e y ->
    occurrences e calls = cleanups y calls * occurrences e (cleanup_calls y oy).

(** * The elevation measure widget: [src/Utils/gui/ElevationMeasure.js]

    The methods of the widget, over the private fields of the instance.
    What the widget calls in the DOM, the view and the 3D engine is
    recorded in [calls], the latest call first; what those calls answer is
    given by an [Engine], whose answers may depend on everything called so
    far.  The calls themselves are taken to return: the exceptions of the
    model are the ones the code of the widget raises, a [TypeError] when it
    reads a member of null or undefined and the [RangeError] of [toFixed].
    The constructor (DOM set-up and option parsing) is not modelled: a
    widget starts from [created]. *)
From stdpp Require pretty.

Module ElevationMeasure.

(** A mouse event: its [button], and the rest of it (where the pointer is)
    as one value the widget only hands to the view. *)
Record MouseEvent := { button : Z; pointer : positive }.

(** A function object: the method it comes from and how many times it was
    bound.  [f.bind(this)] makes a new function object each time. *)
Record Fn := { fn_method : string; fn_bound : nat }.

Definition bind_this (f : Fn) : Fn :=
  {| fn_method := fn_method f; fn_bound := S (fn_bound f) |}.

#[global] Instance MouseEvent_eq_dec : EqDecision MouseEvent.
Proof. solve_decision. Defined.
#[global] Instance Fn_eq_dec : EqDecision Fn.
Proof. solve_decision. Defined.

(** The value written to a style property. *)
Inductive StyleValue :=
| Literal (s : string)
| TranslateYFromSizeOf (material : loc).

#[global] Instance StyleValue_eq_dec : EqDecision StyleValue.
Proof. solve_decision. Defined.

(** The calls of the widget into the DOM, the view and the 3D engine.  The
    button is the element of id [widgets-elevation-activation-button]; the
    controls listen to [CONTROL_EVENTS.RANGE_CHANGED], the frame requesters to
    [MAIN_LOOP_EVENTS.AFTER_RENDER]; a renderer stands for its [domElement]
    too; [NotifyChange true] is [notifyChange(true)] and [NotifyChange false]
    is [notifyChange()]; [SceneRemove None] is [scene.remove] of null or
    undefined. *)
Inductive Call :=
| ButtonClassListAdd (cls : string)
| ButtonClassListRemove (cls : string)
| WindowAddEventListener (type : string) (f : Fn)
| WindowRemoveEventListener (type : string) (f : Fn)
| ControlsAddEventListener (f : Fn)
| ControlsRemoveEventListener (f : Fn)
| AddFrameRequester (f : Fn)
| RemoveFrameRequester (f : Fn)
| PickCoordinates (event : option MouseEvent)
| PickObjectsAt (event : MouseEvent)
| GetElevationValueAt
| SceneAdd (o : loc)
| SceneRemove (o : option loc)
| NotifyChange (redraw : bool)
| UpdateMatrixWorld (o : loc)
| ConsoleWarn
| RendererSetSize (r : loc)
| RendererRender (r : loc)
| BodyAppendChild (r : loc)
| BodyRemoveChild (r : loc)
| ElementClassListAdd (el : loc) (cls : string)
| ElementStyle (el : loc) (property : string) (value : StyleValue)
| ElementAppendChild (parent child : loc)
| GeometryDispose (g : loc)
| MaterialDispose (m : loc)
| PointTextureDispose.

#[global] Instance Call_eq_dec : EqDecision Call.
Proof. solve_decision. Defined.

(** What [DEMUtils.getElevationValueAt] returns. *)
Inductive Elevation (Number : Type) :=
| ElevationNull
| ElevationUndefined
| ElevationNumber (n : Number).
Arguments ElevationNull {Number}.
Arguments ElevationUndefined {Number}.
Arguments ElevationNumber {Number} n.

(** A picked object: [distance = None] for a null or undefined
    [obj.distance], [isTileMesh] for a truthy [obj.object.isTileMesh]. *)
Record Pick (Number Point : Type) := {
  distance : option Number;
  isTileMesh : bool;
  point : Point
}.
Arguments distance {Number Point} _.
Arguments isTileMesh {Number Point} _.
Arguments point {Number Point} _.

(** What the widget gets from outside.  [Number] stands for the JavaScript
    numbers the widget handles (distances, elevations, [decimals]);
    [sub_positive a b] is [a - b > 0].  [pickCoordinates] answers [None]
    for [undefined]; [pickObjectsAt] answers [None] for a falsy value;
    [toFixed n d] is [n.toFixed(d)], [None] when it throws a [RangeError].
    [altitude p] is the [z] of the point [p] taken in the reference system of
    the view and converted to EPSG:4326; [toFloat32Array v] is
    [new Float32Array(v.toArray())]. *)
Class Engine := {
  Coordinates : Type;
  Vector3 : Type;
  Float32Array : Type;
  Point : Type;
  Number : Type;
  toVector3 : Coordinates -> Vector3;
  toFloat32Array : Vector3 -> Float32Array;
  altitude : Point -> Number;
  isNaN : Number -> bool;
  sub_positive : Number -> Number -> bool;
  toFixed : Number -> Number -> option string;
  pickCoordinates : list Call -> option MouseEvent -> option Coordinates;
  pickObjectsAt : list Call -> MouseEvent -> option (list (Pick Number Point));
  getElevationValueAt : list Call -> Coordinates -> Elevation Number
}.

Section Widget.
Context {E : Engine}.

(** A [THREE.Points] object made by the widget, with the array of its
    position attribute. *)
Record Points := {
  points_id : loc;
  points_geometry : loc;
  points_material : loc;
  position_array : Float32Array;
  needsUpdate : bool;
  frustumCulled : bool;
  renderOrder : Z
}.

(** The label object, with the text of the inner div and its position. *)
Record Label := {
  label_id : loc;
  label_div : loc;
  label_inner : loc;
  textContent : string;
  label_position : option Vector3
}.

(** The functions held by the instance properties of the same names. *)
Record Handlers := {
  onMouseDownFn : Fn;
  onMouseMoveFn : Fn;
  onMouseUpFn : Fn;
  onZoomFn : Fn;
  renderLabelFn : Fn;
  onWindowResizeFn : Fn
}.

(** An instance: its private fields ([#view], which never changes, is left
    out), its configuration, the functions of its instance properties, the
    identity of the next object to be made and the calls made so far. *)
Record Widget := {
  active : bool;
  movePoint : option Points;
  clickPoint : option Points;
  labelRenderer : option loc;
  labelObj : option Label;
  drag : bool;
  previousMouseMoveEvent : option MouseEvent;
  decimals : Number;
  noElevationText : string;
  movePointMaterial : loc;
  clickPointMaterial : loc;
  handlers : Handlers;
  next_object : loc;
  calls : list Call
}.

(** Assignment to the fields that the methods assign. *)
Definition update
  (act : bool) (mp cp : option Points) (lr : option loc) (lo : option Label)
  (dr : bool) (prev : option MouseEvent) (h : Handlers) (nx : loc)
  (cs : list Call) (s : Widget) : Widget :=
  {| active := act; movePoint := mp; clickPoint := cp; labelRenderer := lr;
     labelObj := lo; drag := dr; previousMouseMoveEvent := prev;
     decimals := decimals s; noElevationText := noElevationText s;
     movePointMaterial := movePointMaterial s;
     clickPointMaterial := clickPointMaterial s;
     handlers := h; next_object := nx; calls := cs |}.

Definition set_active v s :=
  update v (movePoint s) (clickPoint s) (labelRenderer s) (labelObj s)
    (drag s) (previousMouseMoveEvent s) (handlers s) (next_object s)
    (calls s) s.
Definition set_movePoint v s :=
  update (active s) v (clickPoint s) (labelRenderer s) (labelObj s)
    (drag s) (previousMouseMoveEvent s) (handlers s) (next_object s)
    (calls s) s.
Definition set_clickPoint v s :=
  update (active s) (movePoint s) v (labelRenderer s) (labelObj s)
    (drag s) (previousMouseMoveEvent s) (handlers s) (next_object s)
    (calls s) s.
Definition set_labelRenderer v s :=
  update (active s) (movePoint s) (clickPoint s) v (labelObj s)
    (drag s) (previousMouseMoveEvent s) (handlers s) (next_object s)
    (calls s) s.
Definition set_labelObj v s :=
  update (active s) (movePoint s) (clickPoint s) (labelRenderer s) v
    (drag s) (previousMouseMoveEvent s) (handlers s) (next_object s)
    (calls s) s.
Definition set_drag v s :=
  update (active s) (movePoint s) (clickPoint s) (labelRenderer s)
    (labelObj s) v (previousMouseMoveEvent s) (handlers s) (next_object s)
    (calls s) s.
Definition set_previousMouseMoveEvent v s :=
  update (active s) (movePoint s) (clickPoint s) (labelRenderer s)
    (labelObj s) (drag s) v (handlers s) (next_object s) (calls s) s.
Definition set_handlers v s :=
  update (active s) (movePoint s) (clickPoint s) (labelRenderer s)
    (labelObj s) (drag s) (previousMouseMoveEvent s) v (next_object s)
    (calls s) s.
Definition set_next_object v s :=
  update (active s) (movePoint s) (clickPoint s) (labelRenderer s)
    (labelObj s) (drag s) (previousMouseMoveEvent s) (handlers s) v
    (calls s) s.
Definition set_calls v s :=
  update (active s) (movePoint s) (clickPoint s) (labelRenderer s)
    (labelObj s) (drag s) (previousMouseMoveEvent s) (handlers s)
    (next_object s) v s.

(** ** Computations of the widget *)

(** A method returns, with the instance as it left it, or throws.  What a
    method had assigned and called before it threw is not part of the
    outcome: the statements below are about calls that return, or only say
    that a call throws. *)
Inductive Error := TypeErr | RangeErr.

Inductive Outcome (A : Type) : Type :=
| Returns (a : A) (s : Widget)
| Throws (e : Error).
Arguments Returns {A} a s.
Arguments Throws {A} e.

Definition Ui (A : Type) : Type := Widget -> Outcome A.

Definition pure {A} (a : A) : Ui A := fun s => Returns a s.

Definition andThen {A B} (m : Ui A) (k : A -> Ui B) : Ui B :=
  fun s =>
    match m s with
    | Returns a s' => k a s'
    | Throws e => Throws e
    end.

Definition throw {A} (e : Error) : Ui A := fun _ => Throws e.

Definition read {A} (f : Widget -> A) : Ui A := fun s => Returns (f s) s.

Definition write (f : Widget -> Widget) : Ui unit :=
  fun s => Returns tt (f s).

Definition invoke (c : Call) : Ui unit :=
  write (fun s => set_calls (c :: calls s) s).

(** [new ...()] and [document.createElement]: a new object. *)
Definition new_object : Ui loc :=
  fun s => Returns (next_object s) (set_next_object (Pos.succ (next_object s)) s).

(** [x.member] where [x] may be null. *)
Definition deref {A} (x : option A) : Ui A :=
  match x with
  | Some a => pure a
  | None => throw TypeErr
  end.

Declare Scope ui_scope.
Notation "x <- m ;; k" := (andThen m (fun x => k))
  (at level 100, m at next level, k at level 200, right associativity) : ui_scope.
Notation "m ;; k" := (andThen m (fun _ => k))
  (at level 100, k at level 200, right associativity) : ui_scope.
Local Open Scope ui_scope.

(** ** Calls whose answer the widget uses *)

Definition view_pickCoordinates (event : option MouseEvent) : Ui (option Coordinates) :=
  history <- read calls ;;
  invoke (PickCoordinates event) ;;
  pure (pickCoordinates history event).

Definition view_pickObjectsAt (event : MouseEvent)
  : Ui (option (list (Pick Number Point))) :=
  history <- read calls ;;
  invoke (PickObjectsAt event) ;;
  pure (pickObjectsAt history event).

Definition DEMUtils_getElevationValueAt (c : Coordinates) : Ui (Elevation Number) :=
  history <- read calls ;;
  invoke GetElevationValueAt ;;
  pure (getElevationValueAt history c).

(** [n.toFixed(decimals)] followed by [" m"]. *)
Definition metres (n : Number) : Ui string :=
  d <- read decimals ;;
  match toFixed n d with
  | Some text => pure (text ++ " m")%string
  | None => throw RangeErr
  end.

(** [new THREE.Points(pointGeom, material)] over a new geometry holding
    [arr], with [frustumCulled = false] and [renderOrder = 1]. *)
Definition point_object (p pointGeom material : loc) (arr : Float32Array) : Points :=
  {| points_id := p; points_geometry := pointGeom; points_material := material;
     position_array := arr; needsUpdate := false;
     frustumCulled := false; renderOrder := 1 |}.

(** [pos.array = arr; pos.needsUpdate = true]. *)
Definition move_to (arr : Float32Array) (p : Points) : Points :=
  {| points_id := points_id p; points_geometry := points_geometry p;
     points_material := points_material p;
     position_array := arr; needsUpdate := true;
     frustumCulled := frustumCulled p; renderOrder := renderOrder p |}.

Definition rebind_onMouseDown (h : Handlers) : Handlers :=
  {| onMouseDownFn := bind_this (onMouseDownFn h); onMouseMoveFn := onMouseMoveFn h;
     onMouseUpFn := onMouseUpFn h; onZoomFn := onZoomFn h;
     renderLabelFn := renderLabelFn h; onWindowResizeFn := onWindowResizeFn h |}.
Definition rebind_onMouseMove (h : Handlers) : Handlers :=
  {| onMouseDownFn := onMouseDownFn h; onMouseMoveFn := bind_this (onMouseMoveFn h);
     onMouseUpFn := onMouseUpFn h; onZoomFn := onZoomFn h;
     renderLabelFn := renderLabelFn h; onWindowResizeFn := onWindowResizeFn h |}.
Definition rebind_onMouseUp (h : Handlers) : Handlers :=
  {| onMouseDownFn := onMouseDownFn h; onMouseMoveFn := onMouseMoveFn h;
     onMouseUpFn := bind_this (onMouseUpFn h); onZoomFn := onZoomFn h;
     renderLabelFn := renderLabelFn h; onWindowResizeFn := onWindowResizeFn h |}.
Definition rebind_onZoom (h : Handlers) : Handlers :=
  {| onMouseDownFn := onMouseDownFn h; onMouseMoveFn := onMouseMoveFn h;
     onMouseUpFn := onMouseUpFn h; onZoomFn := bind_this (onZoomFn h);
     renderLabelFn := renderLabelFn h; onWindowResizeFn := onWindowResizeFn h |}.
Definition rebind_renderLabel (h : Handlers) : Handlers :=
  {| onMouseDownFn := onMouseDownFn h; onMouseMoveFn := onMouseMoveFn h;
     onMouseUpFn := onMouseUpFn h; onZoomFn := onZoomFn h;
     renderLabelFn := bind_this (renderLabelFn h);
     onWindowResizeFn := onWindowResizeFn h |}.
Definition rebind_onWindowResize (h : Handlers) : Handlers :=
  {| onMouseDownFn := onMouseDownFn h; onMouseMoveFn := onMouseMoveFn h;
     onMouseUpFn := onMouseUpFn h; onZoomFn := onZoomFn h;
     renderLabelFn := renderLabelFn h;
     onWindowResizeFn := bind_this (onWindowResizeFn h) |}.

Definition rebind (f : Handlers -> Handlers) : Ui unit :=
  write (fun s => set_handlers (f (handlers s)) s).

(** ** The label *)

Definition initLabel : Ui unit :=
  r <- new_object ;;
  write (set_labelRenderer (Some r)) ;;
  invoke (RendererSetSize r) ;;
  invoke (ElementStyle r "position" (Literal "absolute")) ;;
  invoke (ElementStyle r "top" (Literal "0px")) ;;
  invoke (BodyAppendChild r) ;;
  rebind rebind_renderLabel ;;
  h <- read handlers ;;
  invoke (AddFrameRequester (renderLabelFn h)) ;;
  labelDiv <- new_object ;;
  posLabel <- new_object ;;
  invoke (ElementClassListAdd posLabel "label-elevation") ;;
  m <- read clickPointMaterial ;;
  invoke (ElementStyle posLabel "transform" (TranslateYFromSizeOf m)) ;;
  invoke (ElementAppendChild labelDiv posLabel) ;;
  o <- new_object ;;
  write (set_labelObj (Some {| label_id := o; label_div := labelDiv;
                               label_inner := posLabel;
                               textContent := EmptyString;
                               label_position := None |})) ;;
  invoke (SceneAdd o) ;;
  rebind rebind_onWindowResize ;;
  h <- read handlers ;;
  invoke (WindowAddEventListener "resize" (onWindowResizeFn h)).

Definition renderLabel : Ui unit :=
  lr <- read labelRenderer ;;
  r <- deref lr ;;
  invoke (RendererRender r).

Definition updateLabel (text : string) (position : Vector3) : Ui unit :=
  lo <- read labelObj ;;
  l <- deref lo ;;
  write (set_labelObj (Some {| label_id := label_id l; label_div := label_div l;
                               label_inner := label_inner l;
                               textContent := text;
                               label_position := Some position |})) ;;
  invoke (UpdateMatrixWorld (label_id l)).

Definition removeLabel : Ui unit :=
  lr <- read labelRenderer ;;
  r <- deref lr ;;
  invoke (BodyRemoveChild r) ;;
  write (set_labelRenderer None) ;;
  h <- read handlers ;;
  invoke (RemoveFrameRequester (renderLabelFn h)) ;;
  lo <- read labelObj ;;
  invoke (SceneRemove (option_map label_id lo)) ;;
  write (set_labelObj None) ;;
  invoke (NotifyChange false).

Definition onWindowResize : Ui unit :=
  lr <- read labelRenderer ;;
  r <- deref lr ;;
  invoke (RendererSetSize r).

(** ** The points *)

Definition removePoints : Ui unit :=
  mp <- read movePoint ;;
  match mp with
  | Some p =>
      invoke (SceneRemove (Some (points_id p))) ;;
      write (set_movePoint None) ;;
      invoke (GeometryDispose (points_geometry p)) ;;
      m <- read movePointMaterial ;;
      invoke (MaterialDispose m)
  | None => pure tt
  end ;;
  cp <- read clickPoint ;;
  match cp with
  | Some p =>
      invoke (SceneRemove (Some (points_id p))) ;;
      write (set_clickPoint None) ;;
      invoke (GeometryDispose (points_geometry p)) ;;
      m <- read clickPointMaterial ;;
      invoke (MaterialDispose m)
  | None => pure tt
  end ;;
  invoke PointTextureDispose.

(** ** The mouse *)

Definition onMouseMove (event : MouseEvent) : Ui unit :=
  write (set_drag true) ;;
  write (set_previousMouseMoveEvent (Some event)) ;;
  worldCoordinates <- view_pickCoordinates (Some event) ;;
  c <- deref worldCoordinates ;;
  let pointVec3 := toVector3 c in
  let pointTypedArr := toFloat32Array pointVec3 in
  mp <- read movePoint ;;
  match mp with
  | None =>
      pointGeom <- new_object ;;
      p <- new_object ;;
      m <- read movePointMaterial ;;
      write (set_movePoint (Some (point_object p pointGeom m pointTypedArr))) ;;
      invoke (SceneAdd p)
  | Some pt =>
      write (set_movePoint (Some (move_to pointTypedArr pt)))
  end ;;
  invoke (NotifyChange false).

Definition onMouseDown : Ui unit :=
  write (set_drag false).

(** The [for] loop of [onMouseUp] over the picked objects. *)
Fixpoint sort_out (pickedObjs geometricObj : list (Pick Number Point))
  (tileMeshObj : option (Pick Number Point))
  : Ui (list (Pick Number Point) * option (Pick Number Point)) :=
  match pickedObjs with
  | [] => pure (geometricObj, tileMeshObj)
  | obj :: rest =>
      match distance obj with
      | Some _ => sort_out rest (geometricObj ++ [obj]) tileMeshObj
      | None =>
          if isTileMesh obj then sort_out rest geometricObj (Some obj)
          else invoke ConsoleWarn ;; sort_out rest geometricObj tileMeshObj
      end
  end.

(** [(o1, o2) => o1.distance - o2.distance], positive. *)
Definition farther (o1 o2 : Pick Number Point) : bool :=
  match distance o1, distance o2 with
  | Some d1, Some d2 => sub_positive d1 d2
  | _, _ => false
  end.

(** [Array.prototype.sort] with that comparator: a stable sort. *)
Fixpoint sort_insert (o : Pick Number Point) (sorted : list (Pick Number Point))
  : list (Pick Number Point) :=
  match sorted with
  | [] => [o]
  | o' :: rest =>
      if farther o' o then o :: o' :: rest else o' :: sort_insert o rest
  end.

Definition Array_sort (l : list (Pick Number Point)) : list (Pick Number Point) :=
  fold_left (fun sorted o => sort_insert o sorted) l [].

Definition onMouseUp (event : MouseEvent) : Ui unit :=
  d <- read drag ;;
  if negb (button event =? 0)%Z || d then pure tt
  else
    worldCoordinates <- view_pickCoordinates (Some event) ;;
    c <- deref worldCoordinates ;;
    let pointVec3 := toVector3 c in
    let pointTypedArr := toFloat32Array pointVec3 in
    cp <- read clickPoint ;;
    match cp with
    | None =>
        pointGeom <- new_object ;;
        p <- new_object ;;
        m <- read clickPointMaterial ;;
        write (set_clickPoint (Some (point_object p pointGeom m pointTypedArr))) ;;
        invoke (UpdateMatrixWorld p) ;;
        invoke (SceneAdd p)
    | Some pt =>
        write (set_clickPoint (Some (move_to pointTypedArr pt)))
    end ;;
    invoke (NotifyChange true) ;;
    pickedObjs <- view_pickObjectsAt event ;;
    noText <- read noElevationText ;;
    elevationText <-
      match pickedObjs with
      | Some objs =>
          sorted_out <- sort_out objs [] None ;;
          let (geometricObj, tileMeshObj) := sorted_out in
          if negb (length geometricObj =? 0)%nat then
            match Array_sort geometricObj with
            | closestObj :: _ => metres (altitude (point closestObj))
            | [] => throw TypeErr
            end
          else
            match tileMeshObj with
            | Some _ =>
                elevation <- DEMUtils_getElevationValueAt c ;;
                match elevation with
                | ElevationNumber n =>
                    if isNaN n then pure noText else metres n
                | _ => pure noText
                end
            | None => pure noText
            end
      | None => pure noText
      end ;;
    updateLabel elevationText pointVec3.

Definition onZoom : Ui unit :=
  event <- read previousMouseMoveEvent ;;
  worldCoordinates <- view_pickCoordinates event ;;
  c <- deref worldCoordinates ;;
  let pointVec3 := toVector3 c in
  let pointTypedArr := toFloat32Array pointVec3 in
  mp <- read movePoint ;;
  match mp with
  | None =>
      pointGeom <- new_object ;;
      p <- new_object ;;
      m <- read movePointMaterial ;;
      write (set_movePoint (Some (point_object p pointGeom m pointTypedArr))) ;;
      invoke (SceneAdd p)
  | Some pt =>
      write (set_movePoint (Some (move_to pointTypedArr pt)))
  end ;;
  invoke (NotifyChange false).

(** ** Activation *)

Definition activateTool : Ui unit :=
  rebind rebind_onMouseDown ;;
  rebind rebind_onMouseMove ;;
  rebind rebind_onMouseUp ;;
  rebind rebind_onZoom ;;
  h <- read handlers ;;
  invoke (WindowAddEventListener "mousedown" (onMouseDownFn h)) ;;
  invoke (WindowAddEventListener "mousemove" (onMouseMoveFn h)) ;;
  invoke (WindowAddEventListener "mouseup" (onMouseUpFn h)) ;;
  invoke (ControlsAddEventListener (onZoomFn h)) ;;
  initLabel.

Definition deactivateTool : Ui unit :=
  h <- read handlers ;;
  invoke (WindowRemoveEventListener "mousedown" (onMouseDownFn h)) ;;
  invoke (WindowRemoveEventListener "mousemove" (onMouseMoveFn h)) ;;
  invoke (WindowRemoveEventListener "mouseup" (onMouseUpFn h)) ;;
  invoke (ControlsRemoveEventListener (onZoomFn h)) ;;
  removePoints ;;
  removeLabel.

Definition onButtonClick : Ui unit :=
  a <- read active ;;
  write (set_active (negb a)) ;;
  a' <- read active ;;
  if a' then
    invoke (ButtonClassListAdd "widget-button-active") ;;
    activateTool
  else
    invoke (ButtonClassListRemove "widget-button-active") ;;
    deactivateTool.

(** The widget once constructed, before any event. *)
Definition created (decimals0 : Number) (noElevationText0 : string)
  (movePointMaterial0 clickPointMaterial0 : loc) : Widget :=
  {| active := false; movePoint := None; clickPoint := None;
     labelRenderer := None; labelObj := None; drag := false;
     previousMouseMoveEvent := None;
     decimals := decimals0; noElevationText := noElevationText0;
     movePointMaterial := movePointMaterial0;
     clickPointMaterial := clickPointMaterial0;
     handlers := {| onMouseDownFn := {| fn_method := "onMouseDown"; fn_bound := 0 |};
                    onMouseMoveFn := {| fn_method := "onMouseMove"; fn_bound := 0 |};
                    onMouseUpFn := {| fn_method := "onMouseUp"; fn_bound := 0 |};
                    onZoomFn := {| fn_method := "onZoom"; fn_bound := 0 |};
                    renderLabelFn := {| fn_method := "renderLabel"; fn_bound := 0 |};
                    onWindowResizeFn := {| fn_method := "onWindowResize"; fn_bound := 0 |} |};
     next_object := 1%positive; calls := [] |}.

(** ** Vocabulary of the statements about the widget *)

(** A call of one of the listeners of the widget: the click on the
    activation button, the three mouse events of the window, the change of
    range of the controls, the resize of the window, the frame of the main
    loop. *)
Inductive Input :=
| ButtonClick
| MouseDown
| MouseMove (event : MouseEvent)
| MouseUp (event : MouseEvent)
| Zoom
| WindowResize
| Frame.

#[global] Instance Input_eq_dec : EqDecision Input.
Proof. solve_decision. Defined.

Definition handle (i : Input) : Ui unit :=
  match i with
  | ButtonClick => onButtonClick
  | MouseDown => onMouseDown
  | MouseMove event => onMouseMove event
  | MouseUp event => onMouseUp event
  | Zoom => onZoom
  | WindowResize => onWindowResize
  | Frame => renderLabel
  end.

Fixpoint handle_all (inputs : list Input) : Ui unit :=
  match inputs with
  | [] => pure tt
  | i :: rest => handle i ;; handle_all rest
  end.

(** The widget after [inputs], when none of them throws. *)
Definition after (inputs : list Input) (s : Widget) : Widget :=
  match handle_all inputs s with
  | Returns _ s' => s'
  | Throws _ => s
  end.

(** How many of the clicks of [inputs] switch the tool on, [a] telling
    whether it is on before. *)
Fixpoint activations (a : bool) (inputs : list Input) : nat :=
  match inputs with
  | [] => 0
  | ButtonClick :: rest => (if a then 0 else 1) + activations (negb a) rest
  | _ :: rest => activations a rest
  end.

(** How many times a call was made. *)
Definition tally (c : Call) (cs : list Call) : nat :=
  length (List.filter (fun c' => bool_decide (c' = c)) cs).

Definition is_SceneAdd (c : Call) : bool :=
  match c with SceneAdd _ => true | _ => false end.

(** The calls made from [s] to [s'], the latest first. *)
Definition since (s s' : Widget) : list Call :=
  take (length (calls s') - length (calls s)) (calls s').

(** Whether a point came into being. *)
Definition made (before after : option Points) : nat :=
  match before, after with
  | None, Some _ => 1
  | _, _ => 0
  end.

(** The same [THREE.Points] object, with the same geometry and material. *)
Definition same_object (p p' : Points) : Prop :=
  points_id p' = points_id p /\
  points_geometry p' = points_geometry p /\
  points_material p' = points_material p.

(** A point that exists stays the same object. *)
Definition points_kept (before after : option Points) : Prop :=
  forall p, before = Some p -> exists p', after = Some p' /\ same_object p p'.

(** From [s] to [s'] the scene was given one object for each point that
    came into being, and no other. *)
Definition frugal (s s' : Widget) : Prop :=
  length (List.filter is_SceneAdd (since s s')) =
    made (movePoint s) (movePoint s') + made (clickPoint s) (clickPoint s') /\
  points_kept (movePoint s) (movePoint s') /\
  points_kept (clickPoint s) (clickPoint s').

(** The calls of [removePoints] for one point, the latest first. *)
Definition removal (p : option Points) (material : loc) : list Call :=
  match p with
  | Some pt =>
      [MaterialDispose material; GeometryDispose (points_geometry pt);
       SceneRemove (Some (points_id pt))]
  | None => []
  end.

(** What a listener is registered on. *)
Inductive Target :=
| Window (type : string)
| Controls
| FrameRequesters.

Definition registration (c : Call) : option (Target * Fn) :=
  match c with
  | WindowAddEventListener type f => Some (Window type, f)
  | ControlsAddEventListener f => Some (Controls, f)
  | AddFrameRequester f => Some (FrameRequesters, f)
  | _ => None
  end.

Definition unregistration (c : Call) : option (Target * Fn) :=
  match c with
  | WindowRemoveEventListener type f => Some (Window type, f)
  | ControlsRemoveEventListener f => Some (Controls, f)
  | RemoveFrameRequester f => Some (FrameRequesters, f)
  | _ => None
  end.

(** The listeners registered, and those unregistered, by a list of calls,
    the latest first. *)
Definition registrations (cs : list Call) : list (Target * Fn) :=
  omap registration cs.

Definition unregistrations (cs : list Call) : list (Target * Fn) :=
  omap unregistration cs.

(** The function that the instance holds for the listener of a target. *)
Definition handler_for (t : Target) (h : Handlers) : Fn :=
  match t with
  | Window type =>
      if bool_decide (type = "mousedown") then onMouseDownFn h
      else if bool_decide (type = "mousemove") then onMouseMoveFn h
      else if bool_decide (type = "mouseup") then onMouseUpFn h
      else onWindowResizeFn h
  | Controls => onZoomFn h
  | FrameRequesters => renderLabelFn h
  end.

(** What no mouse, zoom, resize or frame event changes. *)
Definition settled (s s' : Widget) : Prop :=
  active s' = active s /\
  handlers s' = handlers s /\
  labelRenderer s' = labelRenderer s /\
  option_map label_id (labelObj s') = option_map label_id (labelObj s) /\
  decimals s' = decimals s /\
  noElevationText s' = noElevationText s /\
  movePointMaterial s' = movePointMaterial s /\
  clickPointMaterial s' = clickPointMaterial s /\
  exists new, calls s' = new ++ calls s /\
              registrations new = [] /\ unregistrations new = [].

Definition is_resize_removal (c : Call) : bool :=
  match c with
  | WindowRemoveEventListener type _ => bool_decide (type = "resize")
  | _ => false
  end.

Definition is_resize_addition (c : Call) : bool :=
  match c with
  | WindowAddEventListener type _ => bool_decide (type = "resize")
  | _ => false
  end.

(** The text and the position shown by the label. *)
Definition shown (s : Widget) : option (string * option Vector3) :=
  option_map (fun l => (textContent l, label_position l)) (labelObj s).

(** [onMouseUp] returns and leaves the label with [text] at [position],
    after [lookups] readings of the elevation of the terrain and [warned]
    warnings. *)
Definition measures (event : MouseEvent) (s : Widget) (text : string)
  (position : Vector3) (lookups warned : nat) : Prop :=
  exists s',
    onMouseUp event s = Returns tt s' /\
    shown s' = Some (text, Some position) /\
    tally GetElevationValueAt (since s s') = lookups /\
    tally ConsoleWarn (since s s') = warned.

(** The comparator of the sort is consistent on the picks it compares:
    among them, [o1.distance - o2.distance > 0] is a strict weak order. *)
Definition consistent_on (objs : list (Pick Number Point)) : Prop :=
  (forall a b, a ∈ objs -> b ∈ objs ->
     farther a b = true -> farther b a = false) /\
  (forall a b c, a ∈ objs -> b ∈ objs -> c ∈ objs ->
     farther a b = false -> farther b c = false -> farther a c = false).

(** The picks that carry a distance. *)
Definition geometric (objs : list (Pick Number Point)) : list (Pick Number Point) :=
  List.filter (fun o => bool_decide (is_Some (distance o))) objs.

(** The picks that neither carry a distance nor are a tile mesh. *)
Definition unsupported (objs : list (Pick Number Point)) : list (Pick Number Point) :=
  List.filter (fun o => bool_decide (distance o = None) && negb (isTileMesh o)) objs.

(** The pick that [onMouseUp] keeps as the tile mesh: the last one that
    carries no distance and is a tile mesh; and the warnings it logs. *)
Definition tile_mesh (objs : list (Pick Number Point)) : option (Pick Number Point) :=
  last (List.filter (fun o => bool_decide (distance o = None) && isTileMesh o) objs).

Definition warnings (objs : list (Pick Number Point)) : list Call :=
  replicate (length (unsupported objs)) ConsoleWarn.

End Widget.

Arguments Returns {E A} a s.
Arguments Throws {E A} e.

(** ** An engine for the examples

    Numbers are integers, a position is the pointer of the event (1 when
    there is no event), every event picks the same objects and the terrain
    has the same elevation everywhere. *)
Fixpoint zeros (n : nat) : string :=
  match n with
  | O => EmptyString
  | S n' => ("0" ++ zeros n')%string
  end.

Definition integer_toFixed (n d : Z) : option string :=
  if bool_decide (0 <= d <= 100)%Z then
    Some (pretty.pretty n ++ (if bool_decide (d = 0%Z) then EmptyString
                       else "." ++ zeros (Z.to_nat d)))%string
  else None.

Definition example_engine (picks : option (list (Pick Z Z))) (terrain : Elevation Z)
  : Engine :=
  {| Coordinates := positive; Vector3 := positive; Float32Array := positive;
     Point := Z; Number := Z;
     toVector3 := fun c => c;
     toFloat32Array := fun v => v;
     altitude := fun p => p;
     isNaN := fun _ => false;
     sub_positive := fun a b => bool_decide (0 < a - b)%Z;
     toFixed := integer_toFixed;
     pickCoordinates := fun _ event => Some (from_option pointer 1%positive event);
     pickObjectsAt := fun _ _ => picks;
     getElevationValueAt := fun _ _ => terrain |}.

(** A widget with two decimals, and the same widget switched on. *)
Definition example_created (picks : option (list (Pick Z Z))) (terrain : Elevation Z)
  : @Widget (example_engine picks terrain) :=
  @created (example_engine picks terrain) 2%Z "-" 10%positive 11%positive.

Definition example_switched_on (picks : option (list (Pick Z Z)))
  (terrain : Elevation Z) : @Widget (example_engine picks terrain) :=
  @after (example_engine picks terrain) [ButtonClick; MouseDown]
    (example_created picks terrain).

(** A building 30 away, the terrain, two roofs 12 away and an object of a
    layer that is not supported. *)
Definition example_picks : list (Pick Z Z) :=
  [ {| distance := Some 30%Z; isTileMesh := false; point := 120%Z |};
    {| distance := None; isTileMesh := true; point := 0%Z |};
    {| distance := Some 12%Z; isTileMesh := false; point := 95%Z |};
    {| distance := Some 12%Z; isTileMesh := false; point := 99%Z |};
    {| distance := None; isTileMesh := false; point := 0%Z |} ].

(** The terrain and an object of a layer that is not supported; that
    object alone. *)
Definition example_terrain_picks : list (Pick Z Z) :=
  [ {| distance := None; isTileMesh := true; point := 0%Z |};
    {| distance := None; isTileMesh := false; point := 0%Z |} ].

Definition example_unsupported_picks : list (Pick Z Z) :=
  [ {| distance := None; isTileMesh := false; point := 0%Z |} ].

Definition example_label (picks : option (list (Pick Z Z))) (terrain : Elevation Z)
  : @Label (example_engine picks terrain) :=
  {| label_id := 4%positive; label_div := 2%positive; label_inner := 3%positive;
     textContent := EmptyString; label_position := None |}.

Definition left_click (at_pointer : positive) : MouseEvent :=
  {| button := 0%Z; pointer := at_pointer |}.

End ElevationMeasure.

(** * Properties *)

(** ** The monad *)

Lemma bind_Ok {A B} (m : Js A) (k : A -> Js B) w b w2 :
  bind m k w = Ok b w2 <-> exists a w1, m w = Ok a w1 /\ k a w1 = Ok b w2.
Proof.
  unfold bind. destruct (m w) as [a w1| |]; split.
  - eauto.
  - intros (a' & w1' & [= <- <-] & Hk). exact Hk.
  - discriminate.
  - intros (? & ? & [=] & _).
  - discriminate.
  - intros (? & ? & [=] & _).
Qed.

Lemma bind_exec {A B} (m : Js A) (k : A -> Js B) w a w1 :
  m w = Ok a w1 -> bind m k w = k a w1.
Proof. unfold bind. by intros ->. Qed.

Lemma get_Ok l w o w' :
  get l w = Ok o w' <-> heap w !! l = Some o /\ w' = w.
Proof.
  unfold get. destruct (heap w !! l); split.
  - intros [= <- <-]. done.
  - intros [[= <-] ->]. done.
  - discriminate.
  - intros [[=] _].
Qed.

Lemma get_Some l w o : heap w !! l = Some o -> get l w = Ok o w.
Proof. intros H. apply get_Ok. done. Qed.

Lemma world_eta w : {| heap := heap w; trace := trace w |} = w.
Proof. by destruct w. Qed.

(** ** [cleanup] *)

Lemma texture_loop_exec kvs w :
  for_of kvs (fun kv : string * PropertyValue =>
    match snd kv with
    | Texture t => call (TextureDispose t)
    | NotTexture => ret tt
    end) w
  = Ok tt {| heap := heap w; trace := trace w ++ texture_calls kvs |}.
Proof.
  revert w. induction kvs as [|[k v] kvs IH]; intros w; simpl.
  - unfold ret. by rewrite app_nil_r, world_eta.
  - unfold bind. destruct v; simpl.
    + rewrite IH. simpl. by rewrite <- app_assoc.
    + apply IH.
Qed.

Lemma disposeSingleMaterialAndTextures_exec m w :
  disposeSingleMaterialAndTextures m w
  = Ok tt {| heap := heap w; trace := trace w ++ material_calls m |}.
Proof.
  unfold disposeSingleMaterialAndTextures, bind. simpl.
  rewrite texture_loop_exec. simpl. by rewrite <- app_assoc.
Qed.

Lemma material_loop_exec ms w :
  for_of ms disposeSingleMaterialAndTextures w
  = Ok tt {| heap := heap w;
             trace := trace w ++ flat_map material_calls ms |}.
Proof.
  revert w. induction ms as [|m ms IH]; intros w; simpl.
  - unfold ret. by rewrite app_nil_r, world_eta.
  - unfold bind. rewrite disposeSingleMaterialAndTextures_exec, IH. simpl.
    by rewrite <- app_assoc.
Qed.

Lemma cleanup_exec obj o w :
  heap w !! obj = Some o ->
  cleanup obj w
  = Ok tt {| heap := <[obj := set_layer None o]> (heap w);
             trace := trace w ++ cleanup_calls obj o |}.
Proof.
  intros Ho. unfold cleanup, bind at 1. rewrite (get_Some _ _ _ Ho).
  unfold bind at 1. simpl. unfold cleanup_calls, genericDispose.
  destruct (negb (isScene o) && dispose o); [done|].
  unfold bind, geometry_calls, materials.
  destruct (geometry o) as [g|]; simpl;
    destruct (material o) as [|m|ms]; simpl;
    rewrite ?disposeSingleMaterialAndTextures_exec, ?material_loop_exec;
    simpl; unfold call; simpl;
    rewrite ?app_nil_r, <- ?app_assoc; reflexivity.
Qed.

(** *** Counting calls *)

Lemma occurrences_app e t1 t2 :
  occurrences e (t1 ++ t2) = occurrences e t1 + occurrences e t2.
Proof. unfold occurrences. by rewrite List.filter_app, length_app. Qed.

Lemma occurrences_cons e x t :
  occurrences e (x :: t)
  = (if bool_decide (x = e) then 1 else 0) + occurrences e t.
Proof. unfold occurrences. simpl. by destruct (bool_decide (x = e)). Qed.

Lemma occurrences_none e t :
  Forall (fun x => x <> e) t -> occurrences e t = 0.
Proof.
  induction 1 as [|x t Hx _ IH]; [done|].
  rewrite occurrences_cons, IH. by rewrite bool_decide_eq_false_2.
Qed.

Lemma texture_calls_release kvs :
  Forall (fun e => exists t, e = TextureDispose t) (texture_calls kvs).
Proof.
  induction kvs as [|[k [t|]] kvs IH]; simpl; [done| |done].
  constructor; eauto.
Qed.

Lemma material_calls_release ms :
  Forall (fun e => is_release e = true) (flat_map material_calls ms).
Proof.
  induction ms as [|m ms IH]; simpl; [done|].
  constructor; [done|]. apply Forall_app. split; [|done].
  eapply Forall_impl; [apply texture_calls_release|].
  by intros e [t ->].
Qed.

Lemma geometry_calls_release o :
  Forall (fun e => is_release e = true) (geometry_calls o).
Proof. unfold geometry_calls. destruct (geometry o); by repeat constructor. Qed.

Lemma occurrences_not_release e t :
  is_release e = false ->
  Forall (fun x => is_release x = true) t ->
  occurrences e t = 0.
Proof.
  intros He Ht. apply occurrences_none.
  eapply Forall_impl; [exact Ht|]. intros x Hx ->. congruence.
Qed.

Lemma occurrences_texture_calls t kvs :
  occurrences (TextureDispose t) (texture_calls kvs)
  = length (List.filter (fun kv => bool_decide (snd kv = Texture t)) kvs).
Proof.
  induction kvs as [|[k [t'|]] kvs IH]; simpl; [done| |done].
  rewrite occurrences_cons, IH.
  destruct (decide (t' = t)) as [->|Hne].
  - by rewrite !bool_decide_eq_true_2.
  - rewrite !bool_decide_eq_false_2; [done|congruence|congruence].
Qed.

Lemma occurrences_material_texture t ms :
  occurrences (TextureDispose t) (flat_map material_calls ms)
  = texture_refs t ms.
Proof.
  unfold texture_refs. induction ms as [|m ms IH]; simpl; [done|].
  rewrite occurrences_cons, occurrences_app, IH, occurrences_texture_calls.
  rewrite List.filter_app, length_app.
  by rewrite bool_decide_eq_false_2.
Qed.

Lemma occurrences_material_material r ms :
  occurrences (MaterialDispose r) (flat_map material_calls ms)
  = material_refs r ms.
Proof.
  unfold material_refs. induction ms as [|m ms IH]; simpl; [done|].
  rewrite occurrences_cons, occurrences_app, IH.
  rewrite (occurrences_none _ (texture_calls _)).
  - destruct (decide (material_ref m = r)) as [->|Hne].
    + by rewrite !bool_decide_eq_true_2.
    + rewrite !bool_decide_eq_false_2; [done|congruence|congruence].
  - eapply Forall_impl; [apply texture_calls_release|].
    by intros e [t ->].
Qed.

Lemma occurrences_material_geometry g ms :
  occurrences (GeometryDispose g) (flat_map material_calls ms) = 0.
Proof.
  induction ms as [|m ms IH]; simpl; [done|].
  rewrite occurrences_cons, occurrences_app, IH.
  rewrite (occurrences_none _ (texture_calls _)).
  - by rewrite bool_decide_eq_false_2.
  - eapply Forall_impl; [apply texture_calls_release|].
    by intros e [t ->].
Qed.

(** C8: after [cleanup(N)] returns, the layer reference of N is cleared.
    The node [o] is arbitrary, so this covers the generic-dispose path
    ([dispose] and not a scene), the special-cased scene root and the
    explicit release path. *)
Theorem cleanup_clears_layer (obj : loc) (o : Object3D) (w : World) :
  heap w !! obj = Some o ->
  exists w' o',
    cleanup obj w = Ok tt w' /\ heap w' !! obj = Some o' /\ layer o' = None.
Proof.
  intros Ho. eexists _, _. split; [by apply cleanup_exec|].
  simpl. by rewrite lookup_insert_eq.
Qed.

Lemma cleanup_clears_layer_witness :
  exists w' o',
    cleanup 1 (scene_mesh true true) = Ok tt w' /\
    heap w' !! 1%positive = Some o' /\ layer o' = None.
Proof. apply (cleanup_clears_layer 1 (mesh true true)). reflexivity. Defined.

Lemma release_calls_complete o :
  let releases := geometry_calls o ++ flat_map material_calls (materials o) in
  Forall (fun e => is_release e = true) releases /\
  (forall g, geometry o = Some g -> GeometryDispose g ∈ releases) /\
  (forall m, m ∈ materials o ->
     MaterialDispose (material_ref m) ∈ releases /\
     forall k t, (k, Texture t) ∈ material_keys m ->
       TextureDispose t ∈ releases).
Proof.
  simpl. split; [|split].
  - apply Forall_app. split;
      [apply geometry_calls_release|apply material_calls_release].
  - intros g Hg. apply elem_of_app. left. unfold geometry_calls.
    rewrite Hg. apply list_elem_of_singleton. reflexivity.
  - intros m Hm. split.
    + apply elem_of_app. right. apply list_elem_of_In, in_flat_map.
      exists m. split; [by apply list_elem_of_In|by left].
    + intros k t Hk. apply elem_of_app. right.
      apply list_elem_of_In, in_flat_map. exists m.
      split; [by apply list_elem_of_In|right].
      apply in_flat_map. exists (k, Texture t).
      split; [by apply list_elem_of_In|by left].
Qed.

Lemma genericDispose_true o :
  genericDispose o = true <-> dispose o = true /\ isScene o = false.
Proof.
  unfold genericDispose.
  destruct (isScene o), (dispose o); simpl; intuition congruence.
Qed.

Lemma genericDispose_false o :
  genericDispose o = false <-> dispose o = false \/ isScene o = true.
Proof.
  unfold genericDispose.
  destruct (isScene o), (dispose o); simpl; intuition congruence.
Qed.

(** C5: [cleanup(N)] takes the generic-dispose path exactly when N has a
    [dispose] function and is not a scene.  On that path the only call is
    [N.dispose()]: nothing is released by the helper and no event is
    dispatched.  On the other path the helper releases the geometry if there
    is one, every material and every texture-valued property of every
    material, never calls [N.dispose()], and dispatches exactly one event
    from N, of type 'dispose', as its last call. *)
Theorem cleanup_paths (obj : loc) (o : Object3D) (w : World) :
  heap w !! obj = Some o ->
  exists w' calls,
    cleanup obj w = Ok tt w' /\ trace w' = trace w ++ calls /\
    (ObjectDispose obj ∈ calls <-> dispose o = true /\ isScene o = false) /\
    (dispose o = true /\ isScene o = false -> calls = [ObjectDispose obj]) /\
    (dispose o = false \/ isScene o = true ->
       (exists releases,
          calls = releases ++ [DispatchEvent obj "dispose"] /\
          Forall (fun e => is_release e = true) releases /\
          (forall g, geometry o = Some g -> GeometryDispose g ∈ releases) /\
          (forall m, m ∈ materials o ->
             MaterialDispose (material_ref m) ∈ releases /\
             forall k t, (k, Texture t) ∈ material_keys m ->
               TextureDispose t ∈ releases)) /\
       occurrences (DispatchEvent obj "dispose") calls = 1 /\
       (forall x ty, DispatchEvent x ty ∈ calls ->
          x = obj /\ ty = "dispose")).
Proof.
  intros Ho. eexists _, (cleanup_calls obj o).
  split; [by apply cleanup_exec|]. split; [done|].
  destruct (release_calls_complete o) as (Hrel & Hgeo & Hmat).
  rewrite <- genericDispose_true, <- genericDispose_false.
  unfold cleanup_calls. destruct (genericDispose o) eqn:Hg.
  - split; [|split]; [|done|discriminate].
    split; [done|]. intros _. apply list_elem_of_singleton. reflexivity.
  - rewrite app_assoc.
    set (releases := geometry_calls o ++ flat_map material_calls (materials o))
      in *.
    split; [|split]; [|discriminate|].
    + split; [|discriminate]. intros H. exfalso.
      apply elem_of_app in H as [H|H].
      * rewrite Forall_forall in Hrel. by apply Hrel in H.
      * by apply list_elem_of_singleton in H.
    + intros _. split; [|split].
      * exists releases. done.
      * rewrite occurrences_app.
        rewrite (occurrences_not_release
                   (DispatchEvent obj "dispose") _ eq_refl Hrel).
        rewrite occurrences_cons, bool_decide_eq_true_2 by done.
        reflexivity.
      * intros x ty H. apply elem_of_app in H as [H|H].
        -- rewrite Forall_forall in Hrel. by apply Hrel in H.
        -- apply list_elem_of_singleton in H. by injection H.
Qed.

Lemma cleanup_paths_witness :
  exists w' calls,
    cleanup 1 (scene_mesh true true) = Ok tt w' /\
    trace w' = trace (scene_mesh true true) ++ calls /\
    (ObjectDispose 1 ∈ calls <-> true = true /\ true = false) /\
    (true = true /\ true = false -> calls = [ObjectDispose 1]) /\
    (true = false \/ true = true ->
       (exists releases,
          calls = releases ++ [DispatchEvent 1 "dispose"] /\
          Forall (fun e => is_release e = true) releases /\
          (forall g, Some 9%positive = Some g -> GeometryDispose g ∈ releases) /\
          (forall m, m ∈ [mat5; mat6] ->
             MaterialDispose (material_ref m) ∈ releases /\
             forall k t, (k, Texture t) ∈ material_keys m ->
               TextureDispose t ∈ releases)) /\
       occurrences (DispatchEvent 1 "dispose") calls = 1 /\
       (forall x ty, DispatchEvent x ty ∈ calls ->
          x = 1%positive /\ ty = "dispose")).
Proof. apply (cleanup_paths 1 (mesh true true)). reflexivity. Defined.

(** C2, as stated, fails on the code: [cleanup] releases once per reference,
    not once per resource.  The mesh of [scene_mesh] holds the materials 5
    and 6, whose [map] is the same texture 7; one [cleanup] of it calls
    [dispose()] on texture 7 twice.  With a [dispose] function of its own
    the same mesh is handed to it and the helper releases no material. *)
Lemma cleanup_releases_shared_texture_twice :
  (exists w',
     cleanup 1 (scene_mesh false false) = Ok tt w' /\
     trace w' = [GeometryDispose 9; MaterialDispose 5; TextureDispose 7;
                 MaterialDispose 6; TextureDispose 7;
                 DispatchEvent 1 "dispose"] /\
     occurrences (TextureDispose 7) (trace w') = 2) /\
  (exists w',
     cleanup 1 (scene_mesh false true) = Ok tt w' /\
     trace w' = [ObjectDispose 1] /\
     occurrences (MaterialDispose 5) (trace w') = 0).
Proof.
  split; eexists; (split; [vm_compute; reflexivity|]); split; reflexivity.
Qed.

(** C2, amended: on the explicit release path (no [dispose] function, or a
    scene) a single [cleanup(N)] releases the geometry once if N has one
    (and no other geometry), each material once per occurrence in N's
    material field, and each texture once per texture-valued property that
    holds it among those materials.  On the generic-dispose path (a
    [dispose] function, and not a scene) the only call is [N.dispose()]:
    the helper itself releases no geometry, material or texture.  On both
    paths N's layer reference is cleared after the call. *)
Theorem cleanup_release_counts (obj : loc) (o : Object3D) (w : World) :
  heap w !! obj = Some o ->
  exists w' calls,
    cleanup obj w = Ok tt w' /\ trace w' = trace w ++ calls /\
    (dispose o = false \/ isScene o = true ->
       (forall g, occurrences (GeometryDispose g) calls
                  = if bool_decide (geometry o = Some g) then 1 else 0) /\
       (forall r, occurrences (MaterialDispose r) calls
                  = material_refs r (materials o)) /\
       (forall t, occurrences (TextureDispose t) calls
                  = texture_refs t (materials o))) /\
    (dispose o = true /\ isScene o = false ->
       calls = [ObjectDispose obj] /\
       (forall g, occurrences (GeometryDispose g) calls = 0) /\
       (forall r, occurrences (MaterialDispose r) calls = 0) /\
       (forall t, occurrences (TextureDispose t) calls = 0)) /\
    (exists o', heap w' !! obj = Some o' /\ layer o' = None).
Proof.
  intros Ho.
  eexists _, (cleanup_calls obj o).
  split; [by apply cleanup_exec|]. split; [done|].
  split; [|split].
  - intros Hpath. apply genericDispose_false in Hpath.
    unfold cleanup_calls. rewrite Hpath.
    split; [|split].
    + intros g. rewrite !occurrences_app, occurrences_material_geometry.
      rewrite occurrences_cons, bool_decide_eq_false_2 by done.
      unfold geometry_calls. destruct (geometry o) as [g'|].
      * rewrite occurrences_cons. unfold occurrences at 1. simpl.
        repeat case_bool_decide; simplify_eq; reflexivity.
      * reflexivity.
    + intros r. rewrite !occurrences_app, occurrences_material_material.
      rewrite occurrences_cons, bool_decide_eq_false_2 by done.
      rewrite (occurrences_none _ (geometry_calls o));
        [unfold occurrences; simpl; lia|].
      unfold geometry_calls. destruct (geometry o); by repeat constructor.
    + intros t. rewrite !occurrences_app, occurrences_material_texture.
      rewrite occurrences_cons, bool_decide_eq_false_2 by done.
      rewrite (occurrences_none _ (geometry_calls o));
        [unfold occurrences; simpl; lia|].
      unfold geometry_calls. destruct (geometry o); by repeat constructor.
  - intros Hpath. apply genericDispose_true in Hpath.
    unfold cleanup_calls. rewrite Hpath.
    split; [done|]. split; [|split]; intros x;
      rewrite occurrences_cons, bool_decide_eq_false_2 by done; reflexivity.
  - eexists. simpl. by rewrite lookup_insert_eq.
Qed.

Lemma cleanup_release_counts_witness :
  (exists w' calls,
     cleanup 1 (scene_mesh false false) = Ok tt w' /\
     trace w' = trace (scene_mesh false false) ++ calls /\
     (false = false \/ false = true ->
        (forall g, occurrences (GeometryDispose g) calls
                   = if bool_decide (Some 9%positive = Some g) then 1 else 0) /\
        (forall r, occurrences (MaterialDispose r) calls
                   = material_refs r [mat5; mat6]) /\
        (forall t, occurrences (TextureDispose t) calls
                   = texture_refs t [mat5; mat6])) /\
     (false = true /\ false = false ->
        calls = [ObjectDispose 1] /\
        (forall g, occurrences (GeometryDispose g) calls = 0) /\
        (forall r, occurrences (MaterialDispose r) calls = 0) /\
        (forall t, occurrences (TextureDispose t) calls = 0)) /\
     (exists o', heap w' !! 1%positive = Some o' /\ layer o' = None)) /\
  (exists w' calls,
     cleanup 1 (scene_mesh false true) = Ok tt w' /\
     trace w' = trace (scene_mesh false true) ++ calls /\
     (true = false \/ false = true ->
        (forall g, occurrences (GeometryDispose g) calls
                   = if bool_decide (Some 9%positive = Some g) then 1 else 0) /\
        (forall r, occurrences (MaterialDispose r) calls
                   = material_refs r [mat5; mat6]) /\
        (forall t, occurrences (TextureDispose t) calls
                   = texture_refs t [mat5; mat6])) /\
     (true = true /\ false = false ->
        calls = [ObjectDispose 1] /\
        (forall g, occurrences (GeometryDispose g) calls = 0) /\
        (forall r, occurrences (MaterialDispose r) calls = 0) /\
        (forall t, occurrences (TextureDispose t) calls = 0)) /\
     (exists o', heap w' !! 1%positive = Some o' /\ layer o' = None)).
Proof.
  split.
  - apply (cleanup_release_counts 1 (mesh false false)). reflexivity.
  - apply (cleanup_release_counts 1 (mesh false true)). reflexivity.
Defined.

(** ** [Object3D.remove] and the filter *)

Lemma remove_first_middle x pre cs :
  x ∉ pre -> remove_first x (pre ++ x :: cs) = pre ++ cs.
Proof.
  induction pre as [|y pre IH]; intros Hx; simpl.
  - by rewrite decide_True.
  - rewrite decide_False.
    + f_equal. apply IH. intros H. apply Hx. by right.
    + intros ->. apply Hx. by left.
Qed.

Lemma remove_first_sublist x cs : remove_first x cs `sublist_of` cs.
Proof.
  induction cs as [|y cs IH]; simpl; [done|].
  destruct (decide (x = y)).
  - by apply sublist_cons.
  - by apply sublist_skip.
Qed.

Lemma remove_first_other x y cs :
  y <> x -> y ∈ cs -> y ∈ remove_first x cs.
Proof.
  intros Hne. induction cs as [|z cs IH]; simpl; [done|].
  intros Hy. destruct (decide (x = z)) as [->|Hxz].
  - apply elem_of_cons in Hy as [->|Hy]; [done|exact Hy].
  - apply elem_of_cons in Hy as [->|Hy]; [by left|right; by apply IH].
Qed.

Lemma remove_first_NoDup x cs : NoDup cs -> x ∉ remove_first x cs.
Proof.
  induction 1 as [|y cs Hy Hnd IH]; simpl; [apply not_elem_of_nil|].
  destruct (decide (x = y)) as [->|Hxy]; [done|].
  intros H. apply elem_of_cons in H as [->|H]; [done|by apply IH].
Qed.

Lemma detach_sublist objects cs : detach objects cs `sublist_of` cs.
Proof.
  unfold detach. revert cs. induction objects as [|x objects IH];
    intros cs; simpl; [done|].
  etrans; [apply IH|apply remove_first_sublist].
Qed.

Lemma detach_keeps objects cs y :
  y ∉ objects -> y ∈ cs -> y ∈ detach objects cs.
Proof.
  unfold detach. revert cs. induction objects as [|x objects IH];
    intros cs Hy Hin; simpl; [done|].
  apply IH.
  - intros H. apply Hy. by right.
  - apply remove_first_other; [|done]. intros ->. apply Hy. by left.
Qed.

Lemma detach_removes objects cs x :
  NoDup cs -> x ∈ objects -> x ∉ detach objects cs.
Proof.
  unfold detach. revert cs. induction objects as [|y objects IH];
    intros cs Hnd Hx; simpl.
  - by apply elem_of_nil in Hx.
  - apply elem_of_cons in Hx as [->|Hx].
    + intros H. eapply remove_first_NoDup; [exact Hnd|].
      eapply (sublist_subseteq _ _ (detach_sublist objects _)); exact H.
    + apply IH; [|done].
      eapply sublist_NoDup; [exact Hnd|]. apply remove_first_sublist.
Qed.

(** Detaching what a filter selected leaves what the filter rejected, in
    order, whether or not a child occurs twice. *)
Lemma detach_filter_prefix (p : loc -> bool) pre cs :
  Forall (fun c => p c = false) pre ->
  detach (List.filter p cs) (pre ++ cs)
  = pre ++ List.filter (fun c => negb (p c)) cs.
Proof.
  unfold detach. revert pre. induction cs as [|x cs IH]; intros pre Hpre;
    simpl; [done|].
  destruct (p x) eqn:Hx; simpl.
  - rewrite remove_first_middle; [by apply IH|].
    intros Hin. rewrite Forall_forall in Hpre. apply Hpre in Hin. congruence.
  - replace (pre ++ x :: cs) with ((pre ++ [x]) ++ cs)
      by (by rewrite <- app_assoc).
    rewrite IH; [by rewrite <- app_assoc|].
    apply Forall_app. split; [done|by constructor].
Qed.

Lemma detach_filter (p : loc -> bool) cs :
  detach (List.filter p cs) cs = List.filter (fun c => negb (p c)) cs.
Proof. apply (detach_filter_prefix p []). constructor. Qed.

Lemma children_stored_Forall w o :
  children_stored w o = true <->
  Forall (fun c => is_Some (heap w !! c)) (children o).
Proof.
  unfold children_stored. rewrite forallb_forall, Forall_forall.
  split; intros H c Hc.
  - apply list_elem_of_In, H in Hc. by apply bool_decide_eq_true_1 in Hc.
  - apply bool_decide_eq_true_2, H. by apply list_elem_of_In.
Qed.

Lemma inLayer_Some w layer0 c co :
  heap w !! c = Some co -> inLayer w layer0 c = ofLayer layer0 co.
Proof. unfold inLayer. by intros ->. Qed.

Lemma array_filter_Ok layer0 cs w r w' :
  array_filter (fun c => co <- get c ;; ret (ofLayer layer0 co)) cs w
    = Ok r w' <->
  Forall (fun c => is_Some (heap w !! c)) cs /\
  r = List.filter (inLayer w layer0) cs /\ w' = w.
Proof.
  revert r w'. induction cs as [|c cs IH]; intros r w'; simpl.
  - unfold ret. split.
    + intros [= <- <-]. done.
    + intros (_ & -> & ->). done.
  - rewrite bind_Ok. split.
    + intros (b & w1 & Hb & Hrest).
      apply bind_Ok in Hb as (co & w2 & Hget & Hret).
      apply get_Ok in Hget as [Hco ->]. injection Hret as <- <-.
      apply bind_Ok in Hrest as (r' & w3 & Hrec & Hret).
      apply IH in Hrec as (Hcs & -> & ->). injection Hret as <- <-.
      split; [constructor; eauto|]. split; [|done].
      by rewrite (inLayer_Some _ _ _ _ Hco).
    + intros (Hall & -> & ->). inversion Hall as [|? ? [co Hco] Hcs]; subst.
      exists (ofLayer layer0 co), w. split.
      * apply bind_Ok. exists co, w. split; [by apply get_Some|done].
      * apply bind_Ok. exists (List.filter (inLayer w layer0) cs), w.
        split; [by apply IH|]. unfold ret.
        by rewrite (inLayer_Some _ _ _ _ Hco).
Qed.

Lemma layerChildren_Ok layer0 obj w r w' :
  layerChildren layer0 obj w = Ok r w' <->
  exists o, heap w !! obj = Some o /\ children_stored w o = true /\
            r = List.filter (inLayer w layer0) (children o) /\ w' = w.
Proof.
  unfold layerChildren. rewrite bind_Ok. split.
  - intros (o & w1 & Hget & Hf). apply get_Ok in Hget as [Ho ->].
    apply array_filter_Ok in Hf as (Hall & -> & ->).
    exists o. by rewrite children_stored_Forall.
  - intros (o & Ho & Hall & -> & ->). exists o, w.
    split; [by apply get_Some|]. apply array_filter_Ok.
    by rewrite <- children_stored_Forall.
Qed.

Lemma remove_exec obj objects o w :
  heap w !! obj = Some o ->
  remove obj objects w
  = Ok tt {| heap := <[obj := set_children (detach objects (children o)) o]>
                       (heap w);
             trace := trace w ++ [Remove obj objects] |}.
Proof.
  intros Ho. unfold remove, bind. by rewrite (get_Some _ _ _ Ho).
Qed.

Lemma removeChildren_exec layer0 obj o w :
  heap w !! obj = Some o -> children_stored w o = true ->
  let toRemove := List.filter (inLayer w layer0) (children o) in
  removeChildren layer0 obj w
  = Ok toRemove
      {| heap := <[obj := set_children
                     (List.filter (fun c => negb (inLayer w layer0 c))
                        (children o)) o]> (heap w);
         trace := trace w ++ [Remove obj toRemove] |}.
Proof.
  intros Ho Hst toRemove. unfold removeChildren.
  assert (Hlc : layerChildren layer0 obj w = Ok toRemove w).
  { apply layerChildren_Ok. eauto. }
  unfold bind at 1. rewrite Hlc. unfold bind.
  rewrite (remove_exec _ _ _ _ Ho). unfold ret, toRemove.
  by rewrite detach_filter.
Qed.

Lemma cleaned_cleanup_calls obj o x :
  cleaned x (cleanup_calls obj o) <-> x = obj.
Proof.
  unfold cleaned, cleanup_calls.
  destruct (release_calls_complete o) as (Hrel & _).
  rewrite Forall_forall in Hrel.
  destruct (genericDispose o).
  - rewrite !list_elem_of_singleton. split.
    + intros [[= ->]|[=]]. done.
    + intros ->. by left.
  - rewrite app_assoc.
    set (releases := geometry_calls o ++ flat_map material_calls (materials o))
      in *.
    rewrite (elem_of_app releases), (elem_of_app releases).
    rewrite !list_elem_of_singleton. split.
    + intros [[H|[=]]|[H|[= ->]]];
        [by apply Hrel in H|by apply Hrel in H|done].
    + intros ->. right. by right.
Qed.

Lemma filter_In_elem (p : loc -> bool) cs c :
  c ∈ List.filter p cs <-> c ∈ cs /\ p c = true.
Proof. by rewrite !list_elem_of_In, List.filter_In. Qed.

Lemma filter_filter_same (p : loc -> bool) cs :
  List.filter p (List.filter p cs) = List.filter p cs.
Proof.
  induction cs as [|c cs IH]; simpl; [done|].
  destruct (p c) eqn:Hc; simpl; [|done]. by rewrite Hc, IH.
Qed.

(** C6: when exactly [k] direct children of N pass the test
    [layer.id === L.id], [removeChildren(L, N)] returns exactly those [k]
    children in their original order; afterwards the children of N are the
    other children, in their original order.  A child without a layer is
    never selected and stays. *)
Theorem removeChildren_selects
  (layer0 : Layer) (obj : loc) (o : Object3D) (w : World) (k : nat) :
  heap w !! obj = Some o ->
  children_stored w o = true ->
  length (List.filter (inLayer w layer0) (children o)) = k ->
  exists r w' o',
    removeChildren layer0 obj w = Ok r w' /\
    r = List.filter (inLayer w layer0) (children o) /\ length r = k /\
    heap w' !! obj = Some o' /\
    children o'
    = List.filter (fun c => negb (inLayer w layer0 c)) (children o) /\
    (forall c, c ∈ r -> c ∉ children o') /\
    (forall c, c ∈ children o -> c ∉ r -> c ∈ children o') /\
    (forall c co, c ∈ children o -> heap w !! c = Some co ->
       layer co = None -> (c ∉ r) /\ c ∈ children o').
Proof.
  intros Ho Hst Hk. eexists _, _, _.
  split; [by apply removeChildren_exec|].
  split; [done|]. split; [done|]. simpl. rewrite lookup_insert_eq.
  split; [done|]. simpl. split; [done|]. split; [|split].
  - intros c Hc Hc'. apply filter_In_elem in Hc as [_ Hc].
    apply filter_In_elem in Hc' as [_ Hc']. rewrite Hc in Hc'. done.
  - intros c Hc Hr. apply filter_In_elem. split; [done|].
    destruct (inLayer w layer0 c) eqn:Hin; [|done].
    exfalso. apply Hr. by apply filter_In_elem.
  - intros c co Hc Hco Hl.
    assert (Hin : inLayer w layer0 c = false).
    { rewrite (inLayer_Some _ _ _ _ Hco). unfold ofLayer. by rewrite Hl. }
    split.
    + intros Hr. apply filter_In_elem in Hr as [_ Hr]. congruence.
    + apply filter_In_elem. by rewrite Hin.
Qed.

Lemma removeChildren_selects_witness :
  exists r w' o',
    removeChildren layerA 1 (scene_abc None) = Ok r w' /\
    r = List.filter (inLayer (scene_abc None) layerA) [2; 3; 4]%positive /\
    length r = 1 /\
    heap w' !! 1%positive = Some o' /\
    children o'
    = List.filter (fun c => negb (inLayer (scene_abc None) layerA c))
        [2; 3; 4]%positive /\
    (forall c, c ∈ r -> c ∉ children o') /\
    (forall c, c ∈ [2; 3; 4]%positive -> c ∉ r -> c ∈ children o') /\
    (forall c co, c ∈ [2; 3; 4]%positive ->
       heap (scene_abc None) !! c = Some co ->
       layer co = None -> (c ∉ r) /\ c ∈ children o').
Proof.
  apply (removeChildren_selects layerA 1 (group None None [2; 3; 4]%positive)
           (scene_abc None) 1); reflexivity.
Defined.

(** The scenario of the specification: N has the children A (layer L1),
    B (layer L2) and C (no layer); [removeChildren(L1, N)] returns [A] and
    leaves [B, C]. *)
Example removeChildren_scenario :
  exists w',
    removeChildren layerA 1 (scene_abc None) = Ok [2%positive] w' /\
    children <$> heap w' !! 1%positive = Some [3; 4]%positive /\
    trace w' = [Remove 1 [2%positive]].
Proof. eexists. split; [vm_compute; reflexivity|]. by split. Qed.

(** C7: [removeChildren(L, N)] makes no release call on any geometry,
    material or texture (its only call into the engine is [N.remove]), it
    changes no node but N and nothing of N but its child collection, and
    the children of N that do not match L are the same afterwards, in number
    and content. *)
Theorem removeChildren_releases_nothing
  (layer0 : Layer) (obj : loc) (o : Object3D) (w : World) :
  heap w !! obj = Some o ->
  children_stored w o = true ->
  exists r w' o' calls,
    removeChildren layer0 obj w = Ok r w' /\
    trace w' = trace w ++ calls /\ calls = [Remove obj r] /\
    List.filter is_release calls = [] /\
    (forall x, x <> obj -> heap w' !! x = heap w !! x) /\
    heap w' !! obj = Some o' /\ o' = set_children (children o') o /\
    List.filter (fun c => negb (inLayer w layer0 c)) (children o')
    = List.filter (fun c => negb (inLayer w layer0 c)) (children o).
Proof.
  intros Ho Hst. eexists _, _, _, _.
  split; [by apply removeChildren_exec|]. simpl.
  split; [done|]. split; [done|]. split; [done|]. split; [|split; [|split]].
  - intros x Hx. by rewrite lookup_insert_ne.
  - by rewrite lookup_insert_eq.
  - done.
  - simpl. apply filter_filter_same.
Qed.

Lemma removeChildren_releases_nothing_witness :
  exists r w' o' calls,
    removeChildren layerA 1 (scene_abc None) = Ok r w' /\
    trace w' = trace (scene_abc None) ++ calls /\ calls = [Remove 1 r] /\
    List.filter is_release calls = [] /\
    (forall x, x <> 1%positive ->
       heap w' !! x = heap (scene_abc None) !! x) /\
    heap w' !! 1%positive = Some o' /\
    o' = set_children (children o') (group None None [2; 3; 4]%positive) /\
    List.filter (fun c => negb (inLayer (scene_abc None) layerA c))
      (children o')
    = List.filter (fun c => negb (inLayer (scene_abc None) layerA c))
        [2; 3; 4]%positive.
Proof.
  apply (removeChildren_releases_nothing layerA 1
           (group None None [2; 3; 4]%positive) (scene_abc None));
    reflexivity.
Defined.

(** ** [removeChildrenAndCleanup] *)

Lemma removeChildrenAndCleanup_unfold layer0 obj o w r w1 :
  heap w !! obj = Some o ->
  removeChildren layer0 obj w = Ok r w1 ->
  removeChildrenAndCleanup layer0 obj w
  = if bool_decide (layer o = Some layer0)
    then match cleanup obj w1 with
         | Ok _ w2 => Ok r w2
         | TypeError => TypeError
         | OutOfFuel => OutOfFuel
         end
    else Ok r w1.
Proof.
  intros Ho Hrc. unfold removeChildren in Hrc.
  apply bind_Ok in Hrc as (r' & w' & Hlc & Hrest).
  apply bind_Ok in Hrest as ([] & w2 & Hrm & Hret).
  injection Hret as -> ->.
  pose proof Hlc as Hlc'.
  apply layerChildren_Ok in Hlc' as (o' & Ho' & _ & _ & ->).
  rewrite Ho in Ho'. injection Ho' as <-.
  pose proof Hrm as Hrm'. rewrite (remove_exec _ _ _ _ Ho) in Hrm'.
  injection Hrm' as <-.
  unfold removeChildrenAndCleanup.
  rewrite (bind_exec _ _ _ _ _ Hlc), (bind_exec _ _ _ _ _ Hrm).
  erewrite bind_exec; [|apply get_Some; apply lookup_insert_eq].
  simpl. unfold bind.
  destruct (bool_decide (layer o = Some layer0)); [|done].
  by destruct (cleanup obj _).
Qed.

(** C9: when the layer reference of N is not the object L,
    [removeChildrenAndCleanup(L, N)] is [removeChildren(L, N)]: the same
    outcome, hence the same returned list and the same final children of N;
    its only call into the engine is [N.remove], no node is cleaned up and
    every node keeps its layer reference. *)
Theorem removeChildrenAndCleanup_other_layer
  (layer0 : Layer) (obj : loc) (o : Object3D) (w : World) :
  heap w !! obj = Some o ->
  layer o <> Some layer0 ->
  removeChildrenAndCleanup layer0 obj w = removeChildren layer0 obj w /\
  (children_stored w o = true ->
   exists r w',
     removeChildrenAndCleanup layer0 obj w = Ok r w' /\
     trace w' = trace w ++ [Remove obj r] /\
     (forall x, ~ cleaned x [Remove obj r]) /\
     (forall x ox, heap w !! x = Some ox ->
        exists ox', heap w' !! x = Some ox' /\ layer ox' = layer ox)).
Proof.
  intros Ho Hl.
  assert (Heq : removeChildrenAndCleanup layer0 obj w
                = removeChildren layer0 obj w).
  { destruct (removeChildren layer0 obj w) as [r w1| |] eqn:Hrc.
    - rewrite (removeChildrenAndCleanup_unfold _ _ _ _ _ _ Ho Hrc).
      by rewrite bool_decide_eq_false_2.
    - unfold removeChildren, removeChildrenAndCleanup, bind in *.
      destruct (layerChildren layer0 obj w); [|done|done].
      by destruct (remove obj a w0).
    - unfold removeChildren, removeChildrenAndCleanup, bind in *.
      destruct (layerChildren layer0 obj w); [|done|done].
      by destruct (remove obj a w0). }
  split; [exact Heq|]. intros Hst. rewrite Heq.
  rewrite (removeChildren_exec _ _ _ _ Ho Hst). eexists _, _.
  split; [reflexivity|]. simpl. split; [done|]. split.
  - intros x [H|H]; apply list_elem_of_singleton in H; discriminate.
  - intros x ox Hx. destruct (decide (x = obj)) as [->|Hne].
    + rewrite lookup_insert_eq. eexists. split; [done|].
      rewrite Ho in Hx. by injection Hx as <-.
    + rewrite lookup_insert_ne by done. eauto.
Qed.

(** Here N carries [layerA'], a layer object other than [layerA] with the
    same [id]. *)
Lemma removeChildrenAndCleanup_other_layer_witness :
  removeChildrenAndCleanup layerA 1 (scene_abc (Some layerA'))
  = removeChildren layerA 1 (scene_abc (Some layerA')) /\
  (children_stored (scene_abc (Some layerA'))
     (group (Some layerA') None [2; 3; 4]%positive) = true ->
   exists r w',
     removeChildrenAndCleanup layerA 1 (scene_abc (Some layerA')) = Ok r w' /\
     trace w' = trace (scene_abc (Some layerA')) ++ [Remove 1 r] /\
     (forall x, ~ cleaned x [Remove 1 r]) /\
     (forall x ox, heap (scene_abc (Some layerA')) !! x = Some ox ->
        exists ox', heap w' !! x = Some ox' /\ layer ox' = layer ox)).
Proof.
  apply (removeChildrenAndCleanup_other_layer layerA 1
           (group (Some layerA') None [2; 3; 4]%positive));
    [reflexivity|discriminate].
Defined.

(** C4: [removeChildrenAndCleanup(L, N)] selects and detaches as
    [removeChildren(L, N)] does and returns the same list; it then runs
    [cleanup(N)] when the layer reference of N is the object L, and does
    nothing more otherwise, in particular when N carries another layer
    object with the [id] of L.  No node other than N, child of N or not,
    detached or not, is changed or cleaned up. *)
Theorem removeChildrenAndCleanup_identity
  (layer0 : Layer) (obj : loc) (o : Object3D) (w : World) :
  heap w !! obj = Some o ->
  children_stored w o = true ->
  exists r w1 w2 calls,
    removeChildren layer0 obj w = Ok r w1 /\
    removeChildrenAndCleanup layer0 obj w = Ok r w2 /\
    trace w2 = trace w1 ++ calls /\
    (layer o = Some layer0 ->
       cleanup obj w1 = Ok tt w2 /\ cleaned obj calls) /\
    (layer o <> Some layer0 -> w2 = w1 /\ calls = []) /\
    (forall l', layer o = Some l' -> l' <> layer0 ->
       layer_id l' = layer_id layer0 -> w2 = w1 /\ calls = []) /\
    (forall c, c <> obj ->
       heap w2 !! c = heap w !! c /\ ~ cleaned c calls).
Proof.
  intros Ho Hst.
  pose proof (removeChildren_exec layer0 _ _ _ Ho Hst) as Hrc. simpl in Hrc.
  pose proof (removeChildrenAndCleanup_unfold _ _ _ _ _ _ Ho Hrc) as Hun.
  set (o1 := set_children
               (List.filter (fun c => negb (inLayer w layer0 c)) (children o))
               o) in *.
  set (w1 := {| heap := <[obj := o1]> (heap w); trace := _ |}) in *.
  assert (Ho1 : heap w1 !! obj = Some o1) by apply lookup_insert_eq.
  pose proof (cleanup_exec _ _ _ Ho1) as Hcl. rewrite Hcl in Hun.
  destruct (decide (layer o = Some layer0)) as [Hid|Hid].
  - rewrite bool_decide_eq_true_2 in Hun by done.
    eexists _, w1, _, (cleanup_calls obj o1).
    split; [exact Hrc|]. split; [exact Hun|]. split; [done|].
    split; [|split; [|split]].
    + intros _. split; [exact Hcl|]. by apply cleaned_cleanup_calls.
    + done.
    + intros l' Hl' Hne. congruence.
    + intros c Hc. split.
      * simpl. by rewrite !lookup_insert_ne.
      * by rewrite cleaned_cleanup_calls.
  - rewrite bool_decide_eq_false_2 in Hun by done.
    eexists _, w1, w1, [].
    split; [exact Hrc|]. split; [exact Hun|].
    split; [by rewrite app_nil_r|]. split; [|split; [|split]].
    + done.
    + done.
    + done.
    + intros c Hc. split.
      * simpl. by rewrite lookup_insert_ne.
      * intros [H|H]; by apply elem_of_nil in H.
Qed.

Lemma removeChildrenAndCleanup_identity_witness :
  exists r w1 w2 calls,
    removeChildren layerA 1 (scene_abc (Some layerA)) = Ok r w1 /\
    removeChildrenAndCleanup layerA 1 (scene_abc (Some layerA)) = Ok r w2 /\
    trace w2 = trace w1 ++ calls /\
    (Some layerA = Some layerA ->
       cleanup 1 w1 = Ok tt w2 /\ cleaned 1 calls) /\
    (Some layerA <> Some layerA -> w2 = w1 /\ calls = []) /\
    (forall l', Some layerA = Some l' -> l' <> layerA ->
       layer_id l' = layer_id layerA -> w2 = w1 /\ calls = []) /\
    (forall c, c <> 1%positive ->
       heap w2 !! c = heap (scene_abc (Some layerA)) !! c /\
       ~ cleaned c calls).
Proof.
  apply (removeChildrenAndCleanup_identity layerA 1
           (group (Some layerA) None [2; 3; 4]%positive)); reflexivity.
Defined.

(** The two faces of the identity test: with the layer object itself N is
    cleaned up; with another layer object of the same [id] it is not. *)
Example removeChildrenAndCleanup_same_object :
  exists w',
    removeChildrenAndCleanup layerA 1 (scene_abc (Some layerA))
    = Ok [2%positive] w' /\
    layer <$> heap w' !! 1%positive = Some None /\
    trace w' = [Remove 1 [2%positive]; DispatchEvent 1 "dispose"].
Proof. eexists. split; [vm_compute; reflexivity|]. by split. Qed.

Example removeChildrenAndCleanup_same_id :
  exists w',
    removeChildrenAndCleanup layerA 1 (scene_abc (Some layerA'))
    = Ok [2%positive] w' /\
    layer <$> heap w' !! 1%positive = Some (Some layerA') /\
    trace w' = [Remove 1 [2%positive]].
Proof. eexists. split; [vm_compute; reflexivity|]. by split. Qed.

(** ** The recursive operation: what a run may change *)

Lemma shrinks_refl layer0 o : shrinks layer0 o o.
Proof. unfold shrinks. by repeat split; [|left]. Qed.

Lemma ofLayer_None layer0 o : layer o = None -> ofLayer layer0 o = false.
Proof. unfold ofLayer. by intros ->. Qed.

Lemma shrinks_ofLayer layer0 o o' :
  shrinks layer0 o o' -> ofLayer layer0 o' = true ->
  ofLayer layer0 o = true /\ layer o' = layer o.
Proof.
  intros (_ & [Hl|[Hl _]] & _) Ho'.
  - unfold ofLayer in *. by rewrite <- Hl.
  - by rewrite (ofLayer_None _ _ Hl) in Ho'.
Qed.

Lemma shrinks_trans layer0 o1 o2 o3 :
  shrinks layer0 o1 o2 -> shrinks layer0 o2 o3 -> shrinks layer0 o1 o3.
Proof.
  intros H12 H23.
  destruct H12 as (Hc1 & Hl1 & Hk1 & Hs1 & Hd1 & Hg1 & Hm1).
  destruct H23 as (Hc2 & Hl2 & Hk2 & Hs2 & Hd2 & Hg2 & Hm2).
  unfold shrinks. split; [by etrans|].
  split; [|repeat split; congruence].
  destruct Hl2 as [Hl2|[Hl2 Hof]].
  - rewrite Hl2. exact Hl1.
  - right. split; [done|].
    destruct Hl1 as [Hl1|[Hl1 _]].
    + unfold ofLayer in *. by rewrite <- Hl1.
    + by rewrite (ofLayer_None _ _ Hl1) in Hof.
Qed.

Lemma shrinks_cleanup_calls layer0 o o' x :
  shrinks layer0 o o' -> cleanup_calls x o' = cleanup_calls x o.
Proof.
  intros (_ & _ & _ & Hs & Hd & Hg & Hm).
  unfold cleanup_calls, genericDispose, geometry_calls, materials.
  by rewrite Hs, Hd, Hg, Hm.
Qed.

Lemma shrinks_link_list layer0 o o' :
  shrinks layer0 o o' -> link_list o' = link_list o.
Proof. intros (_ & _ & Hk & _). unfold link_list. by rewrite Hk. Qed.

Section Evolution.
Variable layer0 : Layer.

Lemma heap_shrinks_lookup w w' l o :
  (forall l, option_Forall2 (shrinks layer0) (heap w !! l) (heap w' !! l)) ->
  heap w !! l = Some o ->
  exists o', heap w' !! l = Some o' /\ shrinks layer0 o o'.
Proof.
  intros H Ho. specialize (H l). rewrite Ho in H.
  inversion H as [? o' Hs|]; subst. eauto.
Qed.

Lemma heap_shrinks_lookup_inv w w' l o' :
  (forall l, option_Forall2 (shrinks layer0) (heap w !! l) (heap w' !! l)) ->
  heap w' !! l = Some o' ->
  exists o, heap w !! l = Some o /\ shrinks layer0 o o'.
Proof.
  intros H Ho. specialize (H l). rewrite Ho in H.
  inversion H as [o ? Hs|]; subst. eauto.
Qed.

Lemma inLayer_mono w w' c :
  (forall l, option_Forall2 (shrinks layer0) (heap w !! l) (heap w' !! l)) ->
  inLayer w' layer0 c = true -> inLayer w layer0 c = true.
Proof.
  intros H. unfold inLayer at 1.
  destruct (heap w' !! c) as [o'|] eqn:Ho'; [|done].
  destruct (heap_shrinks_lookup_inv _ _ _ _ H Ho') as (o & Ho & Hs).
  intros Hof. rewrite (inLayer_Some _ _ _ _ Ho).
  by destruct (shrinks_ofLayer _ _ _ Hs Hof).
Qed.

Lemma visited_app x t1 t2 :
  visited x (t1 ++ t2) <-> visited x t1 \/ visited x t2.
Proof.
  unfold visited. split.
  - intros [objs H]. apply elem_of_app in H as [H|H]; eauto.
  - intros [[objs H]|[objs H]]; exists objs; apply elem_of_app; eauto.
Qed.

Lemma evolves_refl w : evolves layer0 w w [].
Proof.
  unfold evolves. rewrite app_nil_r. split; [done|]. split.
  - intros l. destruct (heap w !! l); constructor. apply shrinks_refl.
  - split; [done|]. split; [constructor|].
    intros l o o' c Ho Ho'. congruence.
Qed.

Lemma justified_mono w w' e :
  (forall l, option_Forall2 (shrinks layer0) (heap w !! l) (heap w' !! l)) ->
  justified layer0 w' e -> justified layer0 w e.
Proof.
  intros H [Hr|(y & oy' & Hy & Hof & He)]; [by left|right].
  destruct (heap_shrinks_lookup_inv _ _ _ _ H Hy) as (oy & Hoy & Hs).
  exists y, oy. split; [done|].
  split; [by destruct (shrinks_ofLayer _ _ _ Hs Hof)|].
  by rewrite <- (shrinks_cleanup_calls _ _ _ y Hs).
Qed.

Lemma evolves_trans w1 w2 w3 t1 t2 :
  evolves layer0 w1 w2 t1 -> evolves layer0 w2 w3 t2 ->
  evolves layer0 w1 w3 (t1 ++ t2).
Proof.
  intros (Ht1 & Hs1 & Hv1 & Hj1 & Hk1) (Ht2 & Hs2 & Hv2 & Hj2 & Hk2).
  unfold evolves. split; [by rewrite Ht2, Ht1, app_assoc|].
  split; [|split; [|split]].
  - intros l. specialize (Hs1 l). specialize (Hs2 l).
    destruct Hs1 as [o1 o2 H12|]; inversion Hs2 as [? o3 H23|]; subst;
      constructor. by eapply shrinks_trans.
  - intros l Hl. rewrite visited_app in Hl.
    rewrite Hv2, Hv1; [done|tauto|tauto].
  - apply Forall_app. split; [done|].
    eapply Forall_impl; [exact Hj2|]. intros e. by apply justified_mono.
  - intros l o o3 c Ho Ho3 Hc Hin Hlk.
    destruct (heap_shrinks_lookup _ _ _ _ Hs1 Ho) as (o2 & Ho2 & Hs).
    eapply (Hk2 l o2 o3 c); [done|done| | |].
    + by eapply Hk1.
    + destruct (inLayer w2 layer0 c) eqn:Hin2; [|done].
      apply (inLayer_mono _ _ _ Hs1) in Hin2. congruence.
    + by rewrite (shrinks_link_list _ _ _ Hs).
Qed.

End Evolution.

Lemma for_of_cons_Ok {A} (x : A) l (body : A -> Js unit) w u w' :
  for_of (x :: l) body w = Ok u w' <->
  exists w1, body x w = Ok tt w1 /\ for_of l body w1 = Ok u w'.
Proof.
  simpl. rewrite bind_Ok. split.
  - intros ([] & w1 & H1 & H2). eauto.
  - intros (w1 & H1 & H2). eauto.
Qed.

Lemma finish_exec layer0 obj toRemove o w :
  heap w !! obj = Some o ->
  finish layer0 obj toRemove w
  = Ok tt {| heap := <[obj := finished layer0 toRemove o]> (heap w);
             trace := trace w ++ finish_calls layer0 obj toRemove o |}.
Proof.
  intros Ho. unfold finish.
  rewrite (bind_exec _ _ _ _ _ (remove_exec _ toRemove _ _ Ho)).
  erewrite bind_exec; [|apply get_Some; apply lookup_insert_eq].
  unfold finished, finish_calls. simpl.
  change (ofLayer layer0 (set_children (detach toRemove (children o)) o))
    with (ofLayer layer0 o).
  destruct (ofLayer layer0 o).
  - erewrite cleanup_exec; [|apply lookup_insert_eq]. simpl.
    rewrite insert_insert_eq, <- app_assoc. reflexivity.
  - reflexivity.
Qed.

Lemma finish_Ok layer0 obj toRemove w u w' :
  finish layer0 obj toRemove w = Ok u w' ->
  exists o, heap w !! obj = Some o /\
    w' = {| heap := <[obj := finished layer0 toRemove o]> (heap w);
            trace := trace w ++ finish_calls layer0 obj toRemove o |}.
Proof.
  destruct (heap w !! obj) as [o|] eqn:Ho.
  - rewrite (finish_exec _ _ _ _ _ Ho). intros [= <-]. eauto.
  - unfold finish, remove, bind, get. rewrite Ho. discriminate.
Qed.

(** One step of the recursion: the selection, the loop over the
    candidates, then [finish]. *)
Lemma removeChildrenAndCleanupRecursively_S fuel layer0 obj w r w' :
  removeChildrenAndCleanupRecursively (S fuel) layer0 obj w = Ok r w' <->
  exists o w1,
    heap w !! obj = Some o /\ children_stored w o = true /\
    r = candidates w layer0 o /\
    for_of r (fun c =>
      removeChildrenAndCleanupRecursively fuel layer0 c ;; ret tt) w
    = Ok tt w1 /\
    finish layer0 obj r w1 = Ok tt w'.
Proof.
  simpl. rewrite bind_Ok. split.
  - intros (cs & w0 & Hlc & Hrest).
    apply layerChildren_Ok in Hlc as (o & Ho & Hst & -> & ->).
    apply bind_Ok in Hrest as (o0 & w0 & Hget & Hrest).
    apply get_Ok in Hget as [Ho0 ->]. rewrite Ho in Ho0. injection Ho0 as <-.
    apply bind_Ok in Hrest as ([] & w1 & Hloop & Hrest).
    apply bind_Ok in Hrest as ([] & w2 & Hrm & Hrest).
    apply bind_Ok in Hrest as (o1 & w3 & Hget & Hrest).
    apply bind_Ok in Hrest as ([] & w4 & Hcl & Hret).
    injection Hret as <- <-.
    exists o, w1. split; [done|]. split; [done|]. split; [done|].
    split; [exact Hloop|]. unfold finish.
    apply bind_Ok. exists tt, w2. split; [exact Hrm|].
    apply bind_Ok. exists o1, w3. split; [exact Hget|exact Hcl].
  - intros (o & w1 & Ho & Hst & -> & Hloop & Hfin).
    exists (List.filter (inLayer w layer0) (children o)), w.
    split; [apply layerChildren_Ok; eauto|].
    apply bind_Ok. exists o, w. split; [by apply get_Some|].
    apply bind_Ok. exists tt, w1. split; [exact Hloop|].
    unfold finish in Hfin.
    apply bind_Ok in Hfin as ([] & w2 & Hrm & Hrest).
    apply bind_Ok in Hrest as (o1 & w3 & Hget & Hcl).
    apply bind_Ok. exists tt, w2. split; [exact Hrm|].
    apply bind_Ok. exists o1, w3. split; [exact Hget|].
    apply bind_Ok. exists tt, w'. split; [exact Hcl|done].
Qed.

Lemma elem_of_candidates w layer0 o c :
  c ∈ candidates w layer0 o <->
  (c ∈ children o /\ inLayer w layer0 c = true) \/ c ∈ link_list o.
Proof.
  unfold candidates, withLink, link_list. destruct (link o) as [lk|].
  - by rewrite elem_of_app, filter_In_elem.
  - rewrite filter_In_elem. split; [tauto|].
    intros [H|H]; [done|by apply elem_of_nil in H].
Qed.

Lemma candidates_edges w layer0 o c :
  c ∈ candidates w layer0 o -> c ∈ edges o.
Proof.
  rewrite elem_of_candidates. unfold edges. rewrite elem_of_app. tauto.
Qed.

Lemma candidates_link_list w layer0 o :
  candidates w layer0 o
  = List.filter (inLayer w layer0) (children o) ++ link_list o.
Proof.
  unfold candidates, withLink, link_list.
  destruct (link o); [done|by rewrite app_nil_r].
Qed.

Lemma cleanup_calls_no_remove obj o x objects :
  Remove x objects ∉ cleanup_calls obj o.
Proof.
  unfold cleanup_calls. destruct (release_calls_complete o) as (Hrel & _).
  rewrite Forall_forall in Hrel. destruct (genericDispose o).
  - intros H. by apply list_elem_of_singleton in H.
  - rewrite app_assoc. intros H. apply elem_of_app in H as [H|H].
    + by apply Hrel in H.
    + by apply list_elem_of_singleton in H.
Qed.

Lemma visited_finish_calls layer0 obj toRemove o x :
  visited x (finish_calls layer0 obj toRemove o) <-> x = obj.
Proof.
  unfold visited, finish_calls. split.
  - intros [objs H]. apply elem_of_cons in H as [[= -> _]|H]; [done|].
    destruct (ofLayer layer0 o); [|by apply elem_of_nil in H].
    by apply cleanup_calls_no_remove in H.
  - intros ->. exists toRemove. by left.
Qed.

Lemma visited_dec x t : visited x t \/ ~ visited x t.
Proof.
  induction t as [|e t IH].
  - right. intros [objs H]. by apply elem_of_nil in H.
  - destruct IH as [[objs H]|IH]; [left; exists objs; by right|].
    destruct e as [g|m|tx|ob|ob ty|ob objs];
      try (right; intros [objs' H];
           apply elem_of_cons in H as [[=]|H]; apply IH; by exists objs').
    destruct (decide (ob = x)) as [->|Hne].
    + left. exists objs. by left.
    + right. intros [objs' H]. apply elem_of_cons in H as [[= -> _]|H];
        [done|]. apply IH. by exists objs'.
Qed.

Lemma shrinks_finished layer0 toRemove o :
  shrinks layer0 o (finished layer0 toRemove o).
Proof.
  unfold finished, shrinks. destruct (ofLayer layer0 o) eqn:Hof; simpl.
  - split; [apply detach_sublist|]. split; [by right|done].
  - split; [apply detach_sublist|]. split; [by left|done].
Qed.

Lemma children_finished layer0 toRemove o :
  children (finished layer0 toRemove o) = detach toRemove (children o).
Proof. unfold finished. by destruct (ofLayer layer0 o). Qed.

(** ** Well-formed scenes *)

Lemma well_formed_spec rk w :
  well_formed rk w = true <->
  forall l o, heap w !! l = Some o ->
    forall c, c ∈ edges o -> is_Some (heap w !! c) /\ rk c < rk l.
Proof.
  unfold well_formed, wf_node. rewrite forallb_forall. split.
  - intros H l o Ho c Hc.
    specialize (H (l, o)). simpl in H.
    rewrite forallb_forall in H.
    assert (Hin : In (l, o) (map_to_list (heap w))).
    { apply list_elem_of_In. by apply elem_of_map_to_list. }
    specialize (H Hin c). apply list_elem_of_In in Hc. specialize (H Hc).
    apply andb_true_iff in H as [H1 H2].
    apply bool_decide_eq_true_1 in H1. apply Nat.ltb_lt in H2. done.
  - intros H [l o] Hin. simpl.
    apply list_elem_of_In, elem_of_map_to_list in Hin.
    apply forallb_forall. intros c Hc. apply list_elem_of_In in Hc.
    destruct (H l o Hin c Hc) as [H1 H2].
    apply andb_true_iff. split.
    + by apply bool_decide_eq_true_2.
    + by apply Nat.ltb_lt.
Qed.

Lemma well_formed_children_stored rk w l o :
  well_formed rk w = true -> heap w !! l = Some o ->
  children_stored w o = true.
Proof.
  intros Hwf Ho. apply children_stored_Forall, Forall_forall. intros c Hc.
  rewrite well_formed_spec in Hwf.
  apply (Hwf l o Ho c). unfold edges. apply elem_of_app. by left.
Qed.

Lemma shrinks_edges layer0 o o' c :
  shrinks layer0 o o' -> c ∈ edges o' -> c ∈ edges o.
Proof.
  intros Hs. pose proof (shrinks_link_list _ _ _ Hs) as Hlk.
  destruct Hs as (Hc & _). unfold edges. rewrite !elem_of_app, Hlk.
  intros [H|H]; [left|by right].
  eapply elem_of_sublist; [exact H|exact Hc].
Qed.

Lemma well_formed_evolves layer0 rk w w' t :
  well_formed rk w = true -> evolves layer0 w w' t ->
  well_formed rk w' = true.
Proof.
  rewrite !well_formed_spec. intros Hwf (_ & Hs & _) l o' Ho' c Hc.
  destruct (heap_shrinks_lookup_inv _ _ _ _ _ Hs Ho') as (o & Ho & Hso).
  apply (shrinks_edges _ _ _ _ Hso) in Hc.
  destruct (Hwf l o Ho c Hc) as [[co Hco] Hrk]. split; [|done].
  destruct (heap_shrinks_lookup _ _ _ _ _ Hs Hco) as (co' & Hco' & _).
  eauto.
Qed.

Lemma evolves_stored layer0 w w' t l :
  evolves layer0 w w' t -> is_Some (heap w !! l) -> is_Some (heap w' !! l).
Proof.
  intros (_ & Hs & _) [o Ho].
  destruct (heap_shrinks_lookup _ _ _ _ _ Hs Ho) as (o' & Ho' & _). eauto.
Qed.

(** ** The recursive operation: summary of a run *)

Section Summary.
Variable layer0 : Layer.

Lemma traversal_nil w : traversal layer0 w [].
Proof.
  intros y oy _ [objs H]. by apply elem_of_nil in H.
Qed.

Lemma traversal_trans w w1 t1 t2 :
  evolves layer0 w w1 t1 ->
  traversal layer0 w t1 -> traversal layer0 w1 t2 ->
  traversal layer0 w (t1 ++ t2).
Proof.
  intros (_ & Hs & Hv & _) H1 H2 y oy Hy Hvis.
  destruct (visited_dec y t1) as [Hy1|Hy1].
  - destruct (H1 y oy Hy Hy1) as [Hl Hc]. split.
    + intros c Hin. apply visited_app. left. by apply Hl.
    + intros c Hin Hof. apply visited_app. left. by apply Hc.
  - apply visited_app in Hvis as [Hvis|Hvis]; [done|].
    assert (Hy' : heap w1 !! y = Some oy) by (by rewrite Hv).
    destruct (H2 y oy Hy' Hvis) as [Hl Hc]. split.
    + intros c Hin. apply visited_app. right. by apply Hl.
    + intros c Hin Hof. apply visited_app.
      destruct (visited_dec c t1) as [Hc1|Hc1]; [by left|right].
      apply Hc; [done|]. unfold inLayer in *. by rewrite Hv.
Qed.

(** The last step of a call, after a loop that took [w] to [w1]. *)
Lemma finish_evolves w w1 nested obj o w' :
  evolves layer0 w w1 nested ->
  heap w !! obj = Some o ->
  finish layer0 obj (candidates w layer0 o) w1 = Ok tt w' ->
  exists o1,
    heap w1 !! obj = Some o1 /\
    heap w' = <[obj := finished layer0 (candidates w layer0 o) o1]>
                (heap w1) /\
    evolves layer0 w w'
      (nested ++ finish_calls layer0 obj (candidates w layer0 o) o1).
Proof.
  intros Hev Ho Hfin. pose proof Hev as (Ht & Hs & Hv & Hj & Hk).
  apply finish_Ok in Hfin as (o1 & Ho1 & ->). exists o1.
  split; [done|]. split; [done|].
  destruct (heap_shrinks_lookup _ _ _ _ _ Hs Ho) as (o1' & Ho1' & Hso).
  rewrite Ho1 in Ho1'. injection Ho1' as <-.
  unfold evolves. simpl. split; [by rewrite Ht, app_assoc|].
  split; [|split; [|split]].
  - intros l. destruct (decide (l = obj)) as [->|Hne].
    + rewrite lookup_insert_eq, Ho. constructor.
      eapply shrinks_trans; [exact Hso|apply shrinks_finished].
    + rewrite lookup_insert_ne by done. apply Hs.
  - intros l Hl. rewrite visited_app, visited_finish_calls in Hl.
    rewrite lookup_insert_ne by (intros ->; tauto).
    apply Hv. tauto.
  - apply Forall_app. split; [done|]. unfold finish_calls.
    constructor; [left; eauto|].
    destruct (ofLayer layer0 o1) eqn:Hof; [|constructor].
    apply Forall_forall. intros e He. right. exists obj, o.
    split; [done|].
    split; [by destruct (shrinks_ofLayer _ _ _ Hso Hof)|].
    by rewrite <- (shrinks_cleanup_calls _ _ _ obj Hso).
  - intros l ol ol' c Hl Hl' Hc Hin Hlk.
    destruct (decide (l = obj)) as [->|Hne].
    + rewrite lookup_insert_eq in Hl'. injection Hl' as <-.
      rewrite Ho in Hl. injection Hl as <-.
      rewrite children_finished. apply detach_keeps.
      * rewrite elem_of_candidates. intros [[_ H]|H]; [congruence|done].
      * by eapply Hk.
    + rewrite lookup_insert_ne in Hl' by done. by eapply Hk.
Qed.
End Summary.

Section Run.
Variable layer0 : Layer.

Lemma loop_summary fuel :
  summary layer0 fuel ->
  forall l w w1,
    for_of l (fun c =>
      removeChildrenAndCleanupRecursively fuel layer0 c ;; ret tt) w
    = Ok tt w1 ->
    exists nested,
      evolves layer0 w w1 nested /\
      (forall c, c ∈ l -> visited c nested) /\
      traversal layer0 w nested /\ bounded w nested l.
Proof.
  intros IH. induction l as [|c l IHl]; intros w w1 Hloop.
  - injection Hloop as <-. exists [].
    split; [apply evolves_refl|]. split.
    { intros c Hc. by apply elem_of_nil in Hc. }
    split; [apply traversal_nil|].
    intros rk _ x [objs H]. by apply elem_of_nil in H.
  - apply for_of_cons_Ok in Hloop as (wa & Hc & Hloop).
    apply bind_Ok in Hc as (r & wa' & Hc & Hret). injection Hret as ->.
    destruct (IH _ _ _ _ Hc) as (ta & Hev & Hvis & Htr & Hbd).
    destruct (IHl _ _ Hloop) as (tb & Hevb & Hvisb & Htrb & Hbdb).
    exists (ta ++ tb). split; [by eapply evolves_trans|].
    split; [|split].
    + intros c' Hc'. apply visited_app.
      apply elem_of_cons in Hc' as [->|Hc']; [by left|right; by apply Hvisb].
    + by eapply traversal_trans.
    + intros rk Hwf x Hx. apply visited_app in Hx as [Hx|Hx].
      * destruct (Hbd rk Hwf x Hx) as (c0 & Hc0 & Hle).
        apply list_elem_of_singleton in Hc0 as ->.
        exists c. split; [by left|done].
      * pose proof (well_formed_evolves _ _ _ _ _ Hwf Hev) as Hwfa.
        destruct (Hbdb rk Hwfa x Hx) as (c0 & Hc0 & Hle).
        exists c0. split; [by right|done].
Qed.

(** A returned call, taken apart: the loop over the candidates took [w]
    to [w1] with the calls [nested]; [finish] then rewrote [n]. *)
Lemma step_decompose fuel n w r w' :
  summary layer0 fuel ->
  removeChildrenAndCleanupRecursively (S fuel) layer0 n w = Ok r w' ->
  exists o w1 nested o1,
    heap w !! n = Some o /\ children_stored w o = true /\
    r = candidates w layer0 o /\
    evolves layer0 w w1 nested /\
    (forall c, c ∈ r -> visited c nested) /\
    traversal layer0 w nested /\ bounded w nested r /\
    heap w1 !! n = Some o1 /\
    heap w' = <[n := finished layer0 r o1]> (heap w1) /\
    evolves layer0 w w' (nested ++ finish_calls layer0 n r o1).
Proof.
  intros IH Hrun.
  apply removeChildrenAndCleanupRecursively_S in Hrun
    as (o & w1 & Ho & Hst & -> & Hloop & Hfin).
  destruct (loop_summary _ IH _ _ _ Hloop) as (nested & Hev & Hvis & Htr & Hbd).
  destruct (finish_evolves _ _ _ _ _ _ _ Hev Ho Hfin) as (o1 & Ho1 & Hw' & Hev').
  exists o, w1, nested, o1. done.
Qed.

Lemma summary_all fuel : summary layer0 fuel.
Proof.
  induction fuel as [|fuel IH]; intros n w r w' Hrun; [discriminate|].
  destruct (step_decompose _ _ _ _ _ IH Hrun)
    as (o & w1 & nested & o1 & Ho & _ & -> & Hev & Hvis & Htr & Hbd
        & Ho1 & Hw' & Hev').
  eexists. split; [exact Hev'|]. split; [|split].
  - apply visited_app. right. by apply visited_finish_calls.
  - intros y oy Hy Hvy.
    destruct (visited_dec y nested) as [Hyn|Hyn].
    + destruct (Htr y oy Hy Hyn) as [Hl Hc]. split.
      * intros c Hin. apply visited_app. left. by apply Hl.
      * intros c Hin Hof. apply visited_app. left. by apply Hc.
    + apply visited_app in Hvy as [Hvy|Hvy]; [done|].
      apply visited_finish_calls in Hvy as ->.
      rewrite Ho in Hy. injection Hy as <-. split.
      * intros c Hin. apply visited_app. left. apply Hvis.
        apply elem_of_candidates. by right.
      * intros c Hin Hof. apply visited_app. left. apply Hvis.
        apply elem_of_candidates. by left.
  - intros rk Hwf x Hx. exists n. split; [by left|].
    apply visited_app in Hx as [Hx|Hx].
    + destruct (Hbd rk Hwf x Hx) as (c & Hc & Hle).
      rewrite well_formed_spec in Hwf.
      destruct (Hwf n o Ho c (candidates_edges _ _ _ _ Hc)) as [_ Hlt].
      lia.
    + apply visited_finish_calls in Hx as ->. done.
Qed.

Lemma run_decompose fuel n w r w' :
  removeChildrenAndCleanupRecursively fuel layer0 n w = Ok r w' ->
  exists o w1 nested o1,
    heap w !! n = Some o /\ children_stored w o = true /\
    r = candidates w layer0 o /\
    evolves layer0 w w1 nested /\
    (forall c, c ∈ r -> visited c nested) /\
    traversal layer0 w nested /\ bounded w nested r /\
    heap w1 !! n = Some o1 /\
    heap w' = <[n := finished layer0 r o1]> (heap w1) /\
    evolves layer0 w w' (nested ++ finish_calls layer0 n r o1).
Proof.
  destruct fuel as [|fuel]; [discriminate|].
  apply step_decompose, summary_all.
Qed.

(** On a well-formed scene the loop does not come back to [n]. *)
Lemma run_root_untouched rk w w1 nested n o :
  well_formed rk w = true -> heap w !! n = Some o ->
  evolves layer0 w w1 nested ->
  bounded w nested (candidates w layer0 o) ->
  ~ visited n nested /\ heap w1 !! n = Some o.
Proof.
  intros Hwf Ho (_ & _ & Hv & _) Hbd.
  assert (Hn : ~ visited n nested).
  { intros Hvis. destruct (Hbd rk Hwf n Hvis) as (c & Hc & Hle).
    rewrite well_formed_spec in Hwf.
    destruct (Hwf n o Ho c (candidates_edges _ _ _ _ Hc)) as [_ Hlt].
    lia. }
  split; [done|]. by rewrite Hv.
Qed.

(** Enough fuel: on a well-formed scene the call returns. *)
Lemma loop_total rk fuel :
  (forall n w, well_formed rk w = true -> is_Some (heap w !! n) ->
     rk n < fuel ->
     exists r w',
       removeChildrenAndCleanupRecursively fuel layer0 n w = Ok r w') ->
  forall l w,
    well_formed rk w = true ->
    (forall c, c ∈ l -> is_Some (heap w !! c) /\ rk c < fuel) ->
    exists w1,
      for_of l (fun c =>
        removeChildrenAndCleanupRecursively fuel layer0 c ;; ret tt) w
      = Ok tt w1.
Proof.
  intros IH. induction l as [|c l IHl]; intros w Hwf Hl.
  - by exists w.
  - destruct (Hl c) as [Hc Hrk]; [by left|].
    destruct (IH c w Hwf Hc Hrk) as (r & wa & Hrun).
    destruct (summary_all _ _ _ _ _ Hrun) as (ta & Hev & _).
    destruct (IHl wa) as (w1 & Hloop).
    + by eapply well_formed_evolves.
    + intros c' Hc'. destruct (Hl c') as [Hs Hlt]; [by right|].
      split; [|done]. by eapply evolves_stored.
    + exists w1. apply for_of_cons_Ok. exists wa. split; [|done].
      by rewrite (bind_exec _ _ _ _ _ Hrun).
Qed.

Lemma run_total rk fuel :
  forall n w, well_formed rk w = true -> is_Some (heap w !! n) ->
    rk n < fuel ->
    exists r w',
      removeChildrenAndCleanupRecursively fuel layer0 n w = Ok r w'.
Proof.
  induction fuel as [|fuel IH]; intros n w Hwf [o Ho] Hrk; [lia|].
  destruct (loop_total rk fuel IH (candidates w layer0 o) w Hwf)
    as (w1 & Hloop).
  { intros c Hc. rewrite well_formed_spec in Hwf.
    destruct (Hwf n o Ho c (candidates_edges _ _ _ _ Hc)) as [Hs Hlt].
    split; [done|lia]. }
  destruct (loop_summary _ (summary_all fuel) _ _ _ Hloop)
    as (nested & Hev & _).
  destruct (evolves_stored _ _ _ _ n Hev) as [o1 Ho1]; [by eexists|].
  eexists _, _. apply removeChildrenAndCleanupRecursively_S.
  exists o, w1. split; [done|].
  split; [by eapply well_formed_children_stored|].
  split; [done|]. split; [exact Hloop|]. by apply finish_exec.
Qed.
End Run.

(** ** [removeChildrenAndCleanupRecursively] *)

(** C1: on a well-formed scene, with enough fuel,
    [removeChildrenAndCleanupRecursively(L, N)] returns the candidates of N:
    its children that pass the id test, in their order, followed by every
    entry of [N.link], whatever the layer of the entry.  The loop applies
    the operation to each candidate and leaves N as it was: every candidate
    has been visited and nothing has been detached from N when the loop
    ends.  Then a single [N.remove] detaches the candidates, and [cleanup(N)]
    runs exactly when N has a layer whose [id] is that of L. *)
Theorem removeChildrenAndCleanupRecursively_spec
  (rk : loc -> nat) (fuel : nat) (layer0 : Layer) (obj : loc)
  (o : Object3D) (w : World) :
  well_formed rk w = true ->
  heap w !! obj = Some o ->
  rk obj < fuel ->
  exists r w1 w' nested tail,
    removeChildrenAndCleanupRecursively fuel layer0 obj w = Ok r w' /\
    r = List.filter (inLayer w layer0) (children o) ++ link_list o /\
    for_of r (fun c =>
      removeChildrenAndCleanupRecursively (pred fuel) layer0 c ;; ret tt) w
    = Ok tt w1 /\
    trace w1 = trace w ++ nested /\
    (forall c, c ∈ r -> visited c nested) /\
    ~ visited obj nested /\
    heap w1 !! obj = Some o /\
    trace w' = trace w1 ++ Remove obj r :: tail /\
    tail = (if ofLayer layer0 o then cleanup_calls obj o else []) /\
    (ofLayer layer0 o = true <->
     exists l, layer o = Some l /\ layer_id l = layer_id layer0) /\
    (cleaned obj tail <->
     exists l, layer o = Some l /\ layer_id l = layer_id layer0) /\
    heap w' = <[obj := finished layer0 r o]> (heap w1) /\
    children (finished layer0 r o) = detach r (children o) /\
    layer (finished layer0 r o)
    = (if ofLayer layer0 o then None else layer o).
Proof.
  intros Hwf Ho Hrk.
  destruct (run_total layer0 rk fuel obj w Hwf) as (r & w' & Hrun);
    [by eexists|done|].
  destruct fuel as [|fuel]; [lia|]. simpl pred.
  pose proof Hrun as Hrun'.
  apply removeChildrenAndCleanupRecursively_S in Hrun'
    as (o' & w1 & Ho' & Hst & -> & Hloop & Hfin).
  rewrite Ho in Ho'. injection Ho' as <-.
  destruct (loop_summary _ _ (summary_all layer0 fuel) _ _ _ Hloop)
    as (nested & Hev & Hvis & Htr & Hbd).
  destruct (run_root_untouched _ _ _ _ _ _ _ Hwf Ho Hev Hbd) as [Hnv Ho1].
  pose proof (finish_exec layer0 obj (candidates w layer0 o) _ _ Ho1) as Hex.
  rewrite Hex in Hfin. injection Hfin as <-.
  assert (Hid : ofLayer layer0 o = true <->
                exists l, layer o = Some l /\ layer_id l = layer_id layer0).
  { unfold ofLayer. destruct (layer o) as [l|].
    - rewrite bool_decide_eq_true. split; [eauto|].
      by intros (l' & [= <-] & Hid).
    - split; [done|]. by intros (l' & [=] & _). }
  eexists (candidates w layer0 o), w1, _, nested, _.
  split; [exact Hrun|]. split; [apply candidates_link_list|].
  split; [exact Hloop|]. split; [by destruct Hev|].
  split; [exact Hvis|]. split; [exact Hnv|]. split; [exact Ho1|].
  split; [reflexivity|]. split; [reflexivity|]. split; [exact Hid|].
  split; [|split; [done|split; [apply children_finished|]]].
  - rewrite <- Hid. destruct (ofLayer layer0 o).
    + split; [done|]. intros _. by apply cleaned_cleanup_calls.
    + split; [|done]. intros [H|H]; by apply elem_of_nil in H.
  - unfold finished. by destruct (ofLayer layer0 o).
Qed.

Lemma removeChildrenAndCleanupRecursively_spec_witness :
  exists r w1 w' nested tail,
    removeChildrenAndCleanupRecursively 10 layerA 2 scene_link = Ok r w' /\
    r = List.filter (inLayer scene_link layerA) []
        ++ link_list (group (Some layerA) (Some [3%positive]) []) /\
    for_of r (fun c =>
      removeChildrenAndCleanupRecursively (pred 10) layerA c ;; ret tt)
      scene_link
    = Ok tt w1 /\
    trace w1 = trace scene_link ++ nested /\
    (forall c, c ∈ r -> visited c nested) /\
    ~ visited 2%positive nested /\
    heap w1 !! 2%positive = Some (group (Some layerA) (Some [3%positive]) []) /\
    trace w' = trace w1 ++ Remove 2 r :: tail /\
    tail = (if ofLayer layerA (group (Some layerA) (Some [3%positive]) [])
            then cleanup_calls 2 (group (Some layerA) (Some [3%positive]) [])
            else []) /\
    (ofLayer layerA (group (Some layerA) (Some [3%positive]) []) = true <->
     exists l, Some layerA = Some l /\ layer_id l = layer_id layerA) /\
    (cleaned 2 tail <->
     exists l, Some layerA = Some l /\ layer_id l = layer_id layerA) /\
    heap w'
    = <[2%positive :=
          finished layerA r (group (Some layerA) (Some [3%positive]) [])]>
        (heap w1) /\
    children (finished layerA r (group (Some layerA) (Some [3%positive]) []))
    = detach r [] /\
    layer (finished layerA r (group (Some layerA) (Some [3%positive]) []))
    = (if ofLayer layerA (group (Some layerA) (Some [3%positive]) [])
       then None else Some layerA).
Proof.
  apply (removeChildrenAndCleanupRecursively_spec rank_by_loc 10 layerA 2
           (group (Some layerA) (Some [3%positive]) []) scene_link).
  - vm_compute. reflexivity.
  - reflexivity.
  - vm_compute. lia.
Defined.

(** The scenario of the specification: N has the child A (layer L1) and
    [A.link = [B]] with B of layer L2.  The run on N visits B, then A,
    cleans up A and not B, detaches A from N and returns [A]. *)
Example removeChildrenAndCleanupRecursively_scenario :
  exists w',
    removeChildrenAndCleanupRecursively 3 layerA 1 scene_link
    = Ok [2%positive] w' /\
    trace w' = [Remove 3 []; Remove 2 [3%positive];
                DispatchEvent 2 "dispose"; Remove 1 [2%positive]] /\
    children <$> heap w' !! 1%positive = Some [] /\
    layer <$> heap w' !! 2%positive = Some None /\
    layer <$> heap w' !! 3%positive = Some (Some layerB).
Proof. eexists. split; [vm_compute; reflexivity|]. by repeat split. Qed.

(** The test on N itself compares ids: a run for [layerA] cleans up a node
    that carries [layerA'], another layer object with the same [id]. *)
Example removeChildrenAndCleanupRecursively_same_id :
  exists w',
    removeChildrenAndCleanupRecursively 2 layerA 1 (scene_abc (Some layerA'))
    = Ok [2%positive] w' /\
    layer <$> heap w' !! 1%positive = Some None /\
    trace w' = [Remove 2 []; DispatchEvent 2 "dispose";
                Remove 1 [2%positive]; DispatchEvent 1 "dispose"].
Proof. eexists. split; [vm_compute; reflexivity|]. by split. Qed.

(** C10: [removeChildrenAndCleanupRecursively(L, N)] does not write
    [N.link] (nor the [link] of any node): after the call the linked nodes
    are no children of N, and they are still the entries of [N.link]; a
    second call on N selects them again, after the children of N that still
    pass the id test, and visits each of them again. *)
Theorem removeChildrenAndCleanupRecursively_keeps_link
  (rk : loc -> nat) (fuel : nat) (layer0 : Layer) (obj : loc)
  (o : Object3D) (lk : list loc) (w : World) :
  well_formed rk w = true ->
  heap w !! obj = Some o ->
  link o = Some lk ->
  NoDup (children o) ->
  rk obj < fuel ->
  exists r w' o',
    removeChildrenAndCleanupRecursively fuel layer0 obj w = Ok r w' /\
    heap w' !! obj = Some o' /\ link o' = Some lk /\
    (forall c, c ∈ lk -> c ∉ children o') /\
    (forall x ox, heap w !! x = Some ox ->
       exists ox', heap w' !! x = Some ox' /\ link ox' = link ox) /\
    exists r2 w2 calls2,
      removeChildrenAndCleanupRecursively fuel layer0 obj w' = Ok r2 w2 /\
      trace w2 = trace w' ++ calls2 /\
      r2 = List.filter (inLayer w' layer0) (children o') ++ lk /\
      (forall c, c ∈ lk -> c ∈ r2 /\ visited c calls2).
Proof.
  intros Hwf Ho Hlk Hnd Hrk.
  destruct (run_total layer0 rk fuel obj w Hwf) as (r & w' & Hrun);
    [by eexists|done|].
  destruct (run_decompose _ _ _ _ _ _ Hrun)
    as (o0 & w1 & nested & o1 & Ho0 & _ & Hr & Hev1 & _ & _ & _ & Ho1
        & Hw' & Hev).
  rewrite Ho in Ho0. injection Ho0 as <-.
  pose proof Hev as (_ & Hs & _).
  destruct (heap_shrinks_lookup _ _ _ _ _ Hs Ho) as (o' & Ho' & Hso).
  assert (Hlk' : link o' = Some lk) by (destruct Hso as (_ & _ & -> & _); done).
  exists r, w', o'. split; [exact Hrun|]. split; [exact Ho'|].
  split; [exact Hlk'|]. split; [|split].
  - intros c Hc. rewrite Hw', lookup_insert_eq in Ho'. injection Ho' as <-.
    rewrite children_finished. apply detach_removes.
    + destruct Hev1 as (_ & Hs1 & _).
      destruct (heap_shrinks_lookup _ _ _ _ _ Hs1 Ho) as (o1' & Ho1' & Hso1).
      rewrite Ho1 in Ho1'. injection Ho1' as <-.
      destruct Hso1 as (Hsub & _). by eapply sublist_NoDup.
    + rewrite Hr. apply elem_of_candidates. right.
      unfold link_list. by rewrite Hlk.
  - intros x ox Hx.
    destruct (heap_shrinks_lookup _ _ _ _ _ Hs Hx) as (ox' & Hx' & Hsx).
    exists ox'. split; [done|]. by destruct Hsx as (_ & _ & -> & _).
  - pose proof (well_formed_evolves _ _ _ _ _ Hwf Hev) as Hwf'.
    destruct (run_total layer0 rk fuel obj w' Hwf') as (r2 & w2 & Hrun2);
      [by eexists|done|].
    destruct (run_decompose _ _ _ _ _ _ Hrun2)
      as (o2 & w3 & nested2 & o3 & Ho2 & _ & Hr2 & _ & Hvis2 & _ & _ & _
          & _ & Hev2).
    rewrite Ho' in Ho2. injection Ho2 as <-.
    eexists r2, w2, _. split; [exact Hrun2|].
    split; [by destruct Hev2|].
    assert (Hll : link_list o' = lk) by (unfold link_list; by rewrite Hlk').
    rewrite candidates_link_list, Hll in Hr2. subst r2.
    split; [reflexivity|].
    intros c Hc. split; [apply elem_of_app; by right|].
    apply visited_app. left. apply Hvis2. apply elem_of_app. by right.
Qed.

Lemma removeChildrenAndCleanupRecursively_keeps_link_witness :
  exists r w' o',
    removeChildrenAndCleanupRecursively 10 layerA 1 scene_linked_child
    = Ok r w' /\
    heap w' !! 1%positive = Some o' /\ link o' = Some [2%positive] /\
    (forall c, c ∈ [2%positive] -> c ∉ children o') /\
    (forall x ox, heap scene_linked_child !! x = Some ox ->
       exists ox', heap w' !! x = Some ox' /\ link ox' = link ox) /\
    exists r2 w2 calls2,
      removeChildrenAndCleanupRecursively 10 layerA 1 w' = Ok r2 w2 /\
      trace w2 = trace w' ++ calls2 /\
      r2 = List.filter (inLayer w' layerA) (children o') ++ [2%positive] /\
      (forall c, c ∈ [2%positive] -> c ∈ r2 /\ visited c calls2).
Proof.
  apply (removeChildrenAndCleanupRecursively_keeps_link rank_by_loc 10 layerA
           1 (group (Some layerA) (Some [2%positive]) [2%positive])
           [2%positive] scene_linked_child).
  - vm_compute. reflexivity.
  - reflexivity.
  - reflexivity.
  - apply NoDup_singleton.
  - vm_compute. lia.
Defined.

(** Two calls in a row on a node with a link: both return the linked node,
    and both visit it. *)
Example removeChildrenAndCleanupRecursively_twice :
  exists w' w'',
    removeChildrenAndCleanupRecursively 3 layerA 1 scene_linked_child
    = Ok [2%positive] w' /\
    removeChildrenAndCleanupRecursively 3 layerA 1 w' = Ok [2%positive] w'' /\
    trace w'' = [Remove 2 []; Remove 1 [2%positive];
                 DispatchEvent 1 "dispose";
                 Remove 2 []; Remove 1 [2%positive]].
Proof.
  eexists _, _. split; [vm_compute; reflexivity|].
  split; [vm_compute; reflexivity|]. reflexivity.
Qed.

(** ** Nodes of other layers *)

Lemma cleaned_app x t1 t2 :
  cleaned x (t1 ++ t2) <-> cleaned x t1 \/ cleaned x t2.
Proof. unfold cleaned. rewrite !elem_of_app. tauto. Qed.

Lemma cleaned_remove x obj objects : ~ cleaned x [Remove obj objects].
Proof. intros [H|H]; apply list_elem_of_singleton in H; discriminate. Qed.

Lemma identity_ofLayer layer0 o :
  layer o = Some layer0 -> ofLayer layer0 o = true.
Proof. unfold ofLayer. intros ->. by apply bool_decide_eq_true_2. Qed.

(** The two operations without recursion rewrite N only. *)
Lemma nonrecursive_shape layer0 obj w r w' :
  removeChildren layer0 obj w = Ok r w' \/
  removeChildrenAndCleanup layer0 obj w = Ok r w' ->
  exists o o' calls,
    heap w !! obj = Some o /\ heap w' = <[obj := o']> (heap w) /\
    trace w' = trace w ++ calls /\
    children o'
    = List.filter (fun c => negb (inLayer w layer0 c)) (children o) /\
    (layer o' = layer o \/ ofLayer layer0 o = true) /\
    (forall x, cleaned x calls -> x = obj /\ ofLayer layer0 o = true).
Proof.
  intros Hrun.
  assert (Hst : exists o, heap w !! obj = Some o /\ children_stored w o = true).
  { destruct Hrun as [Hrun|Hrun];
      apply bind_Ok in Hrun as (cs & w0 & Hlc & _);
      apply layerChildren_Ok in Hlc as (o & Ho & Hst & _); eauto. }
  destruct Hst as (o & Ho & Hst).
  pose proof (removeChildren_exec layer0 _ _ _ Ho Hst) as Hrc. simpl in Hrc.
  destruct Hrun as [Hrun|Hrun].
  - rewrite Hrc in Hrun. injection Hrun as <- <-.
    eexists o, _, _. split; [done|]. split; [done|]. split; [done|].
    split; [done|]. split; [by left|].
    intros x Hx. by apply cleaned_remove in Hx.
  - rewrite (removeChildrenAndCleanup_unfold _ _ _ _ _ _ Ho Hrc) in Hrun.
    case_bool_decide as Hid.
    + erewrite cleanup_exec in Hrun; [|apply lookup_insert_eq].
      injection Hrun as <- <-. simpl.
      eexists o, _, _. split; [done|].
      split; [by rewrite insert_insert_eq|].
      split; [by rewrite <- app_assoc|]. split; [done|].
      pose proof (identity_ofLayer _ _ Hid) as Hof. split; [by right|].
      intros x Hx. apply cleaned_app in Hx as [Hx|Hx].
      * by apply cleaned_remove in Hx.
      * by apply cleaned_cleanup_calls in Hx.
    + injection Hrun as <- <-.
      eexists o, _, _. split; [done|]. split; [done|]. split; [done|].
      split; [done|]. split; [by left|].
      intros x Hx. by apply cleaned_remove in Hx.
Qed.

(** In a store where a link entry is also a child, the recursive operation
    hands it to [N.remove] with the other link entries, whatever its layer:
    in [scene_linked_child] the node 2 has the layer L2 and is both a child
    and a link entry of node 1, and the run for L1 on node 1 detaches it. *)
Example removeChildrenAndCleanupRecursively_detaches_linked_child :
  inLayer scene_linked_child layerA 2 = false /\
  children <$> heap scene_linked_child !! 1%positive = Some [2%positive] /\
  exists w',
    removeChildrenAndCleanupRecursively 3 layerA 1 scene_linked_child
    = Ok [2%positive] w' /\
    children <$> heap w' !! 1%positive = Some [].
Proof.
  split; [reflexivity|]. split; [reflexivity|].
  eexists. split; [vm_compute; reflexivity|reflexivity].
Qed.

(** A child of another layer is not a candidate, so the recursion does not
    go into it: below, node 3 of layer L1 sits under the child 2 of layer L2
    and the run for L1 on node 1 reaches neither. *)
Example removeChildrenAndCleanupRecursively_skips_other_subtree :
  exists w',
    removeChildrenAndCleanupRecursively 3 layerA 1 scene_other_subtree
    = Ok [] w' /\
    trace w' = [Remove 1 []] /\
    children <$> heap w' !! 1%positive = Some [2%positive] /\
    children <$> heap w' !! 2%positive = Some [3%positive] /\
    layer <$> heap w' !! 3%positive = Some (Some layerA).
Proof. eexists. split; [vm_compute; reflexivity|]. by repeat split. Qed.

(** Every release made by one of the two operations without recursion is
    made by the cleanup of N, and N then has the layer. *)
Lemma nonrecursive_releases layer0 obj w r w' calls :
  removeChildren layer0 obj w = Ok r w' \/
  removeChildrenAndCleanup layer0 obj w = Ok r w' ->
  trace w' = trace w ++ calls ->
  forall e, e ∈ calls -> is_release e = true ->
    exists y oy, heap w !! y = Some oy /\ ofLayer layer0 oy = true /\
                 e ∈ cleanup_calls y oy.
Proof.
  intros Hrun Ht e He Hrel.
  assert (Hst : exists o, heap w !! obj = Some o /\ children_stored w o = true).
  { destruct Hrun as [Hrun|Hrun];
      apply bind_Ok in Hrun as (cs & w0 & Hlc & _);
      apply layerChildren_Ok in Hlc as (o & Ho & Hst & _); eauto. }
  destruct Hst as (o & Ho & Hst).
  pose proof (removeChildren_exec layer0 _ _ _ Ho Hst) as Hrc. simpl in Hrc.
  destruct Hrun as [Hrun|Hrun].
  - rewrite Hrc in Hrun. injection Hrun as <- <-. simpl in Ht.
    apply app_inv_head in Ht. subst calls.
    apply list_elem_of_singleton in He. subst e. discriminate.
  - rewrite (removeChildrenAndCleanup_unfold _ _ _ _ _ _ Ho Hrc) in Hrun.
    case_bool_decide as Hid.
    + erewrite cleanup_exec in Hrun; [|apply lookup_insert_eq].
      injection Hrun as <- <-. simpl in Ht.
      rewrite <- app_assoc in Ht. apply app_inv_head in Ht. subst calls.
      apply elem_of_cons in He as [->|He]; [discriminate|].
      exists obj, o. split; [done|].
      split; [by apply identity_ofLayer|exact He].
    + injection Hrun as <- <-. simpl in Ht.
      apply app_inv_head in Ht. subst calls.
      apply list_elem_of_singleton in He. subst e. discriminate.
Qed.

(** * Further properties of the helper *)

(** ** Repeating an operation *)

(** [cleanup] keeps the geometry and the materials of the node (the source
    leaves [obj.geometry = null] commented out), so a second [cleanup] of
    the same node makes every call of the first once more: each resource is
    released again. *)
Theorem cleanup_twice (obj : loc) (o : Object3D) (w : World) :
  heap w !! obj = Some o ->
  exists w1 w2 calls,
    cleanup obj w = Ok tt w1 /\ cleanup obj w1 = Ok tt w2 /\
    trace w1 = trace w ++ calls /\ trace w2 = trace w1 ++ calls /\
    calls <> [] /\ heap w2 = heap w1 /\
    (forall e, occurrences e (calls ++ calls) = 2 * occurrences e calls).
Proof.
  intros Ho. eexists _, _, (cleanup_calls obj o).
  split; [by apply cleanup_exec|].
  split; [apply cleanup_exec; apply lookup_insert_eq|].
  simpl. split; [done|]. split; [done|]. split; [|split].
  - unfold cleanup_calls. destruct (genericDispose o); [done|].
    intros H. apply (f_equal length) in H.
    rewrite !length_app in H. simpl in H. lia.
  - by rewrite insert_insert_eq.
  - intros e. rewrite occurrences_app. lia.
Qed.

Lemma cleanup_twice_witness :
  exists w1 w2 calls,
    cleanup 1 (scene_mesh false false) = Ok tt w1 /\
    cleanup 1 w1 = Ok tt w2 /\
    trace w1 = trace (scene_mesh false false) ++ calls /\
    trace w2 = trace w1 ++ calls /\
    calls <> [] /\ heap w2 = heap w1 /\
    (forall e, occurrences e (calls ++ calls) = 2 * occurrences e calls).
Proof. apply (cleanup_twice 1 (mesh false false)). reflexivity. Defined.

Lemma filter_nil_mono (p q : loc -> bool) cs :
  (forall c, q c = true -> p c = true) ->
  List.filter q (List.filter (fun c => negb (p c)) cs) = [].
Proof.
  intros Hqp. induction cs as [|c cs IH]; simpl; [done|].
  destruct (p c) eqn:Hp; simpl; [done|].
  destruct (q c) eqn:Hq; [|done]. apply Hqp in Hq. congruence.
Qed.

Lemma filter_neg_all (p : loc -> bool) cs :
  List.filter p cs = [] -> List.filter (fun c => negb (p c)) cs = cs.
Proof.
  induction cs as [|c cs IH]; simpl; [done|].
  destruct (p c); simpl; [discriminate|]. intros H. by rewrite IH.
Qed.

Lemma set_children_same o : set_children (children o) o = o.
Proof. by destruct o. Qed.

(** With no child to select, [removeChildren] calls [obj.remove()] without
    argument and leaves the store as it is. *)
Lemma removeChildren_no_match layer0 obj o w :
  heap w !! obj = Some o -> children_stored w o = true ->
  List.filter (inLayer w layer0) (children o) = [] ->
  removeChildren layer0 obj w
  = Ok [] {| heap := heap w; trace := trace w ++ [Remove obj []] |}.
Proof.
  intros Ho Hst Hnone.
  pose proof (removeChildren_exec layer0 _ _ _ Ho Hst) as Hrc. simpl in Hrc.
  rewrite Hrc, Hnone, (filter_neg_all _ _ Hnone), set_children_same.
  by rewrite insert_id.
Qed.

Lemma children_stored_insert w obj o1 o' t :
  children_stored w o' = true -> is_Some (heap w !! obj) ->
  children_stored {| heap := <[obj := o1]> (heap w); trace := t |} o' = true.
Proof.
  rewrite !children_stored_Forall, !Forall_forall. intros H Hobj c Hc. simpl.
  destruct (decide (c = obj)) as [->|Hne].
  - rewrite lookup_insert_eq. by eexists.
  - rewrite lookup_insert_ne by done. by apply H.
Qed.

Lemma children_stored_sub w o o' :
  children o' ⊆ children o -> children_stored w o = true ->
  children_stored w o' = true.
Proof.
  rewrite !children_stored_Forall, !Forall_forall. intros Hsub H c Hc.
  apply H, Hsub, Hc.
Qed.

Lemma filter_neg_subseteq (p : loc -> bool) cs :
  List.filter (fun c => negb (p c)) cs ⊆ cs.
Proof. intros c Hc. by apply filter_In_elem in Hc as [Hc _]. Qed.

(** [removeChildren] is idempotent: called again right after it returned, it
    finds nothing to select, returns the empty list and leaves every node as
    it is. *)
Theorem removeChildren_twice
  (layer0 : Layer) (obj : loc) (o : Object3D) (w : World) :
  heap w !! obj = Some o ->
  children_stored w o = true ->
  exists r w1 w2,
    removeChildren layer0 obj w = Ok r w1 /\
    removeChildren layer0 obj w1 = Ok [] w2 /\
    heap w2 = heap w1 /\ trace w2 = trace w1 ++ [Remove obj []].
Proof.
  intros Ho Hst.
  pose proof (removeChildren_exec layer0 _ _ _ Ho Hst) as Hrc. simpl in Hrc.
  eexists _, _, _. split; [exact Hrc|]. split.
  - eapply removeChildren_no_match.
    + apply lookup_insert_eq.
    + apply children_stored_insert; [|by eexists].
      eapply children_stored_sub; [|exact Hst]. apply filter_neg_subseteq.
    + apply filter_nil_mono. intros c. unfold inLayer. simpl.
      destruct (decide (c = obj)) as [->|Hne].
      * by rewrite lookup_insert_eq, Ho.
      * by rewrite lookup_insert_ne.
  - split; reflexivity.
Qed.

Lemma removeChildren_twice_witness :
  exists r w1 w2,
    removeChildren layerA 1 (scene_abc None) = Ok r w1 /\
    removeChildren layerA 1 w1 = Ok [] w2 /\
    heap w2 = heap w1 /\ trace w2 = trace w1 ++ [Remove 1 []].
Proof.
  apply (removeChildren_twice layerA 1 (group None None [2; 3; 4]%positive));
    reflexivity.
Defined.

(** [removeChildrenAndCleanup] clears the layer reference of the node it
    cleans up, so the identity test fails the next time: called again right
    after it returned, it returns the empty list, makes no call but
    [obj.remove()] and releases nothing a second time. *)
Theorem removeChildrenAndCleanup_twice
  (layer0 : Layer) (obj : loc) (o : Object3D) (w : World) :
  heap w !! obj = Some o ->
  children_stored w o = true ->
  exists r w1 w2,
    removeChildrenAndCleanup layer0 obj w = Ok r w1 /\
    removeChildrenAndCleanup layer0 obj w1 = Ok [] w2 /\
    heap w2 = heap w1 /\ trace w2 = trace w1 ++ [Remove obj []].
Proof.
  intros Ho Hst.
  pose proof (removeChildren_exec layer0 _ _ _ Ho Hst) as Hrc. simpl in Hrc.
  pose proof (removeChildrenAndCleanup_unfold _ _ _ _ _ _ Ho Hrc) as Hun.
  set (o1 := set_children
               (List.filter (fun c => negb (inLayer w layer0 c)) (children o))
               o) in *.
  assert (Hsecond : forall o2 t,
            children o2 = children o1 -> layer o2 <> Some layer0 ->
            (layer o2 = layer o \/ layer o2 = None) ->
            let w1 := {| heap := <[obj := o2]> (heap w); trace := t |} in
            removeChildrenAndCleanup layer0 obj w1
            = Ok [] {| heap := heap w1; trace := trace w1 ++ [Remove obj []] |}).
  { intros o2 t Hc Hl Hlo w1.
    assert (Ho2 : heap w1 !! obj = Some o2) by apply lookup_insert_eq.
    assert (Hrc2 : removeChildren layer0 obj w1
                   = Ok [] {| heap := heap w1;
                              trace := trace w1 ++ [Remove obj []] |}).
    { eapply removeChildren_no_match; [exact Ho2| |].
      - apply children_stored_insert; [|by eexists].
        eapply children_stored_sub; [|exact Hst].
        rewrite Hc. apply filter_neg_subseteq.
      - rewrite Hc. apply filter_nil_mono. intros c. unfold inLayer. simpl.
        destruct (decide (c = obj)) as [->|Hne].
        + rewrite lookup_insert_eq, Ho. unfold ofLayer.
          destruct Hlo as [->| ->]; done.
        + by rewrite lookup_insert_ne. }
    rewrite (removeChildrenAndCleanup_unfold _ _ _ _ _ _ Ho2 Hrc2).
    by rewrite bool_decide_eq_false_2. }
  case_bool_decide as Hid.
  - erewrite cleanup_exec in Hun; [|apply lookup_insert_eq]. simpl in Hun.
    rewrite insert_insert_eq in Hun.
    eexists _, _, _. split; [exact Hun|]. split.
    + apply Hsecond; [done|done|by right].
    + split; reflexivity.
  - eexists _, _, _. split; [exact Hun|]. split.
    + apply Hsecond; [done|done|by left].
    + split; reflexivity.
Qed.

Lemma removeChildrenAndCleanup_twice_witness :
  exists r w1 w2,
    removeChildrenAndCleanup layerA 1 (scene_abc (Some layerA)) = Ok r w1 /\
    removeChildrenAndCleanup layerA 1 w1 = Ok [] w2 /\
    heap w2 = heap w1 /\ trace w2 = trace w1 ++ [Remove 1 []].
Proof.
  apply (removeChildrenAndCleanup_twice layerA 1
           (group (Some layerA) None [2; 3; 4]%positive)); reflexivity.
Defined.

(** ** Errors *)

Lemma array_filter_fuel layer0 cs w :
  array_filter (fun c => co <- get c ;; ret (ofLayer layer0 co)) cs w
  <> OutOfFuel.
Proof.
  induction cs as [|c cs IH]; simpl; [done|].
  unfold bind at 1. unfold bind at 1. unfold get at 1.
  destruct (heap w !! c); [|done]. unfold ret at 1. unfold bind.
  destruct (array_filter _ cs w) eqn:Hrec; done.
Qed.

Lemma layerChildren_TypeError layer0 obj w :
  layerChildren layer0 obj w = TypeError <->
  heap w !! obj = None \/
  exists o, heap w !! obj = Some o /\ children_stored w o = false.
Proof.
  destruct (layerChildren layer0 obj w) as [r w'| |] eqn:Hlc.
  - apply layerChildren_Ok in Hlc as (o & Ho & Hst & _). split; [done|].
    intros [H|(o' & Ho' & Hst')]; congruence.
  - split; [intros _|done].
    destruct (heap w !! obj) as [o|] eqn:Ho; [right|by left].
    exists o. split; [done|].
    destruct (children_stored w o) eqn:Hst; [|done].
    assert (layerChildren layer0 obj w
            = Ok (List.filter (inLayer w layer0) (children o)) w) as Hok
      by (apply layerChildren_Ok; eauto).
    congruence.
  - exfalso. unfold layerChildren, bind, get in Hlc.
    destruct (heap w !! obj); [|done]. by apply array_filter_fuel in Hlc.
Qed.

(** On a store of complete nodes (every stored node has its children array
    and its methods, its materials are materials, and the layer is a layer
    object), where a reference that is not stored stands for null or
    undefined, the three operations without recursion throw exactly when
    they read a property of null or undefined: [cleanup] when [obj] is null
    or undefined, the two removals when [obj] or any entry of
    [obj.children], of the layer or not, is.  What the code does on
    incomplete objects is outside the model. *)
Theorem nonrecursive_TypeError (layer0 : Layer) (obj : loc) (w : World) :
  (cleanup obj w = TypeError <-> heap w !! obj = None) /\
  (removeChildren layer0 obj w = TypeError <->
   heap w !! obj = None \/
   exists o, heap w !! obj = Some o /\ children_stored w o = false) /\
  (removeChildrenAndCleanup layer0 obj w = TypeError <->
   heap w !! obj = None \/
   exists o, heap w !! obj = Some o /\ children_stored w o = false) /\
  cleanup obj w <> OutOfFuel /\
  removeChildren layer0 obj w <> OutOfFuel /\
  removeChildrenAndCleanup layer0 obj w <> OutOfFuel.
Proof.
  assert (Hcl : forall w0, cleanup obj w0 <> OutOfFuel /\
            (cleanup obj w0 = TypeError <-> heap w0 !! obj = None)).
  { intros w0. destruct (heap w0 !! obj) as [o|] eqn:Ho.
    - rewrite (cleanup_exec _ _ _ Ho). by split.
    - unfold cleanup, bind, get. rewrite Ho. by split. }
  split; [apply Hcl|].
  rewrite <- !(layerChildren_TypeError layer0).
  destruct (layerChildren layer0 obj w) as [r w'| |] eqn:Hlc.
  - pose proof Hlc as Hlc'.
    apply layerChildren_Ok in Hlc' as (o & Ho & Hst & -> & ->).
    pose proof (removeChildren_exec layer0 _ _ _ Ho Hst) as Hrc.
    simpl in Hrc. rewrite Hrc.
    rewrite (removeChildrenAndCleanup_unfold _ _ _ _ _ _ Ho Hrc).
    erewrite cleanup_exec; [|apply lookup_insert_eq].
    split; [done|]. split; [by case_bool_decide|].
    split; [apply Hcl|]. split; [done|by case_bool_decide].
  - unfold removeChildren, removeChildrenAndCleanup, bind. rewrite Hlc.
    split; [done|]. split; [done|]. split; [apply Hcl|done].
  - exfalso. unfold layerChildren, bind, get in Hlc.
    destruct (heap w !! obj); [|done]. by apply array_filter_fuel in Hlc.
Qed.

(** ** An induction principle for the runs of the recursive operation *)

Lemma evolves_shrunk layer0 w w' t : evolves layer0 w w' t -> shrunk layer0 w w'.
Proof. by intros (_ & Hs & _). Qed.

Lemma evolves_calls_eq layer0 w w' t t' :
  evolves layer0 w w' t -> trace w' = trace w ++ t' -> t' = t.
Proof.
  intros (Ht & _) Ht'. rewrite Ht in Ht'. by apply app_inv_head in Ht'.
Qed.

Section RunInduction.
Variable layer0 : Layer.
Variable P : list loc -> World -> World -> list Event -> Prop.

Hypothesis P_nil : forall w, P [] w w [].

Hypothesis P_cons : forall c l w wa w1 ta tb,
  evolves layer0 w wa ta -> evolves layer0 wa w1 tb -> visited c ta ->
  P [c] w wa ta -> P l wa w1 tb -> P (c :: l) w w1 (ta ++ tb).

Hypothesis P_finish : forall n o o1 w w1 w' nested,
  evolves layer0 w w1 nested ->
  P (candidates w layer0 o) w w1 nested ->
  heap w !! n = Some o ->
  (forall c, c ∈ candidates w layer0 o -> visited c nested) ->
  heap w1 !! n = Some o1 ->
  heap w' = <[n := finished layer0 (candidates w layer0 o) o1]> (heap w1) ->
  evolves layer0 w w'
    (nested ++ finish_calls layer0 n (candidates w layer0 o) o1) ->
  P [n] w w' (nested ++ finish_calls layer0 n (candidates w layer0 o) o1).

Lemma loop_induction fuel :
  (forall n w r w',
     removeChildrenAndCleanupRecursively fuel layer0 n w = Ok r w' ->
     exists calls,
       evolves layer0 w w' calls /\ visited n calls /\ P [n] w w' calls) ->
  forall l w w1,
    for_of l (fun c =>
      removeChildrenAndCleanupRecursively fuel layer0 c ;; ret tt) w
    = Ok tt w1 ->
    exists nested,
      evolves layer0 w w1 nested /\
      (forall c, c ∈ l -> visited c nested) /\ P l w w1 nested.
Proof.
  intros IH. induction l as [|c l IHl]; intros w w1 Hloop.
  - injection Hloop as <-. exists [].
    split; [apply evolves_refl|]. split; [|apply P_nil].
    intros c Hc. by apply elem_of_nil in Hc.
  - apply for_of_cons_Ok in Hloop as (wa & Hc & Hloop).
    apply bind_Ok in Hc as (r & wa' & Hc & Hret). injection Hret as ->.
    destruct (IH _ _ _ _ Hc) as (ta & Hev & Hvis & HP).
    destruct (IHl _ _ Hloop) as (tb & Hevb & Hvisb & HPb).
    exists (ta ++ tb). split; [by eapply evolves_trans|]. split.
    + intros c' Hc'. apply visited_app.
      apply elem_of_cons in Hc' as [->|Hc']; [by left|right; by apply Hvisb].
    + by eapply P_cons.
Qed.

Lemma run_induction fuel n w r w' :
  removeChildrenAndCleanupRecursively fuel layer0 n w = Ok r w' ->
  exists calls,
    evolves layer0 w w' calls /\ visited n calls /\ P [n] w w' calls.
Proof.
  revert n w r w'. induction fuel as [|fuel IH]; intros n w r w' Hrun;
    [discriminate|].
  apply removeChildrenAndCleanupRecursively_S in Hrun
    as (o & w1 & Ho & Hst & -> & Hloop & Hfin).
  destruct (loop_induction _ IH _ _ _ Hloop) as (nested & Hev & Hvis & HP).
  pose proof Hfin as Hfin'.
  apply finish_Ok in Hfin' as (o1 & Ho1 & ->).
  destruct (finish_evolves _ _ _ _ _ _ _ Hev Ho Hfin) as (o1' & Ho1' & _ & Hev').
  rewrite Ho1 in Ho1'. injection Ho1' as <-.
  eexists. split; [exact Hev'|]. split.
  - apply visited_app. right. by apply visited_finish_calls.
  - by eapply P_finish.
Qed.
End RunInduction.

(** ** Cleanups are accounted for *)

Lemma occurrences_zero e t : occurrences e t = 0 <-> e ∉ t.
Proof.
  induction t as [|x t IH]; [by split; [intros _; apply not_elem_of_nil|]|].
  rewrite occurrences_cons, not_elem_of_cons. case_bool_decide as Hx.
  - split; [lia|]. intros [Hne _]. congruence.
  - simpl. rewrite IH. split; [|tauto]. intros H. split; [congruence|done].
Qed.

Lemma cleanups_app x t1 t2 :
  cleanups x (t1 ++ t2) = cleanups x t1 + cleanups x t2.
Proof. unfold cleanups. rewrite !occurrences_app. lia. Qed.

Lemma cleanups_zero x t : cleanups x t = 0 <-> ~ cleaned x t.
Proof.
  unfold cleanups, cleaned.
  pose proof (occurrences_zero (ObjectDispose x) t).
  pose proof (occurrences_zero (DispatchEvent x "dispose") t).
  split; [intros Hsum [Hin|Hin]|intros Hn].
  - assert (occurrences (ObjectDispose x) t = 0) by lia. tauto.
  - assert (occurrences (DispatchEvent x "dispose") t = 0) by lia. tauto.
  - assert (occurrences (ObjectDispose x) t = 0) by tauto.
    assert (occurrences (DispatchEvent x "dispose") t = 0) by tauto. lia.
Qed.

Lemma cleanups_cleanup_calls x obj o : cleanups x (cleanup_calls obj o) <= 1.
Proof.
  unfold cleanups, cleanup_calls.
  destruct (release_calls_complete o) as (Hrel & _).
  destruct (genericDispose o).
  - rewrite !occurrences_cons. unfold occurrences. simpl.
    repeat case_bool_decide; simpl; lia.
  - rewrite app_assoc.
    set (releases := geometry_calls o ++ flat_map material_calls (materials o))
      in *.
    rewrite !(occurrences_app _ releases).
    rewrite (occurrences_not_release (ObjectDispose x) _ eq_refl Hrel).
    rewrite (occurrences_not_release (DispatchEvent x "dispose") _ eq_refl
               Hrel).
    rewrite !occurrences_cons. unfold occurrences. simpl.
    repeat case_bool_decide; simpl; lia.
Qed.

Lemma cleanups_finish_calls layer0 x obj r o :
  cleanups x (finish_calls layer0 obj r o) <= 1.
Proof.
  unfold finish_calls.
  change (Remove obj r :: ?t) with ([Remove obj r] ++ t).
  rewrite cleanups_app.
  assert (cleanups x [Remove obj r] = 0) as ->.
  { apply cleanups_zero, cleaned_remove. }
  destruct (ofLayer layer0 o); [apply cleanups_cleanup_calls|].
  unfold cleanups, occurrences. simpl. lia.
Qed.

Lemma cleaned_finish_calls layer0 x obj r o :
  cleaned x (finish_calls layer0 obj r o) <->
  x = obj /\ ofLayer layer0 o = true.
Proof.
  unfold finish_calls.
  change (Remove obj r :: ?t) with ([Remove obj r] ++ t).
  rewrite cleaned_app. destruct (ofLayer layer0 o).
  - rewrite cleaned_cleanup_calls. split; [|tauto].
    intros [H|H]; [by apply cleaned_remove in H|done].
  - split; [|by intros [_ ?]].
    intros [H|[H|H]]; [by apply cleaned_remove in H| |];
      by apply elem_of_nil in H.
Qed.

Section Accounts.
Variable layer0 : Layer.

Lemma accounts_nil w : accounts layer0 w w [].
Proof.
  unfold accounts. split; [|split; [|split; [|split]]].
  - intros x [H|H]; by apply elem_of_nil in H.
  - intros x [objs H]. by apply elem_of_nil in H.
  - intros x H1 H2. congruence.
  - intros x. unfold cleanups, occurrences. simpl. lia.
  - intros e H. by apply elem_of_nil in H.
Qed.

Lemma accounts_trans w w1 w2 t1 t2 :
  shrunk layer0 w w1 ->
  (forall l, ~ visited l t1 -> heap w1 !! l = heap w !! l) ->
  shrunk layer0 w1 w2 ->
  accounts layer0 w w1 t1 -> accounts layer0 w1 w2 t2 ->
  accounts layer0 w w2 (t1 ++ t2).
Proof.
  intros Hs1 Hv1 Hs2 (A1 & B1 & C1 & D1 & E1) (A2 & B2 & C2 & D2 & E2).
  assert (Hdown : forall x, inLayer w1 layer0 x = false ->
                            inLayer w2 layer0 x = false).
  { intros x Hx. destruct (inLayer w2 layer0 x) eqn:H2; [|done].
    apply (inLayer_mono _ _ _ _ Hs2) in H2. congruence. }
  unfold accounts. split; [|split; [|split; [|split]]].
  - intros x Hx. apply cleaned_app in Hx as [Hx|Hx].
    + destruct (A1 x Hx) as (Hvis & Hin & Hout).
      split; [apply visited_app; by left|]. split; [done|by apply Hdown].
    + destruct (A2 x Hx) as (Hvis & Hin & Hout).
      split; [apply visited_app; by right|].
      split; [by apply (inLayer_mono _ _ _ _ Hs1)|done].
  - intros x Hvis Hin. apply cleaned_app.
    destruct (visited_dec x t1) as [Hx1|Hx1]; [left; by apply B1|right].
    apply visited_app in Hvis as [Hvis|Hvis]; [done|].
    apply B2; [done|]. unfold inLayer in *. by rewrite Hv1.
  - intros x Hin Hout. apply cleaned_app.
    destruct (inLayer w1 layer0 x) eqn:Hmid; [right; by apply C2|].
    left. by apply C1.
  - intros x. rewrite cleanups_app.
    pose proof (D1 x). pose proof (D2 x).
    destruct (cleanups x t1) as [|k] eqn:Hk; [lia|].
    assert (Hc1 : cleaned x t1).
    { destruct (decide (ObjectDispose x ∈ t1)) as [Hin|Hin]; [by left|].
      destruct (decide (DispatchEvent x "dispose" ∈ t1)) as [Hin'|Hin'];
        [by right|].
      exfalso. assert (cleanups x t1 = 0); [|lia].
      apply cleanups_zero. intros [?|?]; done. }
    destruct (A1 x Hc1) as (_ & _ & Hout).
    assert (cleanups x t2 = 0); [|lia].
    apply cleanups_zero. intros Hc2. destruct (A2 x Hc2) as (_ & Hin & _).
    congruence.
  - intros e He. apply elem_of_app in He as [He|He].
    + destruct (E1 e He) as [Hr|(y & oy & Hy & Hcy & Hin)]; [by left|right].
      exists y, oy. split; [done|]. split; [|done].
      apply cleaned_app. by left.
    + destruct (E2 e He) as [Hr|(y & oy1 & Hy & Hcy & Hin)]; [by left|right].
      destruct (heap_shrinks_lookup_inv _ _ _ _ _ Hs1 Hy) as (oy & Hoy & Hso).
      exists y, oy. split; [done|]. split; [apply cleaned_app; by right|].
      by rewrite <- (shrinks_cleanup_calls _ _ _ y Hso).
Qed.

Lemma shrunk_finish w1 w' n o1 r :
  heap w1 !! n = Some o1 ->
  heap w' = <[n := finished layer0 r o1]> (heap w1) ->
  shrunk layer0 w1 w'.
Proof.
  intros Ho1 Hw' l. rewrite Hw'. destruct (decide (l = n)) as [->|Hne].
  - rewrite lookup_insert_eq, Ho1. constructor. apply shrinks_finished.
  - rewrite lookup_insert_ne by done.
    destruct (heap w1 !! l); constructor. apply shrinks_refl.
Qed.

Lemma inLayer_finished w1 w' n o1 r x :
  heap w1 !! n = Some o1 ->
  heap w' = <[n := finished layer0 r o1]> (heap w1) ->
  inLayer w' layer0 x
  = if decide (x = n) then false else inLayer w1 layer0 x.
Proof.
  intros Ho1 Hw'. unfold inLayer. rewrite Hw'.
  destruct (decide (x = n)) as [->|Hne].
  - rewrite lookup_insert_eq. unfold finished, ofLayer.
    destruct (layer o1) as [l|] eqn:Hl; simpl; [|by rewrite Hl].
    case_bool_decide; simpl; [done|]. rewrite Hl.
    by apply bool_decide_eq_false_2.
  - by rewrite lookup_insert_ne.
Qed.

Lemma accounts_finish w1 w' n o1 r :
  heap w1 !! n = Some o1 ->
  heap w' = <[n := finished layer0 r o1]> (heap w1) ->
  accounts layer0 w1 w' (finish_calls layer0 n r o1).
Proof.
  intros Ho1 Hw'.
  assert (Hin : forall x, inLayer w' layer0 x
                = if decide (x = n) then false else inLayer w1 layer0 x)
    by (intros x; by eapply inLayer_finished).
  unfold accounts. split; [|split; [|split; [|split]]].
  - intros x Hx. apply cleaned_finish_calls in Hx as [-> Hof].
    split; [by apply visited_finish_calls|].
    split; [by rewrite (inLayer_Some _ _ _ _ Ho1)|].
    rewrite (Hin n). by rewrite decide_True.
  - intros x Hvis Hx. apply visited_finish_calls in Hvis as ->.
    apply cleaned_finish_calls. split; [done|].
    by rewrite (inLayer_Some _ _ _ _ Ho1) in Hx.
  - intros x Hx Hout. rewrite (Hin x) in Hout.
    destruct (decide (x = n)) as [->|Hne]; [|congruence].
    apply cleaned_finish_calls. split; [done|].
    by rewrite (inLayer_Some _ _ _ _ Ho1) in Hx.
  - intros x. apply cleanups_finish_calls.
  - intros e He. unfold finish_calls in He.
    apply elem_of_cons in He as [->|He]; [left; eauto|right].
    destruct (ofLayer layer0 o1) eqn:Hof; [|by apply elem_of_nil in He].
    exists n, o1. split; [done|]. split; [|done].
    by apply cleaned_finish_calls.
Qed.

(** Every returned run keeps the books. *)
Lemma run_accounts fuel n w r w' :
  removeChildrenAndCleanupRecursively fuel layer0 n w = Ok r w' ->
  exists calls,
    evolves layer0 w w' calls /\ visited n calls /\
    accounts layer0 w w' calls.
Proof.
  apply (run_induction layer0 (fun _ w w' calls => accounts layer0 w w' calls)).
  - apply accounts_nil.
  - intros c l w0 wa w1 ta tb Hev1 Hev2 _ H1 H2.
    apply (accounts_trans w0 wa w1); [by eapply evolves_shrunk| |
      by eapply evolves_shrunk|done|done].
    by destruct Hev1 as (_ & _ & Hv & _).
  - intros n0 o o1 w0 w1 w2 nested Hev HP Ho Hvis Ho1 Hw2 Hev'.
    apply (accounts_trans w0 w1 w2); [by eapply evolves_shrunk| | |done|].
    + by destruct Hev as (_ & _ & Hv & _).
    + by eapply shrunk_finish.
    + by apply accounts_finish.
Qed.
End Accounts.

(** ** The nodes a run reaches *)

Section Reach.
Variable layer0 : Layer.

Lemma reach_trans w a b c :
  reach layer0 w a b -> reach layer0 w b c -> reach layer0 w a c.
Proof.
  induction 1 as [n|n o c0 x Ho Hc _ IH]; [done|].
  intros Hbc. eapply reach_step; [exact Ho|exact Hc|by apply IH].
Qed.

Lemma candidates_shrunk w w1 o o1 c :
  shrunk layer0 w w1 -> shrinks layer0 o o1 ->
  c ∈ candidates w1 layer0 o1 -> c ∈ candidates w layer0 o.
Proof.
  intros Hs Hso. rewrite !elem_of_candidates.
  rewrite (shrinks_link_list _ _ _ Hso).
  intros [[Hc Hin]|Hlk]; [left|by right].
  split; [|by apply (inLayer_mono _ _ _ _ Hs)].
  destruct Hso as (Hsub & _). eapply elem_of_sublist; [exact Hc|exact Hsub].
Qed.

Lemma reach_shrunk w w1 a b :
  shrunk layer0 w w1 -> reach layer0 w1 a b -> reach layer0 w a b.
Proof.
  intros Hs. induction 1 as [n|n o1 c x Ho1 Hc _ IH]; [constructor|].
  destruct (heap_shrinks_lookup_inv _ _ _ _ _ Hs Ho1) as (o & Ho & Hso).
  eapply reach_step; [exact Ho| |exact IH].
  by eapply candidates_shrunk.
Qed.

Lemma reach_visited w calls n x :
  traversal layer0 w calls -> visited n calls ->
  reach layer0 w n x -> visited x calls.
Proof.
  intros Htr Hn. induction 1 as [n|n o c x Ho Hc _ IH]; [done|].
  apply IH. destruct (Htr n o Ho Hn) as [Hlk Hch].
  apply elem_of_candidates in Hc as [[Hc Hin]|Hc]; [by apply Hch|by apply Hlk].
Qed.

Lemma run_rooted fuel n w r w' :
  removeChildrenAndCleanupRecursively fuel layer0 n w = Ok r w' ->
  exists calls,
    evolves layer0 w w' calls /\ visited n calls /\
    rooted layer0 w calls [n].
Proof.
  apply (run_induction layer0 (fun roots w _ calls => rooted layer0 w calls roots)).
  - intros w0 x [objs H]. by apply elem_of_nil in H.
  - intros c l w0 wa w1 ta tb Hev1 _ _ H1 H2 x Hx.
    apply visited_app in Hx as [Hx|Hx].
    + destruct (H1 x Hx) as (c0 & Hc0 & Hreach).
      apply list_elem_of_singleton in Hc0 as ->.
      exists c. split; [by left|done].
    + destruct (H2 x Hx) as (c0 & Hc0 & Hreach).
      exists c0. split; [by right|].
      eapply reach_shrunk; [by eapply evolves_shrunk|done].
  - intros n0 o o1 w0 w1 w2 nested Hev HP Ho Hvis Ho1 Hw2 Hev' x Hx.
    exists n0. split; [by left|].
    apply visited_app in Hx as [Hx|Hx].
    + destruct (HP x Hx) as (c & Hc & Hreach).
      eapply reach_step; [exact Ho|exact Hc|exact Hreach].
    + apply visited_finish_calls in Hx as ->. constructor.
Qed.

(** A returned run, from its return alone: it visits exactly the nodes
    reached from [n], cleans up exactly those of them that pass the id
    test, each once, and leaves every other node as it was. *)
Lemma run_reach fuel n w r w' :
  removeChildrenAndCleanupRecursively fuel layer0 n w = Ok r w' ->
  exists calls,
    evolves layer0 w w' calls /\ accounts layer0 w w' calls /\
    (forall x, visited x calls <-> reach layer0 w n x) /\
    (forall x, cleaned x calls <->
               reach layer0 w n x /\ inLayer w layer0 x = true).
Proof.
  intros Hrun.
  destruct (run_accounts _ _ _ _ _ _ Hrun) as (calls & Hev & Hn & Hacc).
  destruct (run_rooted _ _ _ _ _ Hrun) as (calls' & Hev' & _ & Hroot).
  destruct (summary_all _ _ _ _ _ _ Hrun) as (calls'' & Hev'' & _ & Htr & _).
  assert (calls' = calls) as ->.
  { eapply evolves_calls_eq; [exact Hev|]. by destruct Hev'. }
  assert (calls'' = calls) as ->.
  { eapply evolves_calls_eq; [exact Hev|]. by destruct Hev''. }
  assert (Hvis : forall x, visited x calls <-> reach layer0 w n x).
  { intros x. split.
    - intros Hx. destruct (Hroot x Hx) as (c & Hc & Hreach).
      by apply list_elem_of_singleton in Hc as ->.
    - by apply reach_visited. }
  exists calls. split; [done|]. split; [done|]. split; [done|].
  destruct Hacc as (A & B & _). intros x. rewrite <- Hvis. split.
  - intros Hx. destruct (A x Hx) as (Hv & Hin & _). done.
  - intros [Hv Hin]. by apply B.
Qed.
End Reach.

(** ** Nodes of other layers, in the three operations *)

(** C3, as stated, fails on the code, also in a store where no link entry is
    a child: the traversal does not continue into a child that does not
    belong to L, nor from it into its link list and its children.  In
    [scene_skipped_child] the run for L1 on node 1 meets the child 2 of
    layer L2 and leaves it alone, with all that hangs from it: the child 3
    and the link entry 4 of node 2, both of layer L1, are not visited and
    keep their layer; the mesh 8 of layer L1 is visited and cleaned up. *)
Lemma removeChildrenAndCleanupRecursively_skips_other_layer_child :
  inLayer scene_skipped_child layerA 2 = false /\
  children <$> heap scene_skipped_child !! 1%positive = Some [2; 8]%positive /\
  children <$> heap scene_skipped_child !! 2%positive = Some [3%positive] /\
  link <$> heap scene_skipped_child !! 2%positive = Some (Some [4%positive]) /\
  inLayer scene_skipped_child layerA 3 = true /\
  inLayer scene_skipped_child layerA 4 = true /\
  exists w',
    removeChildrenAndCleanupRecursively 5 layerA 1 scene_skipped_child
    = Ok [8%positive] w' /\
    trace w' = [Remove 8 []; GeometryDispose 9; MaterialDispose 5;
                TextureDispose 7; MaterialDispose 6; TextureDispose 7;
                DispatchEvent 8 "dispose"; Remove 1 [8%positive];
                DispatchEvent 1 "dispose"] /\
    ~ visited 2 (trace w') /\ ~ visited 3 (trace w') /\
    ~ visited 4 (trace w') /\
    layer <$> heap w' !! 3%positive = Some (Some layerA) /\
    layer <$> heap w' !! 4%positive = Some (Some layerA) /\
    children <$> heap w' !! 1%positive = Some [2%positive].
Proof.
  repeat (split; [reflexivity|]).
  eexists. split; [vm_compute; reflexivity|].
  split; [reflexivity|].
  repeat (split;
    [intros (objects & H); simpl in H;
     repeat (apply elem_of_cons in H as [H|H]; [discriminate|]);
     inversion H|]).
  repeat split.
Qed.

(** C3, amended: a node X that does not pass the id test for L (another
    [layer.id], or no layer) is never cleaned up by any of the three
    operations: no call of its cleanup is made, it keeps its layer
    reference, and every release made is made by the cleanup of a node that
    passes the id test.  [removeChildren] and [removeChildrenAndCleanup]
    never detach it from a parent; the recursive operation never detaches it
    from a parent unless it is an entry of the [link] list of that parent.
    The recursion goes on from every node it visits, whatever the layer of
    that node, into all its link entries and into its children that pass
    the id test, and into nothing else: the nodes it visits are exactly
    those reached from N through such entries and children.  On a
    well-formed scene with enough fuel it returns. *)
Theorem other_layer_nodes_kept
  (layer0 : Layer) (x : loc) (ox : Object3D) (w : World) :
  heap w !! x = Some ox ->
  ofLayer layer0 ox = false ->
  (forall obj r w',
     removeChildren layer0 obj w = Ok r w' \/
     removeChildrenAndCleanup layer0 obj w = Ok r w' ->
     exists calls ox',
       trace w' = trace w ++ calls /\ ~ cleaned x calls /\
       heap w' !! x = Some ox' /\ layer ox' = layer ox /\
       (forall e, e ∈ calls -> is_release e = true ->
          exists y oy, heap w !! y = Some oy /\ ofLayer layer0 oy = true /\
                       e ∈ cleanup_calls y oy) /\
       (forall p op, heap w !! p = Some op -> x ∈ children op ->
          exists op', heap w' !! p = Some op' /\ x ∈ children op')) /\
  (forall fuel obj r w',
     removeChildrenAndCleanupRecursively fuel layer0 obj w = Ok r w' ->
     exists calls ox',
       trace w' = trace w ++ calls /\ ~ cleaned x calls /\
       heap w' !! x = Some ox' /\ layer ox' = layer ox /\
       (forall e, e ∈ calls -> is_release e = true ->
          exists y oy, heap w !! y = Some oy /\ ofLayer layer0 oy = true /\
                       e ∈ cleanup_calls y oy) /\
       (forall p op, heap w !! p = Some op -> x ∈ children op ->
          x ∉ link_list op ->
          exists op', heap w' !! p = Some op' /\ x ∈ children op') /\
       traversal layer0 w calls /\
       (forall y, visited y calls <-> reach layer0 w obj y)) /\
  (forall rk fuel obj,
     well_formed rk w = true -> is_Some (heap w !! obj) -> rk obj < fuel ->
     exists r w',
       removeChildrenAndCleanupRecursively fuel layer0 obj w = Ok r w').
Proof.
  intros Hx Hof. split; [|split].
  - intros obj r w' Hrun.
    destruct (nonrecursive_shape _ _ _ _ _ Hrun)
      as (o & o' & calls & Ho & Hw' & Ht & Hc & Hl & Hcl).
    pose proof (nonrecursive_releases _ _ _ _ _ _ Hrun Ht) as Hrel.
    destruct (decide (x = obj)) as [->|Hne].
    + rewrite Ho in Hx. injection Hx as <-.
      exists calls, o'. split; [done|]. split.
      { intros H. apply Hcl in H as [_ H]. congruence. }
      split; [by rewrite Hw', lookup_insert_eq|].
      split; [destruct Hl as [Hl|Hl]; [done|congruence]|].
      split; [exact Hrel|].
      intros p op Hp Hin. destruct (decide (p = obj)) as [->|Hpn].
      * rewrite Ho in Hp. injection Hp as <-. exists o'.
        split; [by rewrite Hw', lookup_insert_eq|].
        rewrite Hc. apply filter_In_elem. split; [done|].
        by rewrite (inLayer_Some _ _ _ _ Ho), Hof.
      * exists op. by rewrite Hw', lookup_insert_ne.
    + exists calls, ox. split; [done|]. split.
      { intros H. apply Hcl in H as [H _]. done. }
      split; [by rewrite Hw', lookup_insert_ne|]. split; [done|].
      split; [exact Hrel|].
      intros p op Hp Hin. destruct (decide (p = obj)) as [->|Hpn].
      * rewrite Ho in Hp. injection Hp as <-. exists o'.
        split; [by rewrite Hw', lookup_insert_eq|].
        rewrite Hc. apply filter_In_elem. split; [done|].
        by rewrite (inLayer_Some _ _ _ _ Hx), Hof.
      * exists op. by rewrite Hw', lookup_insert_ne.
  - intros fuel obj r w' Hrun.
    destruct (summary_all _ _ _ _ _ _ Hrun)
      as (calls & (Ht & Hs & Hv & Hj & Hk) & _ & Htr & _).
    destruct (run_reach _ _ _ _ _ _ Hrun) as (calls' & Hev' & _ & Hvis & _).
    assert (calls' = calls) as ->.
    { destruct Hev' as (Ht' & _). rewrite Ht in Ht'.
      by apply app_inv_head in Ht'. }
    destruct (heap_shrinks_lookup _ _ _ _ _ Hs Hx) as (ox' & Hx' & Hsx).
    rewrite Forall_forall in Hj.
    assert (Hown : forall e, e ∈ calls -> cleaned x [e] -> False).
    { intros e He Hce. destruct (Hj e He) as [(y & objs & ->)|(y & oy & Hy & Hoy & Hin)].
      - by apply cleaned_remove in Hce.
      - assert (Hcy : cleaned x (cleanup_calls y oy)).
        { destruct Hce as [H|H]; apply list_elem_of_singleton in H;
            subst e; [by left|by right]. }
        apply cleaned_cleanup_calls in Hcy as ->. congruence. }
    exists calls, ox'. split; [done|]. split.
    { intros [H|H]; eapply Hown; try exact H.
      - left. by apply list_elem_of_singleton.
      - right. by apply list_elem_of_singleton. }
    split; [done|]. split.
    { destruct Hsx as (_ & [Hl|[_ Hl]] & _); [done|congruence]. }
    split; [|split; [|split; [done|]]].
    + intros e He Hrel.
      destruct (Hj e He) as [(y & objs & ->)|H]; [done|exact H].
    + intros p op Hp Hin Hlk.
      destruct (heap_shrinks_lookup _ _ _ _ _ Hs Hp) as (op' & Hp' & _).
      exists op'. split; [done|]. eapply Hk; [exact Hp|exact Hp'|done| |done].
      by rewrite (inLayer_Some _ _ _ _ Hx).
    + exact Hvis.
  - intros rk fuel obj. apply run_total.
Qed.

Lemma other_layer_nodes_kept_witness :
  (forall obj r w',
     removeChildren layerA obj scene_skipped_child = Ok r w' \/
     removeChildrenAndCleanup layerA obj scene_skipped_child = Ok r w' ->
     exists calls ox',
       trace w' = trace scene_skipped_child ++ calls /\ ~ cleaned 2%positive calls /\
       heap w' !! 2%positive = Some ox' /\ layer ox' = layer (group (Some layerB) (Some [4%positive]) [3%positive]) /\
       (forall e, e ∈ calls -> is_release e = true ->
          exists y oy, heap scene_skipped_child !! y = Some oy /\ ofLayer layerA oy = true /\
                       e ∈ cleanup_calls y oy) /\
       (forall p op, heap scene_skipped_child !! p = Some op -> 2%positive ∈ children op ->
          exists op', heap w' !! p = Some op' /\ 2%positive ∈ children op')) /\
  (forall fuel obj r w',
     removeChildrenAndCleanupRecursively fuel layerA obj scene_skipped_child = Ok r w' ->
     exists calls ox',
       trace w' = trace scene_skipped_child ++ calls /\ ~ cleaned 2%positive calls /\
       heap w' !! 2%positive = Some ox' /\ layer ox' = layer (group (Some layerB) (Some [4%positive]) [3%positive]) /\
       (forall e, e ∈ calls -> is_release e = true ->
          exists y oy, heap scene_skipped_child !! y = Some oy /\ ofLayer layerA oy = true /\
                       e ∈ cleanup_calls y oy) /\
       (forall p op, heap scene_skipped_child !! p = Some op -> 2%positive ∈ children op ->
          2%positive ∉ link_list op ->
          exists op', heap w' !! p = Some op' /\ 2%positive ∈ children op') /\
       traversal layerA scene_skipped_child calls /\
       (forall y, visited y calls <-> reach layerA scene_skipped_child obj y)) /\
  (forall rk fuel obj,
     well_formed rk scene_skipped_child = true -> is_Some (heap scene_skipped_child !! obj) -> rk obj < fuel ->
     exists r w',
       removeChildrenAndCleanupRecursively fuel layerA obj scene_skipped_child = Ok r w').
Proof.
  apply (other_layer_nodes_kept layerA 2
           (group (Some layerB) (Some [4%positive]) [3%positive])
           scene_skipped_child); reflexivity.
Defined.

(** ** Releases are tallied *)

Section Tallies.
Variable layer0 : Layer.

Lemma sole_owner_shrunk w w1 e y :
  shrunk layer0 w w1 -> sole_owner w e y -> sole_owner w1 e y.
Proof.
  intros Hs Hsole y' oy1 Hy' He.
  destruct (heap_shrinks_lookup_inv _ _ _ _ _ Hs Hy') as (oy & Hoy & Hso).
  apply (Hsole y' oy Hoy). by rewrite <- (shrinks_cleanup_calls _ _ _ y' Hso).
Qed.

Lemma cleanups_own x o : cleanups x (cleanup_calls x o) = 1.
Proof.
  pose proof (cleanups_cleanup_calls x x o) as Hle.
  assert (cleanups x (cleanup_calls x o) <> 0) as Hnz; [|lia].
  rewrite cleanups_zero. intros Hn. apply Hn. by apply cleaned_cleanup_calls.
Qed.

Lemma cleanups_other x y o : x <> y -> cleanups x (cleanup_calls y o) = 0.
Proof. intros Hne. apply cleanups_zero. by rewrite cleaned_cleanup_calls. Qed.

Lemma occurrences_finish_calls e n r o :
  (forall x objects, e <> Remove x objects) ->
  occurrences e (finish_calls layer0 n r o)
  = if ofLayer layer0 o then occurrences e (cleanup_calls n o) else 0.
Proof.
  intros Hne. unfold finish_calls. rewrite occurrences_cons.
  rewrite bool_decide_eq_false_2 by (apply not_eq_sym, Hne).
  by destruct (ofLayer layer0 o).
Qed.

Lemma cleanups_finish_calls_eq y n r o :
  cleanups y (finish_calls layer0 n r o)
  = if ofLayer layer0 o then cleanups y (cleanup_calls n o) else 0.
Proof.
  unfold cleanups.
  rewrite !occurrences_finish_calls by done.
  by destruct (ofLayer layer0 o).
Qed.

Lemma run_tallies fuel n w r w' :
  removeChildrenAndCleanupRecursively fuel layer0 n w = Ok r w' ->
  exists calls,
    evolves layer0 w w' calls /\ visited n calls /\ tallies w calls.
Proof.
  apply (run_induction layer0 (fun _ w _ calls => tallies w calls)).
  - intros w0 e y oy _ _ _. unfold cleanups, occurrences. simpl. lia.
  - intros c l w0 wa w1 ta tb Hev1 _ _ H1 H2 e y oy Hne Hy Hsole.
    pose proof (evolves_shrunk _ _ _ _ Hev1) as Hs.
    destruct (heap_shrinks_lookup _ _ _ _ _ Hs Hy) as (oy1 & Hy1 & Hso).
    rewrite occurrences_app, cleanups_app.
    rewrite (H1 e y oy Hne Hy Hsole).
    rewrite (H2 e y oy1 Hne Hy1 (sole_owner_shrunk _ _ _ _ Hs Hsole)).
    rewrite (shrinks_cleanup_calls _ _ _ y Hso). lia.
  - intros n0 o o1 w0 w1 w2 nested Hev HP Ho _ Ho1 _ _ e y oy Hne Hy Hsole.
    pose proof (evolves_shrunk _ _ _ _ Hev) as Hs.
    destruct (heap_shrinks_lookup _ _ _ _ _ Hs Ho) as (o1' & Ho1' & Hso).
    rewrite Ho1 in Ho1'. injection Ho1' as <-.
    rewrite occurrences_app, cleanups_app, (HP e y oy Hne Hy Hsole).
    rewrite (occurrences_finish_calls _ _ _ _ Hne).
    rewrite cleanups_finish_calls_eq.
    destruct (ofLayer layer0 o1); [|lia].
    rewrite (shrinks_cleanup_calls _ _ _ n0 Hso).
    destruct (decide (y = n0)) as [->|Hyn].
    + rewrite Ho in Hy. injection Hy as <-. rewrite cleanups_own. lia.
    + rewrite (cleanups_other y n0) by done.
      rewrite (proj2 (occurrences_zero e (cleanup_calls n0 o))); [lia|].
      intros Hin. apply Hyn. symmetry. by apply (Hsole n0 o Ho).
Qed.
End Tallies.

(** ** What a run of the recursive operation does, node by node *)

Lemma scene_lookup nodes l o :
  heap (scene nodes) !! l = Some o -> (l, o) ∈ nodes.
Proof. apply elem_of_list_to_map_2. Qed.

(** The recursive operation visits exactly the nodes that are reached from
    N through children that pass the id test and link entries, and leaves
    every other node of the scene as it was. *)
Theorem recursion_visits_what_it_reaches
  (rk : loc -> nat) (fuel : nat) (layer0 : Layer) (obj : loc)
  (o : Object3D) (w : World) :
  well_formed rk w = true ->
  heap w !! obj = Some o ->
  rk obj < fuel ->
  exists r w' calls,
    removeChildrenAndCleanupRecursively fuel layer0 obj w = Ok r w' /\
    trace w' = trace w ++ calls /\
    (forall x, visited x calls <-> reach layer0 w obj x) /\
    (forall x, ~ reach layer0 w obj x -> heap w' !! x = heap w !! x).
Proof.
  intros Hwf Ho Hrk.
  destruct (run_total layer0 rk fuel obj w Hwf) as (r & w' & Hrun);
    [by eexists|done|].
  destruct (run_reach _ _ _ _ _ _ Hrun) as (calls & Hev & _ & Hvis & _).
  exists r, w', calls. split; [done|].
  destruct Hev as (Ht & _ & Hv & _). split; [done|]. split; [done|].
  intros x Hx. apply Hv. by rewrite Hvis.
Qed.

Lemma recursion_visits_what_it_reaches_witness :
  exists r w' calls,
    removeChildrenAndCleanupRecursively 10 layerA 1 scene_diamond = Ok r w' /\
    trace w' = trace scene_diamond ++ calls /\
    (forall x, visited x calls <-> reach layerA scene_diamond 1 x) /\
    (forall x, ~ reach layerA scene_diamond 1 x ->
       heap w' !! x = heap scene_diamond !! x).
Proof.
  apply (recursion_visits_what_it_reaches rank_by_loc 10 layerA 1
           (group (Some layerA) None [2; 3]%positive) scene_diamond).
  - vm_compute. reflexivity.
  - reflexivity.
  - vm_compute. lia.
Defined.

(** In one run [cleanup] is called exactly once on every reached node that
    passes the id test, also when the node is reached along several paths,
    and on no other node; afterwards no reached node passes the id test. *)
Theorem recursion_cleans_each_reached_node_once
  (rk : loc -> nat) (fuel : nat) (layer0 : Layer) (obj : loc)
  (o : Object3D) (w : World) :
  well_formed rk w = true ->
  heap w !! obj = Some o ->
  rk obj < fuel ->
  exists r w' calls,
    removeChildrenAndCleanupRecursively fuel layer0 obj w = Ok r w' /\
    trace w' = trace w ++ calls /\
    (forall x, reach layer0 w obj x -> inLayer w layer0 x = true ->
       cleanups x calls = 1) /\
    (forall x, ~ (reach layer0 w obj x /\ inLayer w layer0 x = true) ->
       cleanups x calls = 0) /\
    (forall x, reach layer0 w obj x -> inLayer w' layer0 x = false).
Proof.
  intros Hwf Ho Hrk.
  destruct (run_total layer0 rk fuel obj w Hwf) as (r & w' & Hrun);
    [by eexists|done|].
  destruct (run_reach _ _ _ _ _ _ Hrun) as (calls & Hev & Hacc & Hvis & Hcl).
  exists r, w', calls. split; [done|]. split; [by destruct Hev|].
  destruct Hacc as (A & _ & _ & D & _). split; [|split].
  - intros x Hreach Hin. pose proof (D x) as Hle.
    assert (cleanups x calls <> 0); [|lia].
    rewrite cleanups_zero, Hcl. tauto.
  - intros x Hn. apply cleanups_zero. by rewrite Hcl.
  - intros x Hreach. destruct (inLayer w layer0 x) eqn:Hin.
    + destruct (A x) as (_ & _ & Hout); [|done]. by apply Hcl.
    + destruct (inLayer w' layer0 x) eqn:Hin'; [|done].
      apply (inLayer_mono _ _ _ _ (evolves_shrunk _ _ _ _ Hev)) in Hin'.
      congruence.
Qed.

Lemma recursion_cleans_each_reached_node_once_witness :
  exists r w' calls,
    removeChildrenAndCleanupRecursively 10 layerA 1 scene_diamond = Ok r w' /\
    trace w' = trace scene_diamond ++ calls /\
    (forall x, reach layerA scene_diamond 1 x ->
       inLayer scene_diamond layerA x = true -> cleanups x calls = 1) /\
    (forall x, ~ (reach layerA scene_diamond 1 x /\
                  inLayer scene_diamond layerA x = true) ->
       cleanups x calls = 0) /\
    (forall x, reach layerA scene_diamond 1 x -> inLayer w' layerA x = false).
Proof.
  apply (recursion_cleans_each_reached_node_once rank_by_loc 10 layerA 1
           (group (Some layerA) None [2; 3]%positive) scene_diamond).
  - vm_compute. reflexivity.
  - reflexivity.
  - vm_compute. lia.
Defined.

(** The mesh 4 of [scene_diamond] is linked from both children of node 1:
    the run visits it twice and cleans it up once. *)
Example recursion_diamond :
  exists w',
    removeChildrenAndCleanupRecursively 3 layerA 1 scene_diamond
    = Ok [2; 3]%positive w' /\
    trace w'
    = [Remove 4 []; GeometryDispose 9; MaterialDispose 5; TextureDispose 7;
       MaterialDispose 6; TextureDispose 7; DispatchEvent 4 "dispose";
       Remove 2 [4%positive]; DispatchEvent 2 "dispose";
       Remove 4 []; Remove 3 [4%positive]; DispatchEvent 3 "dispose";
       Remove 1 [2; 3]%positive; DispatchEvent 1 "dispose"].
Proof. eexists. split; [vm_compute; reflexivity|reflexivity]. Qed.

(** A release that only the cleanup of one node [y] makes (a geometry, a
    material or a texture that no other node of the scene holds) is made in
    one run as often as one [cleanup(y)] makes it when [y] is reached and
    passes the id test, and not at all otherwise. *)
Theorem recursion_releases_unshared_once
  (rk : loc -> nat) (fuel : nat) (layer0 : Layer) (obj : loc)
  (o : Object3D) (w : World) (e : Event) (y : loc) (oy : Object3D) :
  well_formed rk w = true ->
  heap w !! obj = Some o ->
  rk obj < fuel ->
  is_release e = true ->
  heap w !! y = Some oy ->
  sole_owner w e y ->
  exists r w' calls,
    removeChildrenAndCleanupRecursively fuel layer0 obj w = Ok r w' /\
    trace w' = trace w ++ calls /\
    (reach layer0 w obj y -> inLayer w layer0 y = true ->
     occurrences e calls = occurrences e (cleanup_calls y oy)) /\
    (~ (reach layer0 w obj y /\ inLayer w layer0 y = true) ->
     occurrences e calls = 0).
Proof.
  intros Hwf Ho Hrk Hrel Hy Hsole.
  destruct (run_total layer0 rk fuel obj w Hwf) as (r & w' & Hrun);
    [by eexists|done|].
  destruct (run_reach _ _ _ _ _ _ Hrun) as (calls & Hev & Hacc & Hvis & Hcl).
  destruct (run_tallies _ _ _ _ _ _ Hrun) as (calls' & Hev' & _ & Htal).
  assert (calls' = calls) as ->.
  { eapply evolves_calls_eq; [exact Hev|]. by destruct Hev'. }
  exists r, w', calls. split; [done|]. split; [by destruct Hev|].
  assert (Hne : forall x objects, e <> Remove x objects).
  { intros x objs ->. discriminate. }
  rewrite (Htal e y oy Hne Hy Hsole).
  destruct Hacc as (_ & _ & _ & D & _). split.
  - intros Hreach Hin. pose proof (D y) as Hle.
    assert (cleanups y calls <> 0); [|nia].
    rewrite cleanups_zero, Hcl. tauto.
  - intros Hn. assert (cleanups y calls = 0) as ->; [|lia].
    apply cleanups_zero. by rewrite Hcl.
Qed.

Lemma recursion_releases_unshared_once_witness :
  exists r w' calls,
    removeChildrenAndCleanupRecursively 10 layerA 1 scene_diamond = Ok r w' /\
    trace w' = trace scene_diamond ++ calls /\
    (reach layerA scene_diamond 1 4 -> inLayer scene_diamond layerA 4 = true ->
     occurrences (GeometryDispose 9) calls
     = occurrences (GeometryDispose 9) (cleanup_calls 4 (mesh false false))) /\
    (~ (reach layerA scene_diamond 1 4 /\
        inLayer scene_diamond layerA 4 = true) ->
     occurrences (GeometryDispose 9) calls = 0).
Proof.
  apply (recursion_releases_unshared_once rank_by_loc 10 layerA 1
           (group (Some layerA) None [2; 3]%positive) scene_diamond
           (GeometryDispose 9) 4 (mesh false false)).
  - vm_compute. reflexivity.
  - reflexivity.
  - vm_compute. lia.
  - reflexivity.
  - reflexivity.
  - intros y' oy' Hy' He. apply scene_lookup in Hy'.
    repeat (apply elem_of_cons in Hy' as [[= -> ->]|Hy']);
      try reflexivity; try (by apply elem_of_nil in Hy').
    all: vm_compute in He; apply elem_of_cons in He as [[=]|He];
      by apply elem_of_nil in He.
Defined.

(** A second run on N right after the first cleans up nothing: every node
    the first run cleaned up has lost its layer reference, so the second run
    only calls [remove], releases nothing again and clears no layer. *)
Theorem recursion_second_run_releases_nothing
  (rk : loc -> nat) (fuel : nat) (layer0 : Layer) (obj : loc)
  (o : Object3D) (w : World) :
  well_formed rk w = true ->
  heap w !! obj = Some o ->
  rk obj < fuel ->
  exists r w' r2 w2 calls2,
    removeChildrenAndCleanupRecursively fuel layer0 obj w = Ok r w' /\
    removeChildrenAndCleanupRecursively fuel layer0 obj w' = Ok r2 w2 /\
    trace w2 = trace w' ++ calls2 /\
    Forall (fun e => exists x objects, e = Remove x objects) calls2 /\
    (forall x ox, heap w' !! x = Some ox ->
       exists ox2, heap w2 !! x = Some ox2 /\ layer ox2 = layer ox).
Proof.
  intros Hwf Ho Hrk.
  destruct (run_total layer0 rk fuel obj w Hwf) as (r & w' & Hrun);
    [by eexists|done|].
  destruct (run_reach _ _ _ _ _ _ Hrun) as (calls & Hev & Hacc & Hvis & Hcl).
  pose proof (well_formed_evolves _ _ _ _ _ Hwf Hev) as Hwf'.
  destruct (run_total layer0 rk fuel obj w' Hwf') as (r2 & w2 & Hrun2);
    [by eapply evolves_stored; [exact Hev|eexists]|done|].
  destruct (run_reach _ _ _ _ _ _ Hrun2)
    as (calls2 & Hev2 & Hacc2 & Hvis2 & Hcl2).
  pose proof (evolves_shrunk _ _ _ _ Hev) as Hs.
  assert (Hnone : forall x, ~ cleaned x calls2).
  { intros x Hx. apply Hcl2 in Hx as [Hreach Hin].
    apply (reach_shrunk _ _ _ _ _ Hs) in Hreach.
    pose proof (inLayer_mono _ _ _ _ Hs Hin) as Hin0.
    destruct Hacc as (A & _).
    destruct (A x) as (_ & _ & Hout); [by apply Hcl|]. congruence. }
  exists r, w', r2, w2, calls2. split; [done|]. split; [done|].
  split; [by destruct Hev2|]. split.
  - apply Forall_forall. intros e He.
    destruct Hacc2 as (_ & _ & _ & _ & E).
    destruct (E e He) as [Hr|(y & oy & _ & Hcy & _)]; [done|].
    by apply Hnone in Hcy.
  - intros x ox Hx.
    destruct (heap_shrinks_lookup _ _ _ _ _ (evolves_shrunk _ _ _ _ Hev2) Hx)
      as (ox2 & Hx2 & Hsx).
    exists ox2. split; [done|].
    destruct Hsx as (_ & [Hl|[Hl Hof]] & _); [done|]. exfalso.
    destruct Hacc2 as (_ & _ & C & _). apply (Hnone x), C.
    + by rewrite (inLayer_Some _ _ _ _ Hx).
    + rewrite (inLayer_Some _ _ _ _ Hx2). by apply ofLayer_None.
Qed.

Lemma recursion_second_run_releases_nothing_witness :
  exists r w' r2 w2 calls2,
    removeChildrenAndCleanupRecursively 10 layerA 1 scene_diamond = Ok r w' /\
    removeChildrenAndCleanupRecursively 10 layerA 1 w' = Ok r2 w2 /\
    trace w2 = trace w' ++ calls2 /\
    Forall (fun e => exists x objects, e = Remove x objects) calls2 /\
    (forall x ox, heap w' !! x = Some ox ->
       exists ox2, heap w2 !! x = Some ox2 /\ layer ox2 = layer ox).
Proof.
  apply (recursion_second_run_releases_nothing rank_by_loc 10 layerA 1
           (group (Some layerA) None [2; 3]%positive) scene_diamond).
  - vm_compute. reflexivity.
  - reflexivity.
  - vm_compute. lia.
Defined.

(** ** Cycles *)

Lemma split_occurrence (ta tb pre post : list Event) e :
  ta ++ tb = pre ++ e :: post ->
  (exists q, ta = pre ++ e :: q) \/
  (exists l, pre = ta ++ l /\ tb = l ++ e :: post).
Proof.
  intros H. apply app_eq_inv in H as [(k & Hta & Hk)|(k & Hpre & Htb)].
  - destruct k as [|e' k].
    + right. exists []. rewrite app_nil_r in Hta. simpl in Hk. subst.
      by rewrite app_nil_r.
    + injection Hk as <- ->. left. by exists k.
  - right. by exists k.
Qed.

Lemma visited_split x t :
  visited x t -> exists objects p q, t = p ++ Remove x objects :: q.
Proof.
  intros [objs H]. apply list_elem_of_split in H as (p & q & ->). eauto.
Qed.

Section Cycles.
Variable layer0 : Layer.

Lemma ordered_trans w wa ta tb :
  evolves layer0 w wa ta ->
  ordered layer0 w ta -> ordered layer0 wa tb ->
  ordered layer0 w (ta ++ tb).
Proof.
  intros (_ & Hs & Hv & _) H1 H2 y oy c pre objs post Hy Hc Heq.
  apply split_occurrence in Heq as [(q & ->)|(l & -> & ->)].
  - by eapply H1.
  - apply visited_app.
    destruct (visited_dec y ta) as [Hyt|Hyt].
    + left. apply visited_split in Hyt as (objs' & p & q & ->).
      apply visited_app. left. by eapply H1.
    + assert (Hy' : heap wa !! y = Some oy) by (by rewrite Hv).
      destruct (visited_dec c ta) as [Hct|Hct]; [by left|right].
      eapply (H2 y oy c l objs post); [done| |done].
      apply elem_of_candidates in Hc as [[Hin Hof]|Hlk];
        apply elem_of_candidates; [left|by right].
      split; [done|]. unfold inLayer in *. by rewrite Hv.
Qed.

Lemma run_ordered fuel n w r w' :
  removeChildrenAndCleanupRecursively fuel layer0 n w = Ok r w' ->
  exists calls,
    evolves layer0 w w' calls /\ visited n calls /\ ordered layer0 w calls.
Proof.
  apply (run_induction layer0 (fun _ w _ calls => ordered layer0 w calls)).
  - intros w0 y oy c pre objs post _ _ Heq. destruct pre; discriminate.
  - intros c l w0 wa w1 ta tb Hev1 _ _ H1 H2. by eapply ordered_trans.
  - intros n0 o o1 w0 w1 w2 nested Hev HP Ho Hvis Ho1 _ _
      y oy c pre objs post Hy Hc Heq.
    apply split_occurrence in Heq as [(q & ->)|(l & -> & Hfc)].
    + by eapply HP.
    + unfold finish_calls in Hfc. destruct l as [|e l].
      * injection Hfc as <- _ _. rewrite app_nil_r.
        rewrite Ho in Hy. injection Hy as <-. by apply Hvis.
      * injection Hfc as _ Hcl. exfalso.
        assert (Hin : Remove y objs ∈ l ++ Remove y objs :: post).
        { apply elem_of_app. right. by left. }
        rewrite <- Hcl in Hin.
        destruct (ofLayer layer0 o1); [|by apply elem_of_nil in Hin].
        by apply cleanup_calls_no_remove in Hin.
Qed.

Lemma ordered_acyclic w calls :
  ordered layer0 w calls ->
  forall k pre rest, calls = pre ++ rest -> length pre <= k ->
  forall y oy c,
    heap w !! y = Some oy -> c ∈ candidates w layer0 oy ->
    reach layer0 w c y -> ~ visited y pre.
Proof.
  intros Hord. induction k as [|k IH];
    intros pre rest Hcalls Hlen y oy c Hy Hc Hcy Hvis.
  - destruct pre; [|simpl in Hlen; lia].
    destruct Hvis as [objs H]. by apply elem_of_nil in H.
  - apply visited_split in Hvis as (objs & p & q & ->).
    assert (Hcp : visited c p).
    { eapply (Hord y oy c p objs (q ++ rest)); [done|done|].
      by rewrite Hcalls, <- app_assoc. }
    rewrite length_app in Hlen. simpl in Hlen.
    assert (Hp : calls = p ++ (Remove y objs :: q ++ rest))
      by (by rewrite Hcalls, <- app_assoc).
    inversion Hcy as [|? oc c' ? Hoc Hc' Hc'y]; subst.
    + eapply (IH p _ Hp); [lia|exact Hy|exact Hc|constructor|exact Hcp].
    + eapply (IH p _ Hp); [lia|exact Hoc|exact Hc'| |exact Hcp].
      eapply reach_trans; [exact Hc'y|].
      eapply reach_step; [exact Hy|exact Hc|constructor].
Qed.

Lemma run_acyclic obj y c oy w :
  reach layer0 w obj y -> heap w !! y = Some oy ->
  c ∈ candidates w layer0 oy -> reach layer0 w c y ->
  forall fuel r w',
    removeChildrenAndCleanupRecursively fuel layer0 obj w <> Ok r w'.
Proof.
  intros Hreach Hy Hc Hcy fuel r w' Hrun.
  destruct (run_ordered _ _ _ _ _ Hrun) as (calls & Hev & Hn & Hord).
  destruct (summary_all _ _ _ _ _ _ Hrun) as (calls' & Hev' & _ & Htr & _).
  assert (calls' = calls) as ->.
  { eapply evolves_calls_eq; [exact Hev|]. by destruct Hev'. }
  apply (ordered_acyclic w calls Hord (length calls) calls []
           (eq_sym (app_nil_r _)) (le_n _) y oy c Hy Hc Hcy).
  by eapply reach_visited.
Qed.
End Cycles.

(** The recursion returns only when no node it reaches lies on a cycle of
    candidates: with a reached node [y] that is reached again from one of
    its own candidates (a node in its own [link] list, two nodes that link
    to each other), the call never returns, whatever the fuel. *)
Theorem recursion_cycle_never_returns
  (layer0 : Layer) (obj y c : loc) (oy : Object3D) (w : World) :
  reach layer0 w obj y ->
  heap w !! y = Some oy ->
  c ∈ candidates w layer0 oy ->
  reach layer0 w c y ->
  forall fuel r w',
    removeChildrenAndCleanupRecursively fuel layer0 obj w <> Ok r w'.
Proof. apply run_acyclic. Qed.

Lemma recursion_cycle_never_returns_witness :
  reach layerA scene_link_cycle 1 1 /\
  2%positive
  ∈ candidates scene_link_cycle layerA
      (group (Some layerA) (Some [2%positive]) []) /\
  reach layerA scene_link_cycle 2 1 /\
  forall fuel r w',
    removeChildrenAndCleanupRecursively fuel layerA 1 scene_link_cycle
    <> Ok r w'.
Proof.
  assert (H1 : reach layerA scene_link_cycle 1 1) by constructor.
  assert (H2 : 2%positive
               ∈ candidates scene_link_cycle layerA
                   (group (Some layerA) (Some [2%positive]) []))
    by (vm_compute; by left).
  assert (H3 : reach layerA scene_link_cycle 2 1).
  { eapply (reach_step _ _ 2 (group (Some layerB) (Some [1%positive]) []));
      [reflexivity|vm_compute; by left|constructor]. }
  split; [exact H1|]. split; [exact H2|]. split; [exact H3|].
  exact (recursion_cycle_never_returns layerA 1 1 2
           (group (Some layerA) (Some [2%positive]) []) scene_link_cycle
           H1 eq_refl H2 H3).
Defined.

(** ** Closed scenes *)

Lemma closed_spec w :
  closed w = true <->
  forall l o c, heap w !! l = Some o -> c ∈ edges o -> is_Some (heap w !! c).
Proof.
  unfold closed. rewrite forallb_forall. split.
  - intros H l o c Ho Hc. specialize (H (l, o)). simpl in H.
    rewrite forallb_forall in H.
    assert (Hin : In (l, o) (map_to_list (heap w))).
    { apply list_elem_of_In. by apply elem_of_map_to_list. }
    specialize (H Hin c). apply list_elem_of_In in Hc. specialize (H Hc).
    by apply bool_decide_eq_true_1 in H.
  - intros H [l o] Hin. simpl.
    apply list_elem_of_In, elem_of_map_to_list in Hin.
    apply forallb_forall. intros c Hc. apply list_elem_of_In in Hc.
    apply bool_decide_eq_true_2. by eapply H.
Qed.

Lemma closed_shrunk layer0 w w' :
  closed w = true -> shrunk layer0 w w' -> closed w' = true.
Proof.
  rewrite !closed_spec. intros Hcl Hs l o' c Ho' Hc.
  destruct (heap_shrinks_lookup_inv _ _ _ _ _ Hs Ho') as (o & Ho & Hso).
  apply (shrinks_edges _ _ _ _ Hso) in Hc.
  destruct (Hcl l o c Ho Hc) as [co Hco].
  destruct (heap_shrinks_lookup _ _ _ _ _ Hs Hco) as (co' & Hco' & _). eauto.
Qed.

Lemma closed_children_stored w l o :
  closed w = true -> heap w !! l = Some o -> children_stored w o = true.
Proof.
  rewrite closed_spec. intros Hcl Ho.
  apply children_stored_Forall, Forall_forall. intros c Hc.
  apply (Hcl l o c Ho). unfold edges. apply elem_of_app. by left.
Qed.

Lemma well_formed_closed rk w : well_formed rk w = true -> closed w = true.
Proof.
  rewrite well_formed_spec, closed_spec. intros H l o c Ho Hc.
  by destruct (H l o Ho c Hc).
Qed.

(** The outcome of one step of the recursion on a stored node with stored
    children. *)
Lemma removeChildrenAndCleanupRecursively_outcome fuel layer0 obj o w :
  heap w !! obj = Some o -> children_stored w o = true ->
  removeChildrenAndCleanupRecursively (S fuel) layer0 obj w
  = match for_of (candidates w layer0 o) (fun c =>
            removeChildrenAndCleanupRecursively fuel layer0 c ;; ret tt) w
    with
    | Ok _ w1 =>
        match finish layer0 obj (candidates w layer0 o) w1 with
        | Ok _ w' => Ok (candidates w layer0 o) w'
        | TypeError => TypeError
        | OutOfFuel => OutOfFuel
        end
    | TypeError => TypeError
    | OutOfFuel => OutOfFuel
    end.
Proof.
  intros Ho Hst. simpl.
  assert (Hlc : layerChildren layer0 obj w
                = Ok (List.filter (inLayer w layer0) (children o)) w)
    by (apply layerChildren_Ok; eauto).
  rewrite (bind_exec _ _ _ _ _ Hlc), (bind_exec _ _ _ _ _ (get_Some _ _ _ Ho)).
  fold (candidates w layer0 o). unfold bind at 1.
  destruct (for_of _ _ w) as [[] w1| |]; [|done|done].
  unfold finish, bind.
  destruct (remove obj _ w1) as [[] w2| |]; [|done|done].
  destruct (get obj w2) as [o2 w3| |]; [|done|done].
  destruct (ofLayer layer0 o2); [|done].
  by destruct (cleanup obj w3) as [[] w4| |].
Qed.

Section NoTypeError.
Variable layer0 : Layer.

Lemma loop_no_TypeError fuel :
  (forall n w, closed w = true -> is_Some (heap w !! n) ->
     removeChildrenAndCleanupRecursively fuel layer0 n w <> TypeError) ->
  forall l w,
    closed w = true -> (forall c, c ∈ l -> is_Some (heap w !! c)) ->
    for_of l (fun c =>
      removeChildrenAndCleanupRecursively fuel layer0 c ;; ret tt) w
    <> TypeError.
Proof.
  intros IH. induction l as [|c l IHl]; intros w Hcl Hl; [done|].
  simpl. unfold bind at 1. unfold bind at 1.
  destruct (removeChildrenAndCleanupRecursively fuel layer0 c w)
    as [r wa| |] eqn:Hrun.
  - unfold ret at 1.
    destruct (summary_all _ _ _ _ _ _ Hrun) as (ta & Hev & _).
    apply IHl.
    + eapply closed_shrunk; [exact Hcl|by eapply evolves_shrunk].
    + intros c' Hc'. eapply evolves_stored; [exact Hev|].
      apply Hl. by right.
  - exfalso. eapply IH; [exact Hcl| |exact Hrun]. apply Hl. by left.
  - done.
Qed.

Lemma run_no_TypeError fuel :
  forall n w, closed w = true -> is_Some (heap w !! n) ->
    removeChildrenAndCleanupRecursively fuel layer0 n w <> TypeError.
Proof.
  induction fuel as [|fuel IH]; intros n w Hcl [o Ho]; [done|].
  rewrite (removeChildrenAndCleanupRecursively_outcome _ _ _ _ _ Ho
             (closed_children_stored _ _ _ Hcl Ho)).
  destruct (for_of _ _ w) as [[] w1| |] eqn:Hloop; [| |done].
  - destruct (loop_summary _ _ (summary_all layer0 fuel) _ _ _ Hloop)
      as (nested & Hev & _).
    destruct (evolves_stored _ _ _ _ n Hev) as [o1 Ho1]; [by eexists|].
    by rewrite (finish_exec _ _ _ _ _ Ho1).
  - exfalso. eapply (loop_no_TypeError fuel IH); [exact Hcl| |exact Hloop].
    intros c Hc. rewrite closed_spec in Hcl.
    eapply Hcl; [exact Ho|]. by eapply candidates_edges.
Qed.
End NoTypeError.

(** On a store of complete nodes in which every child and every link entry
    is a stored node (none is null or undefined), the recursive operation
    never throws a [TypeError], whatever the layers and whether or not the
    scene has cycles: it returns, or its recursion goes on past any given
    depth.  What the code does on incomplete objects is outside the
    model. *)
Theorem recursion_never_throws
  (fuel : nat) (layer0 : Layer) (obj : loc) (o : Object3D) (w : World) :
  closed w = true ->
  heap w !! obj = Some o ->
  removeChildrenAndCleanupRecursively fuel layer0 obj w <> TypeError.
Proof. intros Hcl Ho. apply run_no_TypeError; [done|by eexists]. Qed.

Lemma recursion_never_throws_witness :
  closed scene_link_cycle = true /\
  removeChildrenAndCleanupRecursively 7 layerA 1 scene_link_cycle
  <> TypeError.
Proof.
  split; [reflexivity|].
  apply (recursion_never_throws 7 layerA 1
           (group (Some layerA) (Some [2%positive]) []) scene_link_cycle);
    reflexivity.
Defined.

(** On a cycle of links the recursion runs out of any fuel. *)
Example recursion_link_cycle_diverges fuel :
  removeChildrenAndCleanupRecursively fuel layerA 1 scene_link_cycle
  = OutOfFuel.
Proof.
  destruct (removeChildrenAndCleanupRecursively fuel layerA 1 scene_link_cycle)
    as [r w'| |] eqn:Hrun; [| |done].
  - exfalso. revert Hrun.
    apply (run_acyclic layerA 1 1 2
             (group (Some layerA) (Some [2%positive]) []) scene_link_cycle).
    + constructor.
    + reflexivity.
    + vm_compute. by left.
    + eapply (reach_step _ _ 2 (group (Some layerB) (Some [1%positive]) []));
        [reflexivity|vm_compute; by left|constructor].
  - exfalso. revert Hrun. apply run_no_TypeError; [reflexivity|by eexists].
Qed.

(** ** Chaining operations *)

Lemma filter_sublist (p : loc -> bool) cs : List.filter p cs `sublist_of` cs.
Proof.
  induction cs as [|c cs IH]; simpl; [done|].
  destruct (p c); [by apply sublist_skip|by apply sublist_cons].
Qed.

Lemma shrunk_insert layer0 w w' n o o' :
  heap w !! n = Some o -> shrinks layer0 o o' ->
  heap w' = <[n := o']> (heap w) -> shrunk layer0 w w'.
Proof.
  intros Ho Hs Hw' l. rewrite Hw'. destruct (decide (l = n)) as [->|Hne].
  - rewrite lookup_insert_eq, Ho. by constructor.
  - rewrite lookup_insert_ne by done.
    destruct (heap w !! l); constructor. apply shrinks_refl.
Qed.

Lemma well_formed_shrunk layer0 rk w w' :
  well_formed rk w = true -> shrunk layer0 w w' -> well_formed rk w' = true.
Proof.
  rewrite !well_formed_spec. intros Hwf Hs l o' Ho' c Hc.
  destruct (heap_shrinks_lookup_inv _ _ _ _ _ Hs Ho') as (o & Ho & Hso).
  apply (shrinks_edges _ _ _ _ Hso) in Hc.
  destruct (Hwf l o Ho c Hc) as [[co Hco] Hrk]. split; [|done].
  destruct (heap_shrinks_lookup _ _ _ _ _ Hs Hco) as (co' & Hco' & _).
  eauto.
Qed.

Lemma cleanup_shrunk obj o w w' u :
  heap w !! obj = Some o -> cleanup obj w = Ok u w' ->
  exists l, shrunk l w w'.
Proof.
  intros Ho Hcl. rewrite (cleanup_exec _ _ _ Ho) in Hcl.
  injection Hcl as _ <-.
  exists (default layerA (layer o)).
  eapply shrunk_insert; [exact Ho| |reflexivity].
  unfold shrinks. simpl. split; [done|]. split; [|done].
  destruct (layer o) as [l|] eqn:Hl; [right|by left].
  split; [done|]. unfold ofLayer. rewrite Hl. by apply bool_decide_eq_true_2.
Qed.

Lemma nonrecursive_shrunk layer0 obj w r w' :
  removeChildren layer0 obj w = Ok r w' \/
  removeChildrenAndCleanup layer0 obj w = Ok r w' ->
  shrunk layer0 w w'.
Proof.
  intros Hrun.
  assert (Hst : exists o, heap w !! obj = Some o /\ children_stored w o = true).
  { destruct Hrun as [Hrun|Hrun];
      apply bind_Ok in Hrun as (cs & w0 & Hlc & _);
      apply layerChildren_Ok in Hlc as (o & Ho & Hst & _); eauto. }
  destruct Hst as (o & Ho & Hst).
  pose proof (removeChildren_exec layer0 _ _ _ Ho Hst) as Hrc. simpl in Hrc.
  assert (Hs1 : shrinks layer0 o
            (set_children
               (List.filter (fun c => negb (inLayer w layer0 c)) (children o))
               o)).
  { unfold shrinks. simpl. split; [apply filter_sublist|].
    split; [by left|done]. }
  destruct Hrun as [Hrun|Hrun].
  - rewrite Hrc in Hrun. injection Hrun as <- <-.
    by eapply shrunk_insert.
  - rewrite (removeChildrenAndCleanup_unfold _ _ _ _ _ _ Ho Hrc) in Hrun.
    case_bool_decide as Hid.
    + erewrite cleanup_exec in Hrun; [|apply lookup_insert_eq].
      injection Hrun as <- <-. simpl.
      eapply shrunk_insert; [exact Ho| |by rewrite insert_insert_eq].
      unfold shrinks. simpl. split; [apply filter_sublist|].
      split; [right|done]. split; [done|by apply identity_ofLayer].
    + injection Hrun as <- <-. by eapply shrunk_insert.
Qed.

(** The four operations keep a scene well formed: after any of them has
    returned, the children and link entries of every node are still stored
    nodes and the same rank still decreases along them, so the operations
    can be chained. *)
Theorem operations_keep_well_formed
  (rk : loc -> nat) (layer0 : Layer) (obj : loc) (w : World) :
  well_formed rk w = true ->
  (forall w', cleanup obj w = Ok tt w' -> well_formed rk w' = true) /\
  (forall r w', removeChildren layer0 obj w = Ok r w' ->
     well_formed rk w' = true) /\
  (forall r w', removeChildrenAndCleanup layer0 obj w = Ok r w' ->
     well_formed rk w' = true) /\
  (forall fuel r w',
     removeChildrenAndCleanupRecursively fuel layer0 obj w = Ok r w' ->
     well_formed rk w' = true).
Proof.
  intros Hwf. split; [|split; [|split]].
  - intros w' Hcl. destruct (heap w !! obj) as [o|] eqn:Ho.
    + destruct (cleanup_shrunk _ _ _ _ _ Ho Hcl) as (l & Hs).
      by eapply well_formed_shrunk.
    + unfold cleanup, bind, get in Hcl. by rewrite Ho in Hcl.
  - intros r w' Hrun. eapply well_formed_shrunk; [exact Hwf|].
    eapply nonrecursive_shrunk. by left.
  - intros r w' Hrun. eapply well_formed_shrunk; [exact Hwf|].
    eapply nonrecursive_shrunk. by right.
  - intros fuel r w' Hrun.
    destruct (summary_all _ _ _ _ _ _ Hrun) as (calls & Hev & _).
    by eapply well_formed_evolves.
Qed.

Lemma operations_keep_well_formed_witness :
  (forall w', cleanup 1 scene_diamond = Ok tt w' ->
     well_formed rank_by_loc w' = true) /\
  (forall r w', removeChildren layerA 1 scene_diamond = Ok r w' ->
     well_formed rank_by_loc w' = true) /\
  (forall r w', removeChildrenAndCleanup layerA 1 scene_diamond = Ok r w' ->
     well_formed rank_by_loc w' = true) /\
  (forall fuel r w',
     removeChildrenAndCleanupRecursively fuel layerA 1 scene_diamond
     = Ok r w' ->
     well_formed rank_by_loc w' = true).
Proof.
  apply (operations_keep_well_formed rank_by_loc layerA 1 scene_diamond).
  vm_compute. reflexivity.
Defined.

Lemma detach_app a b cs : detach (a ++ b) cs = detach b (detach a cs).
Proof. unfold detach. apply fold_left_app. Qed.

(** The recursive operation extends [removeChildren]: on the same scene it
    returns the list [removeChildren] returns followed by the entries of
    [N.link], and it leaves N with the children [removeChildren] leaves,
    less the link entries found among them. *)
Theorem recursion_extends_removeChildren
  (rk : loc -> nat) (fuel : nat) (layer0 : Layer) (obj : loc)
  (o : Object3D) (w : World) :
  well_formed rk w = true ->
  heap w !! obj = Some o ->
  rk obj < fuel ->
  exists r w1 r2 w2 o1 o2,
    removeChildren layer0 obj w = Ok r w1 /\
    removeChildrenAndCleanupRecursively fuel layer0 obj w = Ok r2 w2 /\
    r2 = r ++ link_list o /\
    heap w1 !! obj = Some o1 /\ heap w2 !! obj = Some o2 /\
    children o2 = detach (link_list o) (children o1).
Proof.
  intros Hwf Ho Hrk.
  pose proof (well_formed_children_stored _ _ _ _ Hwf Ho) as Hst.
  pose proof (removeChildren_exec layer0 _ _ _ Ho Hst) as Hrc. simpl in Hrc.
  destruct (run_total layer0 rk fuel obj w Hwf) as (r2 & w2 & Hrun);
    [by eexists|done|].
  destruct fuel as [|fuel]; [lia|].
  pose proof Hrun as Hrun'.
  apply removeChildrenAndCleanupRecursively_S in Hrun'
    as (o' & w1 & Ho' & _ & -> & Hloop & Hfin).
  rewrite Ho in Ho'. injection Ho' as <-.
  destruct (loop_summary _ _ (summary_all layer0 fuel) _ _ _ Hloop)
    as (nested & Hev & _ & _ & Hbd).
  destruct (run_root_untouched _ _ _ _ _ _ _ Hwf Ho Hev Hbd) as [_ Ho1].
  rewrite (finish_exec layer0 obj _ _ _ Ho1) in Hfin. injection Hfin as <-.
  eexists _, _, _, _, _, _. split; [exact Hrc|]. split; [exact Hrun|].
  split; [apply candidates_link_list|]. simpl.
  rewrite !lookup_insert_eq. split; [done|]. split; [done|].
  rewrite children_finished, candidates_link_list, detach_app.
  by rewrite detach_filter.
Qed.

Lemma recursion_extends_removeChildren_witness :
  exists r w1 r2 w2 o1 o2,
    removeChildren layerA 1 scene_linked_child = Ok r w1 /\
    removeChildrenAndCleanupRecursively 10 layerA 1 scene_linked_child
    = Ok r2 w2 /\
    r2 = r ++ link_list (group (Some layerA) (Some [2%positive]) [2%positive]) /\
    heap w1 !! 1%positive = Some o1 /\ heap w2 !! 1%positive = Some o2 /\
    children o2
    = detach (link_list (group (Some layerA) (Some [2%positive]) [2%positive]))
        (children o1).
Proof.
  apply (recursion_extends_removeChildren rank_by_loc 10 layerA 1
           (group (Some layerA) (Some [2%positive]) [2%positive])
           scene_linked_child).
  - vm_compute. reflexivity.
  - reflexivity.
  - vm_compute. lia.
Defined.

(** * Properties of the elevation measure widget *)

Section ElevationMeasureProperties.
Import ElevationMeasure.

(** ** How each method runs *)

Section WidgetRuns.
Context {E : Engine}.

Lemma since_extend s s' new : calls s' = new ++ calls s -> since s s' = new.
Proof.
  intros H. unfold since. rewrite H, length_app.
  replace (length new + length (calls s) - length (calls s)) with (length new) by lia.
  apply take_app_length.
Qed.

Lemma registrations_app a b :
  registrations (a ++ b) = registrations a ++ registrations b.
Proof. apply omap_app. Qed.

Lemma unregistrations_app a b :
  unregistrations (a ++ b) = unregistrations a ++ unregistrations b.
Proof. apply omap_app. Qed.

Lemma settled_refl s : settled s s.
Proof. unfold settled. repeat split. exists []. auto. Qed.

Lemma settled_trans s1 s2 s3 : settled s1 s2 -> settled s2 s3 -> settled s1 s3.
Proof.
  unfold settled.
  intros (A1 & A2 & A3 & A4 & A5 & A6 & A7 & A8 & n1 & C1 & R1 & U1)
         (B1 & B2 & B3 & B4 & B5 & B6 & B7 & B8 & n2 & C2 & R2 & U2).
  repeat split; try congruence.
  exists (n2 ++ n1). rewrite C2, C1, app_assoc, registrations_app, unregistrations_app, R1, R2, U1, U2.
  auto.
Qed.

Lemma same_object_refl (p : Points) : same_object p p.
Proof. repeat split. Qed.

Lemma points_kept_refl (p : option Points) : points_kept p p.
Proof. intros q Hq. exists q. split; [assumption | apply same_object_refl]. Qed.

Lemma points_kept_trans (a b c : option Points) :
  points_kept a b -> points_kept b c -> points_kept a c.
Proof.
  intros H1 H2 p Hp. destruct (H1 p Hp) as (p' & Hp' & S1 & S2 & S3).
  destruct (H2 p' Hp') as (p'' & Hp'' & T1 & T2 & T3).
  exists p''. split; [assumption|]. repeat split; congruence.
Qed.

Lemma replicate_middle {A} n (x : A) l :
  replicate n x ++ x :: l = x :: replicate n x ++ l.
Proof. induction n as [|n IH]; simpl; [reflexivity | rewrite IH; reflexivity]. Qed.

Lemma Array_sort_snoc l o : Array_sort (l ++ [o]) = sort_insert o (Array_sort l).
Proof. unfold Array_sort. rewrite fold_left_app. reflexivity. Qed.

Lemma sort_insert_head o sorted :
  exists rest,
    sort_insert o sorted =
    match sorted with
    | [] => o
    | c :: _ => if farther c o then o else c
    end :: rest.
Proof.
  destruct sorted as [|c rest]; simpl; [eauto|].
  destruct (farther c o); eauto.
Qed.

Lemma Array_sort_cases l :
  (l = [] /\ Array_sort l = []) \/
  (exists closest rest, Array_sort l = closest :: rest /\ (length l =? 0)%nat = false).
Proof.
  destruct l as [|x l] using rev_ind; [left; split; reflexivity|]. right.
  rewrite Array_sort_snoc.
  destruct (sort_insert_head x (Array_sort l)) as [rest ->].
  eexists _, _. split; [reflexivity|]. rewrite length_app. simpl.
  apply Nat.eqb_neq. lia.
Qed.

Lemma sort_out_run objs acc tm s :
  sort_out objs acc tm s =
  Returns (acc ++ geometric objs,
           match tile_mesh objs with Some o => Some o | None => tm end)
          (set_calls (warnings objs ++ calls s) s).
Proof.
  revert acc tm s. induction objs as [|o objs IH]; intros acc tm s.
  - simpl. rewrite app_nil_r. destruct s; reflexivity.
  - simpl. unfold geometric, tile_mesh, warnings, unsupported in *. simpl.
    destruct (distance o) as [d|] eqn:Hd; simpl.
    + rewrite IH, <- app_assoc. reflexivity.
    + destruct (isTileMesh o) eqn:Ht; simpl.
      * rewrite IH. rewrite last_cons.
        destruct (last _); reflexivity.
      * unfold andThen, invoke, write. rewrite IH. simpl.
        rewrite replicate_middle. reflexivity.
Qed.

Lemma warnings_quiet objs :
  registrations (warnings objs) = [] /\ unregistrations (warnings objs) = [] /\
  List.filter is_SceneAdd (warnings objs) = [].
Proof.
  unfold warnings. induction (length (unsupported objs)) as [|n IH]; simpl; auto.
Qed.

Lemma onMouseUp_guard ev s :
  button ev <> 0%Z \/ drag s = true -> onMouseUp ev s = Returns tt s.
Proof.
  intros H. unfold onMouseUp, andThen, read, pure.
  destruct H as [H | H].
  - apply Z.eqb_neq in H. rewrite H. reflexivity.
  - rewrite H, orb_true_r. reflexivity.
Qed.

Lemma updateLabel_run text v s l :
  labelObj s = Some l ->
  updateLabel text v s =
  Returns tt (set_calls (UpdateMatrixWorld (label_id l) :: calls s)
                (set_labelObj (Some {| label_id := label_id l;
                                       label_div := label_div l;
                                       label_inner := label_inner l;
                                       textContent := text;
                                       label_position := Some v |}) s)).
Proof.
  intros H. destruct s; simpl in H; subst. reflexivity.
Qed.

Lemma updateLabel_throws text v s :
  labelObj s = None -> updateLabel text v s = Throws TypeErr.
Proof. intros H. destruct s; simpl in H; subst. reflexivity. Qed.

(** The state in which [onMouseUp] reads the elevation, and what it does
    from there. *)
Lemma onMouseUp_phases ev s c :
  button ev = 0%Z -> drag s = false ->
  pickCoordinates (calls s) (Some ev) = Some c ->
  exists s1 pt history,
    settled s s1 /\ labelObj s1 = labelObj s /\ drag s1 = drag s /\ frugal s s1 /\
    clickPoint s1 = Some pt /\
    position_array pt = toFloat32Array (toVector3 c) /\
    calls s1 = PickObjectsAt ev :: history /\
    (exists h, history = h ++ calls s) /\
    List.filter (fun c => bool_decide (c = GetElevationValueAt)) (since s s1) = [] /\
    List.filter (fun c => bool_decide (c = ConsoleWarn)) (since s s1) = [] /\
    onMouseUp ev s =
    match pickObjectsAt history ev with
    | None => updateLabel (noElevationText s) (toVector3 c) s1
    | Some objs =>
        let s2 := set_calls (warnings objs ++ calls s1) s1 in
        match Array_sort (geometric objs) with
        | closestObj :: _ =>
            match toFixed (altitude (point closestObj)) (decimals s) with
            | Some text => updateLabel (text ++ " m")%string (toVector3 c) s2
            | None => Throws RangeErr
            end
        | [] =>
            match tile_mesh objs with
            | Some _ =>
                let s3 := set_calls (GetElevationValueAt :: calls s2) s2 in
                match getElevationValueAt (calls s2) c with
                | ElevationNumber n =>
                    if isNaN n
                    then updateLabel (noElevationText s) (toVector3 c) s3
                    else match toFixed n (decimals s) with
                         | Some text => updateLabel (text ++ " m")%string (toVector3 c) s3
                         | None => Throws RangeErr
                         end
                | _ => updateLabel (noElevationText s) (toVector3 c) s3
                end
            | None => updateLabel (noElevationText s) (toVector3 c) s2
            end
        end
    end.
Proof.
  intros Hb Hd Hc.
  assert (Hrun : forall s1 history,
    (match clickPoint s with
     | Some p0 =>
         s1 = set_calls (PickObjectsAt ev :: NotifyChange true ::
                         PickCoordinates (Some ev) :: calls s)
                (set_clickPoint
                   (Some (move_to (toFloat32Array (toVector3 c)) p0)) s) /\
         history = NotifyChange true :: PickCoordinates (Some ev) :: calls s
     | None =>
         s1 = set_calls (PickObjectsAt ev :: NotifyChange true ::
                         SceneAdd (Pos.succ (next_object s)) ::
                         UpdateMatrixWorld (Pos.succ (next_object s)) ::
                         PickCoordinates (Some ev) :: calls s)
                (set_clickPoint
                   (Some (point_object (Pos.succ (next_object s)) (next_object s)
                            (clickPointMaterial s)
                            (toFloat32Array (toVector3 c))))
                   (set_next_object (Pos.succ (Pos.succ (next_object s))) s)) /\
         history = NotifyChange true ::
                   SceneAdd (Pos.succ (next_object s)) ::
                   UpdateMatrixWorld (Pos.succ (next_object s)) ::
                   PickCoordinates (Some ev) :: calls s
     end) ->
    onMouseUp ev s =
    match pickObjectsAt history ev with
    | None => updateLabel (noElevationText s) (toVector3 c) s1
    | Some objs =>
        let s2 := set_calls (warnings objs ++ calls s1) s1 in
        match Array_sort (geometric objs) with
        | closestObj :: _ =>
            match toFixed (altitude (point closestObj)) (decimals s) with
            | Some text => updateLabel (text ++ " m")%string (toVector3 c) s2
            | None => Throws RangeErr
            end
        | [] =>
            match tile_mesh objs with
            | Some _ =>
                let s3 := set_calls (GetElevationValueAt :: calls s2) s2 in
                match getElevationValueAt (calls s2) c with
                | ElevationNumber n =>
                    if isNaN n
                    then updateLabel (noElevationText s) (toVector3 c) s3
                    else match toFixed n (decimals s) with
                         | Some text => updateLabel (text ++ " m")%string (toVector3 c) s3
                         | None => Throws RangeErr
                         end
                | _ => updateLabel (noElevationText s) (toVector3 c) s3
                end
            | None => updateLabel (noElevationText s) (toVector3 c) s2
            end
        end
    end).
  { intros s1 history Hs1. unfold onMouseUp.
    unfold andThen at 1. unfold read at 1. rewrite Hd, Hb. simpl.
    cbv [andThen view_pickCoordinates view_pickObjectsAt read write invoke pure
         deref throw new_object DEMUtils_getElevationValueAt metres].
    simpl. rewrite Hc. simpl.
    destruct (clickPoint s) as [p0|]; destruct Hs1 as [-> ->]; simpl.
    - destruct (pickObjectsAt _ ev) as [objs|] eqn:Hp; simpl; [|reflexivity].
      rewrite sort_out_run. simpl.
      destruct (Array_sort_cases (geometric objs))
        as [[Hg Hs] | (closest & rest & Hs & Hlen)].
      + rewrite Hg. simpl.
        destruct (tile_mesh objs); simpl; [|reflexivity].
        destruct (getElevationValueAt _ c); simpl; try reflexivity.
        destruct (isNaN n); simpl; [reflexivity|].
        destruct (toFixed n (decimals s)); reflexivity.
      + rewrite Hlen, Hs. simpl.
        destruct (toFixed _ (decimals s)); reflexivity.
    - destruct (pickObjectsAt _ ev) as [objs|] eqn:Hp; simpl; [|reflexivity].
      rewrite sort_out_run. simpl.
      destruct (Array_sort_cases (geometric objs))
        as [[Hg Hs] | (closest & rest & Hs & Hlen)].
      + rewrite Hg. simpl.
        destruct (tile_mesh objs); simpl; [|reflexivity].
        destruct (getElevationValueAt _ c); simpl; try reflexivity.
        destruct (isNaN n); simpl; [reflexivity|].
        destruct (toFixed n (decimals s)); reflexivity.
      + rewrite Hlen, Hs. simpl.
        destruct (toFixed _ (decimals s)); reflexivity. }
  destruct (clickPoint s) as [p0|] eqn:Hcp.
  - eexists _, (move_to (toFloat32Array (toVector3 c)) p0), _.
    repeat match goal with |- _ /\ _ => split end;
      [ | | | | | | | | | | apply Hrun; split; reflexivity ].
    + unfold settled; simpl. repeat split.
      exists [PickObjectsAt ev; NotifyChange true; PickCoordinates (Some ev)]. auto.
    + reflexivity.
    + reflexivity.
    + unfold frugal. rewrite (since_extend _ _ [PickObjectsAt ev; NotifyChange true; PickCoordinates (Some ev)]) by reflexivity.
      simpl. rewrite Hcp. repeat split.
      * destruct (movePoint s); reflexivity.
      * apply points_kept_refl.
      * intros p Hp. injection Hp as <-. eexists; split; [reflexivity|]. repeat split.
    + reflexivity.
    + reflexivity.
    + reflexivity.
    + exists [NotifyChange true; PickCoordinates (Some ev)]. reflexivity.
    + rewrite (since_extend _ _ [PickObjectsAt ev; NotifyChange true; PickCoordinates (Some ev)]) by reflexivity.
      reflexivity.
    + rewrite (since_extend _ _ [PickObjectsAt ev; NotifyChange true; PickCoordinates (Some ev)]) by reflexivity.
      reflexivity.
  - eexists _, (point_object (Pos.succ (next_object s)) (next_object s)
                            (clickPointMaterial s)
                            (toFloat32Array (toVector3 c))), _.
    repeat match goal with |- _ /\ _ => split end;
      [ | | | | | | | | | | apply Hrun; split; reflexivity ].
    + unfold settled; simpl. repeat split.
      exists [PickObjectsAt ev; NotifyChange true;
              SceneAdd (Pos.succ (next_object s));
              UpdateMatrixWorld (Pos.succ (next_object s));
              PickCoordinates (Some ev)]. auto.
    + reflexivity.
    + reflexivity.
    + unfold frugal. rewrite (since_extend _ _ [PickObjectsAt ev; NotifyChange true;
              SceneAdd (Pos.succ (next_object s));
              UpdateMatrixWorld (Pos.succ (next_object s));
              PickCoordinates (Some ev)]) by reflexivity.
      simpl. rewrite Hcp. repeat split.
      * destruct (movePoint s); reflexivity.
      * apply points_kept_refl.
      * intros p Hp. discriminate.
    + reflexivity.
    + reflexivity.
    + reflexivity.
    + eexists [_; _; _; _]. reflexivity.
    + rewrite (since_extend _ _ [PickObjectsAt ev; NotifyChange true;
              SceneAdd (Pos.succ (next_object s));
              UpdateMatrixWorld (Pos.succ (next_object s));
              PickCoordinates (Some ev)]) by reflexivity.
      reflexivity.
    + rewrite (since_extend _ _ [PickObjectsAt ev; NotifyChange true;
              SceneAdd (Pos.succ (next_object s));
              UpdateMatrixWorld (Pos.succ (next_object s));
              PickCoordinates (Some ev)]) by reflexivity.
      reflexivity.
Qed.

Lemma set_calls_same s : set_calls (calls s) s = s.
Proof. destruct s; reflexivity. Qed.

Lemma onMouseUp_no_pick ev s :
  button ev = 0%Z -> drag s = false ->
  pickCoordinates (calls s) (Some ev) = None ->
  onMouseUp ev s = Throws TypeErr.
Proof.
  intros Hb Hd Hc. unfold onMouseUp.
  unfold andThen at 1. unfold read at 1. rewrite Hd, Hb. simpl.
  cbv [andThen view_pickCoordinates read write invoke pure deref throw].
  simpl. rewrite Hc. reflexivity.
Qed.

Lemma frugal_refl s : frugal s s.
Proof.
  unfold frugal. rewrite (since_extend s s []) by reflexivity.
  repeat split; try apply points_kept_refl.
  simpl. destruct (movePoint s), (clickPoint s); reflexivity.
Qed.

Lemma made_trans (a b c : option Points) :
  points_kept a b -> points_kept b c -> made a b + made b c = made a c.
Proof.
  intros H1 H2. destruct a as [pa|], b as [pb|], c as [pc|]; simpl; try reflexivity.
  - destruct (H1 pa eq_refl) as (? & ? & _). discriminate.
  - destruct (H2 pb eq_refl) as (? & ? & _). discriminate.
Qed.

Lemma frugal_trans s1 s2 s3 :
  settled s1 s2 -> settled s2 s3 -> frugal s1 s2 -> frugal s2 s3 -> frugal s1 s3.
Proof.
  intros (_ & _ & _ & _ & _ & _ & _ & _ & n1 & C1 & _)
         (_ & _ & _ & _ & _ & _ & _ & _ & n2 & C2 & _)
         (A & Am & Ac) (B & Bm & Bc).
  rewrite (since_extend _ _ _ C1) in A. rewrite (since_extend _ _ _ C2) in B.
  unfold frugal. rewrite (since_extend s1 s3 (n2 ++ n1)) by (rewrite C2, C1, app_assoc; reflexivity).
  repeat split; eauto using points_kept_trans.
  rewrite List.filter_app, length_app, A, B.
  rewrite <- (made_trans _ _ _ Am Bm), <- (made_trans _ _ _ Ac Bc). lia.
Qed.

(** The last step of [onMouseUp]: the label is updated in a state that
    differs from [s1] by some calls. *)
Lemma label_step text v s1 extra s' :
  registrations extra = [] -> unregistrations extra = [] ->
  List.filter is_SceneAdd extra = [] ->
  updateLabel text v (set_calls (extra ++ calls s1) s1) = Returns tt s' ->
  settled s1 s' /\ frugal s1 s' /\ drag s' = drag s1 /\
  shown s' = Some (text, Some v) /\
  exists l, labelObj s1 = Some l /\
            calls s' = UpdateMatrixWorld (label_id l) :: extra ++ calls s1.
Proof.
  intros Hr Hu Ha H.
  destruct (labelObj s1) as [l|] eqn:Hl.
  - rewrite (updateLabel_run _ _ _ l) in H by exact Hl. injection H as <-.
    simpl. split; [|split; [|split; [|split]]].
    + unfold settled; simpl. rewrite Hl. repeat split.
      exists (UpdateMatrixWorld (label_id l) :: extra). simpl. rewrite Hr, Hu. auto.
    + unfold frugal.
      rewrite (since_extend _ _ (UpdateMatrixWorld (label_id l) :: extra)) by reflexivity.
      simpl. rewrite Ha. repeat split; try apply points_kept_refl.
      simpl. destruct (movePoint s1), (clickPoint s1); reflexivity.
    + reflexivity.
    + reflexivity.
    + exists l. split; reflexivity.
  - rewrite updateLabel_throws in H by exact Hl. discriminate.
Qed.


Lemma onMouseUp_step ev s s' :
  onMouseUp ev s = Returns tt s' ->
  settled s s' /\ frugal s s' /\ drag s' = drag s.
Proof.
  intros H.
  destruct (decide (button ev = 0%Z)) as [Hb|Hb];
    [destruct (drag s) eqn:Hd|].
  - rewrite onMouseUp_guard in H by auto. injection H as <-.
    auto using settled_refl, frugal_refl.
  - destruct (pickCoordinates (calls s) (Some ev)) as [c|] eqn:Hc.
    + destruct (onMouseUp_phases ev s c Hb Hd Hc)
        as (s1 & pt & history & Hs & Hl & Hd1 & Hf & _ & _ & _ & _ & _ & _ & Hrun).
      rewrite Hrun in H. clear Hrun. rewrite Hd in Hd1.
      assert (Hfin : forall text extra,
                 registrations extra = [] -> unregistrations extra = [] ->
                 List.filter is_SceneAdd extra = [] ->
                 updateLabel text (toVector3 c) (set_calls (extra ++ calls s1) s1)
                 = Returns tt s' ->
                 settled s s' /\ frugal s s' /\ drag s' = false).
      { intros text extra Hr Hu Ha Hup.
        destruct (label_step _ _ _ _ _ Hr Hu Ha Hup) as (S1 & F1 & D1 & _).
        split; [eapply settled_trans; eauto|].
        split; [eapply frugal_trans; eauto|]. congruence. }
      destruct (pickObjectsAt history ev) as [objs|].
      * destruct (warnings_quiet objs) as (Wr & Wu & Wa).
        simpl in H. destruct (Array_sort (geometric objs)).
        -- destruct (tile_mesh objs).
           ++ assert (Hfin' : forall text,
                updateLabel text (toVector3 c)
                  (set_calls (GetElevationValueAt :: warnings objs ++ calls s1) s1)
                = Returns tt s' -> settled s s' /\ frugal s s' /\ drag s' = false).
              { intros text. apply (Hfin text (GetElevationValueAt :: warnings objs)); simpl; auto. }
              destruct (getElevationValueAt _ c); try (eapply Hfin'; exact H).
              destruct (isNaN n); [eapply Hfin'; exact H|].
              destruct (toFixed n (decimals s)); [eapply Hfin'; exact H | discriminate].
           ++ eapply Hfin; eauto.
        -- destruct (toFixed _ (decimals s)); [eapply Hfin; eauto | discriminate].
      * rewrite <- (set_calls_same s1) in H. apply (Hfin _ [] eq_refl eq_refl eq_refl H).
    + rewrite onMouseUp_no_pick in H by auto. discriminate.
  - rewrite onMouseUp_guard in H by auto. injection H as <-.
    auto using settled_refl, frugal_refl.
Qed.

Lemma onMouseMove_as_onZoom ev s :
  onMouseMove ev s = onZoom (set_previousMouseMoveEvent (Some ev) (set_drag true s)).
Proof. reflexivity. Qed.

Lemma onZoom_throws s :
  pickCoordinates (calls s) (previousMouseMoveEvent s) = None ->
  onZoom s = Throws TypeErr.
Proof.
  intros Hc. unfold onZoom.
  cbv [andThen view_pickCoordinates read write invoke pure deref throw].
  simpl. rewrite Hc. reflexivity.
Qed.

Lemma onZoom_run s c :
  pickCoordinates (calls s) (previousMouseMoveEvent s) = Some c ->
  exists s' pt,
    onZoom s = Returns tt s' /\
    settled s s' /\ frugal s s' /\ labelObj s' = labelObj s /\
    drag s' = drag s /\
    previousMouseMoveEvent s' = previousMouseMoveEvent s /\
    movePoint s' = Some pt /\
    position_array pt = toFloat32Array (toVector3 c).
Proof.
  intros Hc. unfold onZoom.
  cbv [andThen view_pickCoordinates read write invoke pure deref throw new_object].
  simpl. rewrite Hc. simpl.
  destruct (movePoint s) as [p0|] eqn:Hmp; simpl.
  - eexists _, _. split; [reflexivity|]. simpl.
    split; [|split; [|repeat split]].
    + unfold settled; simpl. repeat split.
      exists [NotifyChange false; PickCoordinates (previousMouseMoveEvent s)]. auto.
    + unfold frugal.
      rewrite (since_extend _ _ [NotifyChange false; PickCoordinates (previousMouseMoveEvent s)])
        by reflexivity.
      simpl. rewrite Hmp. repeat split.
      * destruct (clickPoint s); reflexivity.
      * intros p Hp. injection Hp as <-. eexists; split; [reflexivity|]. repeat split.
      * apply points_kept_refl.
  - eexists _, _. split; [reflexivity|]. simpl.
    split; [|split; [|repeat split]].
    + unfold settled; simpl. repeat split.
      exists [NotifyChange false; SceneAdd (Pos.succ (next_object s));
              PickCoordinates (previousMouseMoveEvent s)]. auto.
    + unfold frugal.
      rewrite (since_extend _ _ [NotifyChange false; SceneAdd (Pos.succ (next_object s));
              PickCoordinates (previousMouseMoveEvent s)])
        by reflexivity.
      simpl. rewrite Hmp. repeat split.
      * destruct (clickPoint s); reflexivity.
      * intros p Hp. discriminate.
      * apply points_kept_refl.
Qed.

Lemma onZoom_step s s' :
  onZoom s = Returns tt s' ->
  settled s s' /\ frugal s s' /\ drag s' = drag s.
Proof.
  intros H. destruct (pickCoordinates (calls s) (previousMouseMoveEvent s)) as [c|] eqn:Hc.
  - destruct (onZoom_run s c Hc) as (s1 & pt & H1 & Hs & Hf & _ & Hd & _).
    rewrite H1 in H. injection H as <-. auto.
  - rewrite onZoom_throws in H by exact Hc. discriminate.
Qed.

Lemma moved_settled ev s :
  settled s (set_previousMouseMoveEvent (Some ev) (set_drag true s)) /\
  frugal s (set_previousMouseMoveEvent (Some ev) (set_drag true s)).
Proof.
  split.
  - unfold settled; simpl. repeat split. exists []. auto.
  - unfold frugal. rewrite (since_extend _ _ []) by reflexivity. simpl.
    repeat split; try apply points_kept_refl.
    destruct (movePoint s), (clickPoint s); reflexivity.
Qed.

Lemma onMouseMove_step ev s s' :
  onMouseMove ev s = Returns tt s' ->
  settled s s' /\ frugal s s' /\ drag s' = true.
Proof.
  rewrite onMouseMove_as_onZoom. intros H.
  destruct (onZoom_step _ _ H) as (Hs & Hf & Hd).
  destruct (moved_settled ev s) as (Hs0 & Hf0).
  split; [eapply settled_trans; eauto|].
  split; [eapply frugal_trans; eauto|]. exact Hd.
Qed.

Lemma onMouseDown_run s : onMouseDown s = Returns tt (set_drag false s).
Proof. reflexivity. Qed.

Lemma onMouseDown_step s :
  settled s (set_drag false s) /\ frugal s (set_drag false s).
Proof.
  split.
  - unfold settled; simpl. repeat split. exists []. auto.
  - unfold frugal. rewrite (since_extend _ _ []) by reflexivity. simpl.
    repeat split; try apply points_kept_refl.
    destruct (movePoint s), (clickPoint s); reflexivity.
Qed.

Lemma onWindowResize_run s r :
  labelRenderer s = Some r ->
  onWindowResize s = Returns tt (set_calls (RendererSetSize r :: calls s) s).
Proof.
  intros H. unfold onWindowResize.
  cbv [andThen read deref pure invoke write]. rewrite H. reflexivity.
Qed.

Lemma onWindowResize_throws s :
  labelRenderer s = None -> onWindowResize s = Throws TypeErr.
Proof.
  intros H. unfold onWindowResize.
  cbv [andThen read deref throw]. rewrite H. reflexivity.
Qed.

Lemma renderLabel_run s r :
  labelRenderer s = Some r ->
  renderLabel s = Returns tt (set_calls (RendererRender r :: calls s) s).
Proof.
  intros H. unfold renderLabel.
  cbv [andThen read deref pure invoke write]. rewrite H. reflexivity.
Qed.

Lemma renderLabel_throws s :
  labelRenderer s = None -> renderLabel s = Throws TypeErr.
Proof.
  intros H. unfold renderLabel.
  cbv [andThen read deref throw]. rewrite H. reflexivity.
Qed.

Lemma logged_step s c :
  registration c = None -> unregistration c = None -> is_SceneAdd c = false ->
  settled s (set_calls (c :: calls s) s) /\ frugal s (set_calls (c :: calls s) s) /\
  drag (set_calls (c :: calls s) s) = drag s.
Proof.
  intros Hr Hu Ha. split; [|split].
  - unfold settled; simpl. repeat split. exists [c]. simpl. rewrite Hr, Hu. auto.
  - unfold frugal. rewrite (since_extend _ _ [c]) by reflexivity. simpl. rewrite Ha.
    repeat split; try apply points_kept_refl.
    simpl. destruct (movePoint s), (clickPoint s); reflexivity.
  - reflexivity.
Qed.

(** What every event but a click on the button keeps. *)
Lemma handle_step i s s' :
  i <> ButtonClick -> handle i s = Returns tt s' ->
  settled s s' /\ frugal s s' /\
  (i <> MouseDown -> drag s = true -> drag s' = true).
Proof.
  intros Hi H. destruct i; simpl in H; try congruence.
  - rewrite onMouseDown_run in H. injection H as <-.
    destruct (onMouseDown_step s). split; [|split]; auto.
  - destruct (onMouseMove_step _ _ _ H) as (? & ? & ?). auto.
  - destruct (onMouseUp_step _ _ _ H) as (? & ? & ?). split; [|split]; auto.
    intros _ Hd. congruence.
  - destruct (onZoom_step _ _ H) as (? & ? & ?). split; [|split]; auto.
    intros _ Hd. congruence.
  - destruct (labelRenderer s) as [r|] eqn:Hr.
    + rewrite (onWindowResize_run _ r Hr) in H. injection H as <-.
      destruct (logged_step s (RendererSetSize r)) as (? & ? & ?); auto.
    + rewrite onWindowResize_throws in H by exact Hr. discriminate.
  - destruct (labelRenderer s) as [r|] eqn:Hr.
    + rewrite (renderLabel_run _ r Hr) in H. injection H as <-.
      destruct (logged_step s (RendererRender r)) as (? & ? & ?); auto.
    + rewrite renderLabel_throws in H by exact Hr. discriminate.
Qed.

Lemma handle_all_cons i inputs s s' :
  handle_all (i :: inputs) s = Returns tt s' ->
  exists s1, handle i s = Returns tt s1 /\ handle_all inputs s1 = Returns tt s'.
Proof.
  simpl. unfold andThen. destruct (handle i s) as [[] s1|]; [eauto | discriminate].
Qed.

Lemma handle_all_step inputs s s' :
  ButtonClick ∉ inputs -> handle_all inputs s = Returns tt s' ->
  settled s s' /\ frugal s s' /\
  (MouseDown ∉ inputs -> drag s = true -> drag s' = true).
Proof.
  revert s. induction inputs as [|i inputs IH]; intros s Hn H.
  - injection H as <-. auto using settled_refl, frugal_refl.
  - apply handle_all_cons in H as (s1 & H1 & H2).
    apply not_elem_of_cons in Hn as [Hi Hn].
    destruct (handle_step _ _ _ (not_eq_sym Hi) H1) as (S1 & F1 & D1).
    destruct (IH _ Hn H2) as (S2 & F2 & D2).
    split; [eapply settled_trans; eauto|].
    split; [eapply frugal_trans; eauto|].
    intros Hm Hd. apply not_elem_of_cons in Hm as [Hm1 Hm2]. auto.
Qed.

Lemma removePoints_run s :
  removePoints s =
  Returns tt
    (set_calls (PointTextureDispose ::
                removal (clickPoint s) (clickPointMaterial s) ++
                removal (movePoint s) (movePointMaterial s) ++ calls s)
       (set_clickPoint None (set_movePoint None s))).
Proof.
  unfold removePoints. cbv [andThen read write invoke pure].
  destruct s as [a mp cp lr lo d pe dec net mm cm h nx cs]; simpl.
  destruct mp, cp; reflexivity.
Qed.

Lemma switch_on s :
  active s = false ->
  exists s' r l new,
    onButtonClick s = Returns tt s' /\
    active s' = true /\ labelRenderer s' = Some r /\ labelObj s' = Some l /\
    drag s' = drag s /\ decimals s' = decimals s /\
    movePoint s' = movePoint s /\ clickPoint s' = clickPoint s /\
    calls s' = new ++ calls s /\
    registrations new =
      [(Window "resize", onWindowResizeFn (handlers s'));
       (FrameRequesters, renderLabelFn (handlers s'));
       (Controls, onZoomFn (handlers s'));
       (Window "mouseup", onMouseUpFn (handlers s'));
       (Window "mousemove", onMouseMoveFn (handlers s'));
       (Window "mousedown", onMouseDownFn (handlers s'))] /\
    unregistrations new = [] /\
    List.filter is_resize_removal new = [] /\
    length (List.filter is_resize_addition new) = 1.
Proof.
  intros Ha.
  destruct s as [a mp cp lr lo d pe dec net mm cm h nx cs]; simpl in *. subst a.
  eexists _, _, _,
    [WindowAddEventListener "resize" _; SceneAdd _; ElementAppendChild _ _;
     ElementStyle _ _ _; ElementClassListAdd _ _; AddFrameRequester _;
     BodyAppendChild _; ElementStyle _ _ _; ElementStyle _ _ _; RendererSetSize _;
     ControlsAddEventListener _; WindowAddEventListener "mouseup" _;
     WindowAddEventListener "mousemove" _; WindowAddEventListener "mousedown" _;
     ButtonClassListAdd _].
  split.
  - cbv -[bind_this Pos.succ]. reflexivity.
  - repeat split; reflexivity.
Qed.

Lemma removal_quiet p m :
  registrations (removal p m) = [] /\ unregistrations (removal p m) = [] /\
  List.filter is_resize_removal (removal p m) = [] /\
  List.filter is_resize_addition (removal p m) = [].
Proof. destruct p; simpl; auto. Qed.

Lemma switch_off s r :
  active s = true -> labelRenderer s = Some r ->
  exists s' new,
    onButtonClick s = Returns tt s' /\
    active s' = false /\ labelRenderer s' = None /\ labelObj s' = None /\
    movePoint s' = None /\ clickPoint s' = None /\
    handlers s' = handlers s /\ drag s' = drag s /\
    calls s' = new ++ calls s /\
    registrations new = [] /\
    unregistrations new =
      [(FrameRequesters, renderLabelFn (handlers s));
       (Controls, onZoomFn (handlers s));
       (Window "mouseup", onMouseUpFn (handlers s));
       (Window "mousemove", onMouseMoveFn (handlers s));
       (Window "mousedown", onMouseDownFn (handlers s))] /\
    List.filter is_resize_removal new = [] /\
    List.filter is_resize_addition new = [].
Proof.
  intros Ha Hr.
  destruct s as [a mp cp lr lo d pe dec net mm cm h nx cs]; simpl in *. subst a lr.
  set (new := [NotifyChange false; SceneRemove (option_map label_id lo);
      RemoveFrameRequester (renderLabelFn h); BodyRemoveChild r;
      PointTextureDispose] ++
     removal cp cm ++ removal mp mm ++
     [ControlsRemoveEventListener (onZoomFn h);
      WindowRemoveEventListener "mouseup" (onMouseUpFn h);
      WindowRemoveEventListener "mousemove" (onMouseMoveFn h);
      WindowRemoveEventListener "mousedown" (onMouseDownFn h);
      ButtonClassListRemove "widget-button-active"]).
  exists {| active := false; movePoint := None; clickPoint := None;
            labelRenderer := None; labelObj := None; drag := d;
            previousMouseMoveEvent := pe; decimals := dec;
            noElevationText := net; movePointMaterial := mm;
            clickPointMaterial := cm; handlers := h; next_object := nx;
            calls := new ++ cs |}, new.
  subst new.
  split.
  - destruct mp, cp; cbv -[bind_this Pos.succ]; reflexivity.
  - destruct mp, cp; repeat split; reflexivity.
Qed.

Lemma switch_off_throws s :
  active s = true -> labelRenderer s = None ->
  onButtonClick s = Throws TypeErr.
Proof.
  intros Ha Hr.
  destruct s as [a mp cp lr lo d pe dec net mm cm h nx cs]; simpl in *. subst a lr.
  destruct mp, cp; reflexivity.
Qed.

Lemma handle_drag i s s' :
  i <> MouseDown -> handle i s = Returns tt s' -> drag s = true -> drag s' = true.
Proof.
  intros Hi H Hd. destruct (decide (i = ButtonClick)) as [->|Hc].
  - simpl in H. destruct (active s) eqn:Ha.
    + destruct (labelRenderer s) as [r|] eqn:Hr.
      * destruct (switch_off s r Ha Hr) as (s1 & new & H1 & _ & _ & _ & _ & _ & _ & D & _).
        rewrite H1 in H. injection H as <-. congruence.
      * rewrite switch_off_throws in H by assumption. discriminate.
    + destruct (switch_on s Ha) as (s1 & r & l & new & H1 & _ & _ & _ & D & _).
      rewrite H1 in H. injection H as <-. congruence.
  - destruct (handle_step _ _ _ Hc H) as (_ & _ & D). auto.
Qed.

Lemma handle_all_drag inputs s s' :
  MouseDown ∉ inputs -> handle_all inputs s = Returns tt s' ->
  drag s = true -> drag s' = true.
Proof.
  revert s. induction inputs as [|i inputs IH]; intros s Hn H Hd.
  - injection H as <-. exact Hd.
  - apply handle_all_cons in H as (s1 & H1 & H2).
    apply not_elem_of_cons in Hn as [Hi Hn].
    eapply IH; eauto. eapply handle_drag; eauto.
Qed.

(** ** The closest pick *)

Lemma consistent_on_subseteq l l' :
  l' ⊆ l -> consistent_on l -> consistent_on l'.
Proof.
  intros Hsub [Has Htr]. split.
  - intros a b Ha Hb. apply Has; auto.
  - intros a b c Ha Hb Hc. apply Htr; auto.
Qed.

(** The head of the sorted picks is the first of the picks from which no
    other is strictly closer. *)
Lemma Array_sort_head l :
  consistent_on l -> l <> [] ->
  exists before closest after rest,
    l = before ++ closest :: after /\
    Array_sort l = closest :: rest /\
    (forall o, o ∈ before -> farther o closest = true) /\
    (forall o, o ∈ after -> farther closest o = false).
Proof.
  induction l as [|x l IH] using rev_ind; intros Hc Hne; [congruence|].
  rewrite Array_sort_snoc.
  destruct l as [|y l'].
  - exists [], x, [], []. simpl. repeat split; intros o Ho; inversion Ho.
  - destruct IH as (before & closest & after & rest & Hl & Hs & Hb & Ha);
      [|discriminate|].
    { eapply consistent_on_subseteq; [|exact Hc].
      intros o Ho. apply elem_of_app. by left. }
    destruct (sort_insert_head x (Array_sort (y :: l'))) as [rest' Hr].
    rewrite Hs in Hr |- *. rewrite Hr.
    destruct Hc as [Has Htr].
    assert (Hx : x ∈ (y :: l') ++ [x])
      by (apply elem_of_app; right; apply list_elem_of_singleton; reflexivity).
    assert (Hin : forall o, o ∈ y :: l' -> o ∈ (y :: l') ++ [x])
      by (intros o Ho; apply elem_of_app; by left).
    assert (Hcl : closest ∈ (y :: l') ++ [x]).
    { apply Hin. rewrite Hl. apply elem_of_app. right. left. }
    assert (Hbin : forall o, o ∈ before -> o ∈ (y :: l') ++ [x]).
    { intros o Ho. apply Hin. rewrite Hl. apply elem_of_app. by left. }
    assert (Hain : forall o, o ∈ after -> o ∈ (y :: l') ++ [x]).
    { intros o Ho. apply Hin. rewrite Hl. apply elem_of_app. right. by right. }
    destruct (farther closest x) eqn:Hf.
    + exists (y :: l'), x, [], rest'. rewrite Hl.
      repeat split.
      * intros o Ho. apply elem_of_app in Ho as [Ho|Ho].
        -- pose proof (Hb o Ho) as Hoc.
           destruct (farther o x) eqn:Hox; [reflexivity|].
           assert (farther x closest = false) by (apply Has; auto).
           assert (farther o closest = false)
             by (apply (Htr o x closest); auto).
           congruence.
        -- apply elem_of_cons in Ho as [->|Ho]; [assumption|].
           pose proof (Ha o Ho) as Hco.
           destruct (farther o x) eqn:Hox; [reflexivity|].
           assert (farther closest x = false)
             by (apply (Htr closest o x); auto).
           congruence.
      * intros o Ho. inversion Ho.
    + exists before, closest, (after ++ [x]), rest'. rewrite Hl, <- app_assoc.
      repeat split; auto.
      intros o Ho. apply elem_of_app in Ho as [Ho|Ho]; [auto|].
      apply list_elem_of_singleton in Ho as ->. assumption.
Qed.

(** ** What the label shows *)

Lemma tally_app c a b : tally c (a ++ b) = tally c a + tally c b.
Proof. unfold tally. rewrite List.filter_app, length_app. reflexivity. Qed.

Lemma tally_warnings c objs :
  tally c (warnings objs) =
  if bool_decide (c = ConsoleWarn) then length (unsupported objs) else 0.
Proof.
  unfold warnings, tally.
  induction (length (unsupported objs)) as [|n IH]; simpl.
  - destruct (bool_decide (c = ConsoleWarn)); reflexivity.
  - destruct (decide (c = ConsoleWarn)) as [->|Hc].
    + rewrite !bool_decide_eq_true_2 in * by reflexivity. simpl. rewrite IH. reflexivity.
    + rewrite (bool_decide_eq_false_2 (ConsoleWarn = c)) by congruence.
      rewrite (bool_decide_eq_false_2 (c = ConsoleWarn)) in * by congruence.
      exact IH.
Qed.

Lemma measure_shows s s1 l text v extra :
  settled s s1 -> labelObj s1 = Some l ->
  exists s',
    updateLabel text v (set_calls (extra ++ calls s1) s1) = Returns tt s' /\
    shown s' = Some (text, Some v) /\
    since s s' = UpdateMatrixWorld (label_id l) :: extra ++ since s s1.
Proof.
  intros (_ & _ & _ & _ & _ & _ & _ & _ & new & Hn & _) Hl.
  eexists. split; [apply (updateLabel_run _ _ _ l); exact Hl|].
  split; [reflexivity|].
  rewrite (since_extend s s1 new Hn).
  apply since_extend. simpl. rewrite Hn, <- app_assoc. reflexivity.
Qed.

Lemma tile_mesh_found objs :
  geometric objs = [] ->
  (exists o, o ∈ objs /\ isTileMesh o = true) ->
  is_Some (tile_mesh objs).
Proof.
  intros Hg (o & Ho & Ht). unfold tile_mesh.
  assert (Hin : o ∈ List.filter (fun o => bool_decide (distance o = None) && isTileMesh o) objs).
  { apply list_elem_of_In, List.filter_In. split; [apply list_elem_of_In; exact Ho|].
    rewrite Ht, andb_true_r. apply bool_decide_eq_true_2.
    destruct (distance o) as [d|] eqn:Hd; [|reflexivity].
    assert (o ∈ geometric objs).
    { apply list_elem_of_In, List.filter_In. split; [apply list_elem_of_In; exact Ho|].
      apply bool_decide_eq_true_2. rewrite Hd. eauto. }
    rewrite Hg in H. inversion H. }
  destruct (List.filter _ objs) as [|x f] using rev_ind; [inversion Hin|].
  rewrite last_snoc. eauto.
Qed.

Lemma tile_mesh_missing objs :
  (forall o, o ∈ objs -> isTileMesh o = false) -> tile_mesh objs = None.
Proof.
  intros H. unfold tile_mesh.
  replace (List.filter _ objs) with (@nil (Pick Number Point)); [reflexivity|].
  symmetry. induction objs as [|o objs IH]; [reflexivity|]. simpl.
  rewrite (H o) by left. rewrite andb_false_r. apply IH.
  intros o' Ho'. apply H. right. exact Ho'.
Qed.

Lemma unsupported_all objs :
  geometric objs = [] -> (forall o, o ∈ objs -> isTileMesh o = false) ->
  unsupported objs = objs.
Proof.
  unfold geometric, unsupported. induction objs as [|o objs IH]; intros Hg Ht; [reflexivity|].
  simpl in *. destruct (distance o) as [d|] eqn:Hd.
  - rewrite bool_decide_eq_true_2 in Hg by eauto. discriminate.
  - rewrite (bool_decide_eq_false_2 (is_Some None)) in Hg
      by (intros [? ?]; discriminate).
    rewrite bool_decide_eq_true_2 by reflexivity.
    rewrite (Ht o) by left. simpl. f_equal. apply IH; [exact Hg|].
    intros o' Ho'. apply Ht. right. exact Ho'.
Qed.

(** ** Events that return *)



(** ** Listeners *)

Lemma no_registration_no_resize new :
  registrations new = [] -> List.filter is_resize_addition new = [].
Proof.
  induction new as [|c new IH]; [reflexivity|]. unfold registrations in *. simpl.
  destruct c; simpl; auto; discriminate.
Qed.

Lemma no_unregistration_no_resize new :
  unregistrations new = [] -> List.filter is_resize_removal new = [].
Proof.
  induction new as [|c new IH]; [reflexivity|]. unfold unregistrations in *. simpl.
  destruct c; simpl; auto; discriminate.
Qed.

Lemma handle_listeners i s s' :
  handle i s = Returns tt s' ->
  exists new,
    calls s' = new ++ calls s /\
    List.filter is_resize_removal new = [] /\
    length (List.filter is_resize_addition new) = activations (active s) [i] /\
    active s' = match i with ButtonClick => negb (active s) | _ => active s end.
Proof.
  intros H. destruct (decide (i = ButtonClick)) as [->|Hc].
  - simpl in H. destruct (active s) eqn:Ha.
    + destruct (labelRenderer s) as [r|] eqn:Hr.
      * destruct (switch_off s r Ha Hr)
          as (s1 & new & H1 & A & _ & _ & _ & _ & _ & _ & C & _ & _ & Rm & Ad).
        rewrite H1 in H. injection H as <-. exists new. rewrite Ad. auto.
      * rewrite switch_off_throws in H by assumption. discriminate.
    + destruct (switch_on s Ha)
        as (s1 & r & l & new & H1 & A & _ & _ & _ & _ & _ & _ & C & _ & _ & Rm & Ad).
      rewrite H1 in H. injection H as <-. exists new. auto.
  - destruct (handle_step _ _ _ Hc H)
      as ((A & _ & _ & _ & _ & _ & _ & _ & new & C & R & U) & _).
    exists new. rewrite (no_registration_no_resize _ R), (no_unregistration_no_resize _ U).
    repeat split; auto.
    + destruct i; try reflexivity. congruence.
    + destruct i; try assumption. congruence.
Qed.

Lemma handle_all_listeners (inputs : list Input) (s s' : Widget) :
  handle_all inputs s = Returns tt s' ->
  exists new,
    calls s' = new ++ calls s /\
    List.filter is_resize_removal new = [] /\
    length (List.filter is_resize_addition new) = activations (active s) inputs.
Proof.
  revert s. induction inputs as [|i inputs IH]; intros s H.
  - injection H as <-. exists []. auto.
  - apply handle_all_cons in H as (s1 & H1 & H2).
    destruct (handle_listeners _ _ _ H1) as (n1 & C1 & R1 & A1 & Act).
    destruct (IH _ H2) as (n2 & C2 & R2 & A2).
    exists (n2 ++ n1). rewrite C2, C1, app_assoc.
    rewrite !List.filter_app, R1, R2, length_app, A1, A2, Act.
    repeat split. destruct i; simpl; lia.
Qed.

(** ** Function objects *)

Lemma onButtonClick_keeps s s' :
  onButtonClick s = Returns tt s' ->
  drag s' = drag s /\
  previousMouseMoveEvent s' = previousMouseMoveEvent s /\
  decimals s' = decimals s /\ noElevationText s' = noElevationText s /\
  movePointMaterial s' = movePointMaterial s /\
  clickPointMaterial s' = clickPointMaterial s.
Proof.
  destruct s as [a mp cp lr lo d pe dec net mm cm h nx cs].
  destruct a, lr, mp, cp; cbv -[bind_this Pos.succ]; intros H;
    try discriminate; injection H as <-; repeat split.
Qed.

Lemma switch_on_binds s s' :
  active s = false -> onButtonClick s = Returns tt s' ->
  forall t, handler_for t (handlers s') = bind_this (handler_for t (handlers s)).
Proof.
  intros Ha H. destruct s as [a mp cp lr lo d pe dec net mm cm h nx cs].
  simpl in Ha. subst a. cbv -[bind_this Pos.succ] in H. injection H as <-.
  intros [type| |]; simpl; [|reflexivity|reflexivity].
  repeat case_bool_decide; reflexivity.
Qed.

Lemma registrations_once_step i s s' :
  handle i s = Returns tt s' ->
  NoDup (registrations (calls s)) ->
  (forall t f, (t, f) ∈ registrations (calls s) ->
               fn_bound f <= fn_bound (handler_for t (handlers s))) ->
  NoDup (registrations (calls s')) /\
  (forall t f, (t, f) ∈ registrations (calls s') ->
               fn_bound f <= fn_bound (handler_for t (handlers s'))).
Proof.
  intros H Hnd Hb. destruct (decide (i = ButtonClick)) as [->|Hc].
  - simpl in H. destruct (active s) eqn:Ha.
    + destruct (labelRenderer s) as [r|] eqn:Hr.
      * destruct (switch_off s r Ha Hr)
          as (s1 & new & H1 & _ & _ & _ & _ & _ & Hh & _ & C & R & _).
        rewrite H1 in H. injection H as <-.
        rewrite C, registrations_app, R, Hh. auto.
      * rewrite switch_off_throws in H by assumption. discriminate.
    + pose proof (switch_on_binds s s' Ha H) as Hbind.
      destruct (switch_on s Ha)
        as (s1 & r & l & new & H1 & _ & _ & _ & _ & _ & _ & _ & C & R & _).
      rewrite H1 in H. injection H as ->.
      rewrite C, registrations_app, R.
      assert (Hnew : forall t f,
                (t, f) ∈ [(Window "resize", onWindowResizeFn (handlers s'));
                          (FrameRequesters, renderLabelFn (handlers s'));
                          (Controls, onZoomFn (handlers s'));
                          (Window "mouseup", onMouseUpFn (handlers s'));
                          (Window "mousemove", onMouseMoveFn (handlers s'));
                          (Window "mousedown", onMouseDownFn (handlers s'))] ->
                f = handler_for t (handlers s')).
      { intros t f Hin.
        repeat (apply elem_of_cons in Hin as [Hin|Hin];
                [injection Hin as -> ->; reflexivity|]).
        inversion Hin. }
      split.
      * apply NoDup_app. split; [|split; [|exact Hnd]].
        -- repeat (apply NoDup_cons; split;
                   [intros Hin;
                    repeat (apply elem_of_cons in Hin as [Hin|Hin]; [discriminate|]);
                    inversion Hin|]).
           apply NoDup_nil_2.
        -- intros [t f] Hin Hold. apply Hnew in Hin. subst f.
           apply Hb in Hold. rewrite Hbind in Hold. simpl in Hold. lia.
      * intros t f Hin. apply elem_of_app in Hin as [Hin|Hin].
        -- apply Hnew in Hin. subst f. lia.
        -- apply Hb in Hin. rewrite Hbind. simpl. lia.
  - destruct (handle_step _ _ _ Hc H)
      as ((_ & Hh & _ & _ & _ & _ & _ & _ & new & C & R & _) & _).
    rewrite C, registrations_app, R, Hh. auto.
Qed.

Lemma registrations_once inputs s s' :
  handle_all inputs s = Returns tt s' ->
  NoDup (registrations (calls s)) ->
  (forall t f, (t, f) ∈ registrations (calls s) ->
               fn_bound f <= fn_bound (handler_for t (handlers s))) ->
  NoDup (registrations (calls s')).
Proof.
  revert s. induction inputs as [|i inputs IH]; intros s H Hnd Hb.
  - injection H as <-. exact Hnd.
  - apply handle_all_cons in H as (s1 & H1 & H2).
    destruct (registrations_once_step _ _ _ H1 Hnd Hb) as [Hnd1 Hb1].
    eapply IH; eauto.
Qed.

End WidgetRuns.

(** ** The properties *)

(** X13. [onMouseUp] does nothing at all, and calls nothing, when the button
    of the event is not the left one or when the mouse has been dragged. *)
Theorem onMouseUp_ignores_drags_and_other_buttons {E : Engine}
  (event : MouseEvent) (s : Widget) :
  button event <> 0%Z \/ drag s = true ->
  onMouseUp event s = Returns tt s.
Proof. apply onMouseUp_guard. Qed.

Lemma onMouseUp_ignores_drags_and_other_buttons_witness :
  (button {| button := 2; pointer := 5 |} <> 0%Z \/
   drag (example_switched_on None ElevationNull) = true) /\
  onMouseUp {| button := 2; pointer := 5 |} (example_switched_on None ElevationNull) =
  Returns tt (example_switched_on None ElevationNull).
Proof.
  assert (H : button {| button := 2; pointer := 5 |} <> 0%Z \/
              drag (example_switched_on None ElevationNull) = true)
    by (left; discriminate).
  split; [exact H|].
  apply (onMouseUp_ignores_drags_and_other_buttons _ _ H).
Defined.

(** X14. Once the mouse has moved, no release of a button measures anything
    until the next [mousedown], whatever else happens in between (zooms,
    resizes, frames, other releases, clicks on the activation button). *)
Theorem no_measure_between_a_move_and_the_next_mouse_down {E : Engine}
  (event event' : MouseEvent) (inputs : list Input) (s s' : Widget) :
  MouseDown ∉ inputs ->
  handle_all (MouseMove event :: inputs) s = Returns tt s' ->
  onMouseUp event' s' = Returns tt s'.
Proof.
  intros Hn H. apply handle_all_cons in H as (s1 & H1 & H2).
  apply onMouseUp_guard. right.
  eapply handle_all_drag; eauto.
  simpl in H1. apply onMouseMove_step in H1 as (_ & _ & Hd). exact Hd.
Qed.

Lemma no_measure_between_a_move_and_the_next_mouse_down_witness :
  (MouseDown ∉ [Zoom; MouseUp (left_click 7); WindowResize]) /\
  onMouseUp (left_click 8)
    (after (MouseMove (left_click 6) :: [Zoom; MouseUp (left_click 7); WindowResize])
       (example_switched_on None ElevationNull)) =
  Returns tt
    (after (MouseMove (left_click 6) :: [Zoom; MouseUp (left_click 7); WindowResize])
       (example_switched_on None ElevationNull)).
Proof.
  assert (H : MouseDown ∉ [Zoom; MouseUp (left_click 7); WindowResize]).
  { intros H. repeat (apply elem_of_cons in H as [H|H]; [discriminate|]). inversion H. }
  split; [exact H|].
  apply (no_measure_between_a_move_and_the_next_mouse_down
           (left_click 6) (left_click 8) _ (example_switched_on None ElevationNull) _ H).
  vm_compute. reflexivity.
Defined.

(** X15. [onMouseMove] is [onZoom] run after the two assignments to [#drag]
    and [#previousMouseMoveEvent]: same calls, same state, same exception. *)
Theorem onMouseMove_is_onZoom_at_the_event {E : Engine}
  (event : MouseEvent) (s : Widget) :
  onMouseMove event s =
  onZoom (set_previousMouseMoveEvent (Some event) (set_drag true s)).
Proof. apply onMouseMove_as_onZoom. Qed.

(** X16. A left click that is not a drag, on picks of which at least one
    carries a distance, the comparator of the sort being consistent on the
    picks that carry one, shows the altitude of the first pick from which no
    other is strictly closer, whatever tile mesh was picked too, and does not
    read the elevation of the terrain; when [toFixed] refuses [decimals] the
    [RangeError] leaves [onMouseUp]. *)
Theorem measure_reads_the_closest_pick {E : Engine}
  (event : MouseEvent) (s : Widget) (c : Coordinates) (l : Label)
  (objs : list (Pick Number Point)) :
  consistent_on (geometric objs) ->
  button event = 0%Z -> drag s = false -> labelObj s = Some l ->
  pickCoordinates (calls s) (Some event) = Some c ->
  (forall h, pickObjectsAt (h ++ calls s) event = Some objs) ->
  geometric objs <> [] ->
  exists before closest after,
    geometric objs = before ++ closest :: after /\
    (forall o, o ∈ before -> farther o closest = true) /\
    (forall o, o ∈ after -> farther closest o = false) /\
    match toFixed (altitude (point closest)) (decimals s) with
    | Some text =>
        measures event s (text ++ " m")%string (toVector3 c)
          0 (length (unsupported objs))
    | None => onMouseUp event s = Throws RangeErr
    end.
Proof.
  intros Hcons Hb Hd Hl Hc Hpick Hg.
  destruct (Array_sort_head (geometric objs) Hcons Hg)
    as (before & closest & after & rest & Hsplit & Hsort & Hbefore & Hafter).
  exists before, closest, after. repeat split; auto.
  destruct (onMouseUp_phases event s c Hb Hd Hc)
    as (s1 & pt & history & Hs & Hl1 & _ & _ & _ & _ & Hcalls & [h ->] & Hge & Hcw & Hrun).
  rewrite Hpick in Hrun. simpl in Hrun. rewrite Hsort in Hrun.
  destruct (toFixed (altitude (point closest)) (decimals s)) as [text|]; [|exact Hrun].
  rewrite Hl in Hl1.
  destruct (measure_shows s s1 l (text ++ " m")%string (toVector3 c) (warnings objs) Hs Hl1)
    as (s' & Hup & Hshown & Hsince).
  exists s'. rewrite Hsince.
  split; [congruence|]. split; [exact Hshown|]. split.
  - change (tally GetElevationValueAt
              ([UpdateMatrixWorld (label_id l)] ++ warnings objs ++ since s s1) = 0).
    rewrite !tally_app, tally_warnings. unfold tally at 2. rewrite Hge. reflexivity.
  - change (tally ConsoleWarn
              ([UpdateMatrixWorld (label_id l)] ++ warnings objs ++ since s s1)
            = length (unsupported objs)).
    rewrite !tally_app, tally_warnings. unfold tally at 2. rewrite Hcw. simpl. lia.
Qed.

Lemma measure_reads_the_closest_pick_witness :
  @consistent_on (example_engine (Some example_picks) (ElevationNumber 7%Z))
    (@geometric (example_engine (Some example_picks) (ElevationNumber 7%Z))
       example_picks) /\
  @measures (example_engine (Some example_picks) (ElevationNumber 7%Z))
    (left_click 9) (example_switched_on (Some example_picks) (ElevationNumber 7%Z))
    "95.00 m" 9%positive 0 1.
Proof.
  assert (Hcons : @consistent_on
                    (example_engine (Some example_picks) (ElevationNumber 7%Z))
                    (@geometric
                       (example_engine (Some example_picks) (ElevationNumber 7%Z))
                       example_picks)).
  { split.
    - intros [[da|] ta pa] [[db|] tb pb] _ _; unfold farther; simpl;
        try discriminate.
      intros H. apply bool_decide_eq_true_1 in H. apply bool_decide_eq_false_2. lia.
    - intros [[da|] ta pa] [[db|] tb pb] [[dc|] tc pc] _ Hb _;
        unfold farther; simpl; try reflexivity.
      + intros H1 H2. apply bool_decide_eq_false_1 in H1, H2.
        apply bool_decide_eq_false_2. lia.
      + exfalso. apply list_elem_of_In, List.filter_In in Hb as [_ Hb].
        apply bool_decide_eq_true_1 in Hb. destruct Hb as [? Hb]. discriminate. }
  split; [exact Hcons|].
  destruct (@measure_reads_the_closest_pick
              (example_engine (Some example_picks) (ElevationNumber 7%Z))
              (left_click 9)
              (example_switched_on (Some example_picks) (ElevationNumber 7%Z))
              9%positive (example_label _ _) example_picks Hcons
              eq_refl eq_refl eq_refl eq_refl (fun _ => eq_refl))
    as (before & closest & after & Hsplit & Hbefore & Hafter & Hm).
  - discriminate.
  - destruct before as [|b1 [|b2 before]].
    + exfalso. injection Hsplit as <- <-.
      specialize (Hafter _ ltac:(left)). discriminate.
    + injection Hsplit as <- <- _. exact Hm.
    + exfalso. injection Hsplit as <- <- Hsplit.
      destruct before as [|b3 before].
      * injection Hsplit as <-. specialize (Hbefore _ ltac:(right; left)). discriminate.
      * injection Hsplit as _ Hsplit. destruct before; discriminate.
Defined.

(** X17. When no pick carries a distance and a tile mesh was picked, a left
    click reads the elevation of the terrain once, at the picked
    coordinates, and shows it; a null, undefined or NaN elevation shows
    [noElevationText]. *)
Theorem measure_falls_back_on_the_terrain {E : Engine}
  (event : MouseEvent) (s : Widget) (c : Coordinates) (l : Label)
  (objs : list (Pick Number Point)) (v : Elevation Number) :
  button event = 0%Z -> drag s = false -> labelObj s = Some l ->
  pickCoordinates (calls s) (Some event) = Some c ->
  (forall h, pickObjectsAt (h ++ calls s) event = Some objs) ->
  (forall h, getElevationValueAt (h ++ calls s) c = v) ->
  geometric objs = [] ->
  (exists o, o ∈ objs /\ isTileMesh o = true) ->
  match v with
  | ElevationNumber n =>
      if isNaN n
      then measures event s (noElevationText s) (toVector3 c)
             1 (length (unsupported objs))
      else match toFixed n (decimals s) with
           | Some text =>
               measures event s (text ++ " m")%string (toVector3 c)
                 1 (length (unsupported objs))
           | None => onMouseUp event s = Throws RangeErr
           end
  | _ => measures event s (noElevationText s) (toVector3 c)
           1 (length (unsupported objs))
  end.
Proof.
  intros Hb Hd Hl Hc Hpick Helev Hg Htile.
  destruct (onMouseUp_phases event s c Hb Hd Hc)
    as (s1 & pt & history & Hs & Hl1 & _ & _ & _ & _ & Hcalls & [h ->] & Hge & Hcw & Hrun).
  rewrite Hpick in Hrun. simpl in Hrun. rewrite Hg in Hrun.
  change (Array_sort []) with (@nil (Pick Number Point)) in Hrun.
  destruct (tile_mesh_found objs Hg Htile) as [tm Htm]. rewrite Htm in Hrun.
  rewrite Hcalls in Hrun.
  change (warnings objs ++ PickObjectsAt event :: h ++ calls s)
    with (warnings objs ++ [PickObjectsAt event] ++ h ++ calls s) in Hrun.
  rewrite !app_assoc, Helev in Hrun. rewrite <- !app_assoc in Hrun.
  rewrite Hl in Hl1.
  assert (Hfin : forall text,
    onMouseUp event s =
      updateLabel text (toVector3 c)
        (set_calls (GetElevationValueAt :: warnings objs ++ calls s1) s1) ->
    measures event s text (toVector3 c) 1 (length (unsupported objs))).
  { intros text Hup.
    destruct (measure_shows s s1 l text (toVector3 c)
                (GetElevationValueAt :: warnings objs) Hs Hl1)
      as (s' & Hup' & Hshown & Hsince).
    exists s'. rewrite Hsince.
    split; [rewrite Hup; exact Hup'|]. split; [exact Hshown|]. split.
    - change (tally GetElevationValueAt
                ([UpdateMatrixWorld (label_id l); GetElevationValueAt] ++
                 warnings objs ++ since s s1) = 1).
      rewrite !tally_app, tally_warnings. unfold tally at 2. rewrite Hge. reflexivity.
    - change (tally ConsoleWarn
                ([UpdateMatrixWorld (label_id l); GetElevationValueAt] ++
                 warnings objs ++ since s s1) = length (unsupported objs)).
      rewrite !tally_app, tally_warnings. unfold tally at 2. rewrite Hcw. simpl. lia. }
  rewrite Hcalls in Hfin.
  destruct v as [| |n]; try (apply Hfin; exact Hrun).
  destruct (isNaN n); [apply Hfin; exact Hrun|].
  destruct (toFixed n (decimals s)); [apply Hfin; exact Hrun | exact Hrun].
Qed.

Lemma measure_falls_back_on_the_terrain_witness :
  @geometric (example_engine (Some example_terrain_picks) (ElevationNumber 7%Z))
    example_terrain_picks = [] /\
  @measures (example_engine (Some example_terrain_picks) (ElevationNumber 7%Z))
    (left_click 9)
    (example_switched_on (Some example_terrain_picks) (ElevationNumber 7%Z))
    "7.00 m" 9%positive 1 1.
Proof.
  split; [reflexivity|].
  apply (@measure_falls_back_on_the_terrain
           (example_engine (Some example_terrain_picks) (ElevationNumber 7%Z))
           (left_click 9)
           (example_switched_on (Some example_terrain_picks) (ElevationNumber 7%Z))
           9%positive (example_label _ _) example_terrain_picks (ElevationNumber 7%Z)
           eq_refl eq_refl eq_refl eq_refl (fun _ => eq_refl) (fun _ => eq_refl)
           eq_refl).
  eexists. split; [left|reflexivity].
Defined.

(** X18. When nothing is picked, or when no pick carries a distance and none
    is a tile mesh, a left click shows [noElevationText] at the picked
    position without reading the elevation of the terrain, and warns once
    for each pick. *)
Theorem measure_without_support_shows_no_elevation {E : Engine}
  (event : MouseEvent) (s : Widget) (c : Coordinates) (l : Label)
  (picks : option (list (Pick Number Point))) :
  button event = 0%Z -> drag s = false -> labelObj s = Some l ->
  pickCoordinates (calls s) (Some event) = Some c ->
  (forall h, pickObjectsAt (h ++ calls s) event = picks) ->
  (forall objs, picks = Some objs ->
     geometric objs = [] /\ forall o, o ∈ objs -> isTileMesh o = false) ->
  measures event s (noElevationText s) (toVector3 c)
    0 (length (default [] picks)).
Proof.
  intros Hb Hd Hl Hc Hpick Hobjs.
  destruct (onMouseUp_phases event s c Hb Hd Hc)
    as (s1 & pt & history & Hs & Hl1 & _ & _ & _ & _ & Hcalls & [h ->] & Hge & Hcw & Hrun).
  rewrite Hpick in Hrun. rewrite Hl in Hl1.
  destruct picks as [objs|].
  - destruct (Hobjs objs eq_refl) as [Hg Ht].
    simpl in Hrun. rewrite Hg in Hrun.
    change (Array_sort []) with (@nil (Pick Number Point)) in Hrun.
    rewrite (tile_mesh_missing objs Ht) in Hrun.
    destruct (measure_shows s s1 l (noElevationText s) (toVector3 c) (warnings objs) Hs Hl1)
      as (s' & Hup & Hshown & Hsince).
    exists s'. rewrite Hsince.
    split; [rewrite Hrun; exact Hup|]. split; [exact Hshown|]. split.
    + change (tally GetElevationValueAt
                ([UpdateMatrixWorld (label_id l)] ++ warnings objs ++ since s s1) = 0).
      rewrite !tally_app, tally_warnings. unfold tally at 2. rewrite Hge. reflexivity.
    + change (tally ConsoleWarn
                ([UpdateMatrixWorld (label_id l)] ++ warnings objs ++ since s s1)
              = length objs).
      rewrite !tally_app, tally_warnings. unfold tally at 2. rewrite Hcw.
      rewrite (unsupported_all objs Hg Ht). simpl. lia.
  - destruct (measure_shows s s1 l (noElevationText s) (toVector3 c) [] Hs Hl1)
      as (s' & Hup & Hshown & Hsince).
    exists s'. rewrite Hsince.
    split; [rewrite Hrun, <- (set_calls_same s1); exact Hup|].
    split; [exact Hshown|]. split.
    + change (tally GetElevationValueAt
                ([UpdateMatrixWorld (label_id l)] ++ since s s1) = 0).
      rewrite !tally_app. unfold tally at 2. rewrite Hge. reflexivity.
    + change (tally ConsoleWarn
                ([UpdateMatrixWorld (label_id l)] ++ since s s1) = 0).
      rewrite !tally_app. unfold tally at 2. rewrite Hcw. reflexivity.
Qed.

Lemma measure_without_support_shows_no_elevation_witness :
  @geometric (example_engine (Some example_unsupported_picks) (ElevationNumber 7%Z))
    example_unsupported_picks = [] /\
  @measures (example_engine (Some example_unsupported_picks) (ElevationNumber 7%Z))
    (left_click 9)
    (example_switched_on (Some example_unsupported_picks) (ElevationNumber 7%Z))
    "-" 9%positive 0 1.
Proof.
  split; [reflexivity|].
  apply (@measure_without_support_shows_no_elevation
           (example_engine (Some example_unsupported_picks) (ElevationNumber 7%Z))
           (left_click 9)
           (example_switched_on (Some example_unsupported_picks) (ElevationNumber 7%Z))
           9%positive (example_label _ _) (Some example_unsupported_picks)
           eq_refl eq_refl eq_refl eq_refl (fun _ => eq_refl)).
  intros objs Hobjs. injection Hobjs as <-. split; [reflexivity|].
  intros o Ho. apply list_elem_of_singleton in Ho as ->. reflexivity.
Defined.

(** X19. Whatever the mouse, the zoom, the window and the main loop deliver,
    the scene is given one object for each of the two points that comes into
    being and no other, and a point that exists stays the same object with
    the same geometry and material: it is moved, never made again. *)
Theorem points_are_made_once {E : Engine}
  (inputs : list Input) (s s' : Widget) :
  ButtonClick ∉ inputs ->
  handle_all inputs s = Returns tt s' ->
  frugal s s'.
Proof.
  intros Hn H. destruct (handle_all_step _ _ _ Hn H) as (_ & Hf & _). exact Hf.
Qed.

Lemma points_are_made_once_witness :
  (ButtonClick ∉ [MouseMove (left_click 5); MouseDown; MouseUp (left_click 5);
                  MouseMove (left_click 6); Zoom; MouseDown; MouseUp (left_click 6)]) /\
  frugal (example_switched_on None ElevationNull)
    (after [MouseMove (left_click 5); MouseDown; MouseUp (left_click 5);
            MouseMove (left_click 6); Zoom; MouseDown; MouseUp (left_click 6)]
       (example_switched_on None ElevationNull)).
Proof.
  assert (H : ButtonClick ∉
              [MouseMove (left_click 5); MouseDown; MouseUp (left_click 5);
               MouseMove (left_click 6); Zoom; MouseDown; MouseUp (left_click 6)]).
  { intros H. repeat (apply elem_of_cons in H as [H|H]; [discriminate|]). inversion H. }
  split; [exact H|].
  apply (points_are_made_once _ (example_switched_on None ElevationNull) _ H).
  vm_compute. reflexivity.
Defined.

(** X20. Switching the tool off unregisters, with the very functions that
    were registered, every listener that switching it on registered, except
    the listener of the [resize] event of the window, which stays. *)
Theorem switching_off_unregisters_all_but_resize {E : Engine}
  (s s1 s2 s3 : Widget) (inputs : list Input) :
  active s = false ->
  onButtonClick s = Returns tt s1 ->
  ButtonClick ∉ inputs ->
  handle_all inputs s1 = Returns tt s2 ->
  onButtonClick s2 = Returns tt s3 ->
  registrations (since s s1) =
    (Window "resize", onWindowResizeFn (handlers s1)) ::
    unregistrations (since s2 s3).
Proof.
  intros Ha H1 Hn H2 H3.
  destruct (switch_on s Ha)
    as (s1' & r & l & new & H1' & A1 & R1 & _ & _ & _ & _ & _ & C1 & Reg & _).
  rewrite H1' in H1. injection H1 as ->.
  destruct (handle_all_step _ _ _ Hn H2) as ((A2 & Hh & R2 & _) & _).
  rewrite A1 in A2. rewrite R1 in R2.
  destruct (switch_off s2 r A2 R2)
    as (s3' & new' & H3' & _ & _ & _ & _ & _ & _ & _ & C3 & _ & Unreg & _).
  rewrite H3' in H3. injection H3 as ->.
  rewrite (since_extend _ _ _ C1), (since_extend _ _ _ C3), Reg, Unreg, Hh.
  reflexivity.
Qed.

Lemma switching_off_unregisters_all_but_resize_witness :
  (ButtonClick ∉ [MouseMove (left_click 5); MouseDown; MouseUp (left_click 5)]) /\
  registrations
    (since (example_created None ElevationNull)
       (after [ButtonClick] (example_created None ElevationNull))) =
  (Window "resize", {| fn_method := "onWindowResize"; fn_bound := 1 |}) ::
  unregistrations
    (since
       (after [ButtonClick; MouseMove (left_click 5); MouseDown; MouseUp (left_click 5)]
          (example_created None ElevationNull))
       (after [ButtonClick; MouseMove (left_click 5); MouseDown; MouseUp (left_click 5);
               ButtonClick]
          (example_created None ElevationNull))).
Proof.
  assert (H : ButtonClick ∉ [MouseMove (left_click 5); MouseDown; MouseUp (left_click 5)]).
  { intros H. repeat (apply elem_of_cons in H as [H|H]; [discriminate|]). inversion H. }
  split; [exact H|].
  apply (switching_off_unregisters_all_but_resize
           (example_created None ElevationNull)
           (after [ButtonClick] (example_created None ElevationNull))
           (after [ButtonClick; MouseMove (left_click 5); MouseDown; MouseUp (left_click 5)]
              (example_created None ElevationNull))
           (after [ButtonClick; MouseMove (left_click 5); MouseDown; MouseUp (left_click 5);
                   ButtonClick]
              (example_created None ElevationNull))
           [MouseMove (left_click 5); MouseDown; MouseUp (left_click 5)]
           eq_refl); [| exact H | |]; vm_compute; reflexivity.
Defined.

(** X21. No method of the widget ever unregisters a [resize] listener, whereas
    each switching on registers one: over any run, the [resize] listeners
    registered are as many as the times the tool was switched on. *)
Theorem resize_listeners_are_never_unregistered {E : Engine}
  (inputs : list Input) (s s' : Widget) :
  handle_all inputs s = Returns tt s' ->
  List.filter is_resize_removal (since s s') = [] /\
  length (List.filter is_resize_addition (since s s')) =
    activations (active s) inputs.
Proof.
  intros H. destruct (handle_all_listeners _ _ _ H) as (new & C & R & A).
  rewrite (since_extend _ _ _ C). auto.
Qed.

Lemma resize_listeners_are_never_unregistered_witness :
  List.filter is_resize_removal
    (since (example_created None ElevationNull)
       (after [ButtonClick; MouseMove (left_click 5); ButtonClick; ButtonClick;
               WindowResize; ButtonClick; ButtonClick]
          (example_created None ElevationNull))) = [] /\
  length (List.filter is_resize_addition
    (since (example_created None ElevationNull)
       (after [ButtonClick; MouseMove (left_click 5); ButtonClick; ButtonClick;
               WindowResize; ButtonClick; ButtonClick]
          (example_created None ElevationNull)))) = 3.
Proof.
  apply (resize_listeners_are_never_unregistered
           [ButtonClick; MouseMove (left_click 5); ButtonClick; ButtonClick;
            WindowResize; ButtonClick; ButtonClick]
           (example_created None ElevationNull)).
  vm_compute. reflexivity.
Defined.





(** X24. [removePoints] never throws; it removes from the scene and disposes
    of the geometry of each point that exists, disposes of the two materials
    of the widget only for the points that exist, and disposes of the
    texture shared by the default materials in every case, so that a second
    call does nothing but dispose of that texture again. *)
Theorem removePoints_twice {E : Engine} (s : Widget) :
  exists s1 s2,
    removePoints s = Returns tt s1 /\
    movePoint s1 = None /\ clickPoint s1 = None /\
    since s s1 =
      PointTextureDispose ::
      removal (clickPoint s) (clickPointMaterial s) ++
      removal (movePoint s) (movePointMaterial s) /\
    removePoints s1 = Returns tt s2 /\
    since s1 s2 = [PointTextureDispose].
Proof.
  eexists _, _. split; [apply removePoints_run|].
  split; [reflexivity|]. split; [reflexivity|]. split.
  - apply since_extend. simpl. rewrite <- app_assoc. reflexivity.
  - split; [apply removePoints_run|]. apply since_extend. reflexivity.
Qed.

(** X25. Every switching on registers function objects that were never
    registered before: over any run of a widget, no function is registered
    twice on the same target, so the [resize] listeners left behind are all
    different functions. *)
Theorem listeners_are_new_functions {E : Engine}
  (inputs : list Input) (decimals0 : Number) (noElevationText0 : string)
  (movePointMaterial0 clickPointMaterial0 : loc) (s' : Widget) :
  handle_all inputs
    (created decimals0 noElevationText0 movePointMaterial0 clickPointMaterial0)
    = Returns tt s' ->
  NoDup (registrations (calls s')).
Proof.
  intros H. apply (registrations_once _ _ _ H).
  - apply NoDup_nil_2.
  - intros t f Hin. inversion Hin.
Qed.

Lemma listeners_are_new_functions_witness :
  NoDup (registrations
    (calls (after [ButtonClick; MouseMove (left_click 5); ButtonClick; ButtonClick;
                   WindowResize; ButtonClick; ButtonClick]
              (example_created None ElevationNull)))).
Proof.
  apply (@listeners_are_new_functions (example_engine None ElevationNull)
           [ButtonClick; MouseMove (left_click 5); ButtonClick; ButtonClick;
            WindowResize; ButtonClick; ButtonClick]
           2%Z "-" 10%positive 11%positive).
  vm_compute. reflexivity.
Defined.

(** X26. Switching the tool off takes the points, the label renderer and the
    label object back to null, as they are before the first switching on;
    it resets neither [#drag] nor [#previousMouseMoveEvent], nor the
    functions bound at the last switching on, nor the configuration. *)
Theorem switching_off_resets_points_and_label_only {E : Engine}
  (s s' : Widget) :
  active s = true ->
  onButtonClick s = Returns tt s' ->
  active s' = false /\
  movePoint s' = None /\ clickPoint s' = None /\
  labelRenderer s' = None /\ labelObj s' = None /\
  drag s' = drag s /\
  previousMouseMoveEvent s' = previousMouseMoveEvent s /\
  handlers s' = handlers s /\
  decimals s' = decimals s /\ noElevationText s' = noElevationText s /\
  movePointMaterial s' = movePointMaterial s /\
  clickPointMaterial s' = clickPointMaterial s.
Proof.
  intros Ha H.
  destruct (onButtonClick_keeps _ _ H) as (K1 & K2 & K3 & K4 & K5 & K6).
  destruct (labelRenderer s) as [r|] eqn:Hr.
  - destruct (switch_off s r Ha Hr)
      as (s1 & new & H1 & A & R & L & M & C & Hh & _).
    rewrite H1 in H. injection H as <-. repeat split; assumption.
  - rewrite switch_off_throws in H by assumption. discriminate.
Qed.

Lemma switching_off_resets_points_and_label_only_witness :
  previousMouseMoveEvent
    (after [MouseMove (left_click 5); MouseDown; MouseUp (left_click 5); ButtonClick]
       (example_switched_on None ElevationNull)) = Some (left_click 5) /\
  clickPoint
    (after [MouseMove (left_click 5); MouseDown; MouseUp (left_click 5); ButtonClick]
       (example_switched_on None ElevationNull)) = None.
Proof.
  destruct (switching_off_resets_points_and_label_only
              (after [MouseMove (left_click 5); MouseDown; MouseUp (left_click 5)]
                 (example_switched_on None ElevationNull))
              (after [MouseMove (left_click 5); MouseDown; MouseUp (left_click 5);
                      ButtonClick]
                 (example_switched_on None ElevationNull)))
    as (_ & _ & Hc & _ & _ & _ & Hp & _).
  - vm_compute. reflexivity.
  - vm_compute. reflexivity.
  - split; [rewrite Hp; vm_compute; reflexivity | exact Hc].
Defined.

End ElevationMeasureProperties.
